(** * subchef: request normalisation, ranking, upstream client, SubHD parser
      and SubHD provider, embedded from the TypeScript sources.

    Conventions of the embedding.
    - An ECMAScript string is the list of its UTF-16 code units ([list N]).
      Literals are written as Rocq strings (UTF-8) and decoded by [lit].
    - Regular expressions are values of [regex], run by a backtracking
      matcher that follows the ECMAScript matcher (greedy and lazy stars,
      one capture group, word boundaries, case folding under the i flag).
    - What the JavaScript host supplies from tables that are not part of the
      repository (Unicode case mapping and categories, the collation behind
      localeCompare, Math.log10, the URL parser, percent-coding) is a field
      of the classes [Unicode], [Numeric] and [Web].
    - Promises are run to completion: an async function is a state
      transformer returning a value or the thrown error.
    - A lookup in an object literal used as a table ([objectGet]) finds the
      literal's own properties and, for the other names, the members of
      Object.prototype; what the code then does with such a member is
      followed, up to the TypeError it raises.
    - A number that arrives from a caller at run time is a [jsnumber]: a
      finite rational, NaN or an infinity; the integers of the sources'
      arithmetic are [Z]. *)

From Stdlib Require Import ZArith NArith QArith Qround Qabs Qminmax List String Ascii Lia.
From Stdlib Require Import Permutation Sorted DecimalString Lqa.
From stdpp Require Import gmap.
Import ListNotations.

Local Open Scope N_scope.

(** ** Strings *)

Abbreviation jsstring := (list N) (only parsing).

Definition cp2 (b0 b1 : N) : N := (b0 mod 32) * 64 + b1 mod 64.
Definition cp3 (b0 b1 b2 : N) : N := ((b0 mod 16) * 64 + b1 mod 64) * 64 + b2 mod 64.
Definition cp4 (b0 b1 b2 b3 : N) : N :=
  (((b0 mod 8) * 64 + b1 mod 64) * 64 + b2 mod 64) * 64 + b3 mod 64.

(** The code units of one code point (a surrogate pair above U+FFFF). *)
Definition unitsOfCodePoint (c : N) : jsstring :=
  if c <? 0x10000 then [c]
  else [0xD800 + (c - 0x10000) / 0x400; 0xDC00 + (c - 0x10000) mod 0x400].

(** UTF-8 bytes to UTF-16 code units; a truncated sequence gives U+FFFD. *)
Fixpoint utf8_units (bs : list N) : jsstring :=
  match bs with
  | [] => []
  | b0 :: t0 =>
    if b0 <? 0x80 then b0 :: utf8_units t0 else
    match t0 with
    | [] => [0xFFFD]
    | b1 :: t1 =>
      if b0 <? 0xE0 then cp2 b0 b1 :: utf8_units t1 else
      match t1 with
      | [] => [0xFFFD]
      | b2 :: t2 =>
        if b0 <? 0xF0 then cp3 b0 b1 b2 :: utf8_units t2 else
        match t2 with
        | [] => [0xFFFD]
        | b3 :: t3 => unitsOfCodePoint (cp4 b0 b1 b2 b3) ++ utf8_units t3
        end
      end
    end
  end.

(** A string literal of the source. *)
Definition lit (s : string) : jsstring :=
  utf8_units (fmap N_of_ascii (list_ascii_of_string s)).
Arguments lit : simpl never.

(** WhiteSpace and LineTerminator of ECMA-262: what [trim] strips and what
    the class escape \s matches. *)
Definition isWhiteSpace (c : N) : bool :=
  ((9 <=? c) && (c <=? 13)) || (c =? 32) || (c =? 0xA0) || (c =? 0x1680)
  || ((0x2000 <=? c) && (c <=? 0x200A)) || (c =? 0x2028) || (c =? 0x2029)
  || (c =? 0x202F) || (c =? 0x205F) || (c =? 0x3000) || (c =? 0xFEFF).

Fixpoint dropWhile {A} (p : A -> bool) (l : list A) : list A :=
  match l with
  | [] => []
  | x :: t => if p x then dropWhile p t else l
  end.

Definition trimStart (s : jsstring) : jsstring := dropWhile isWhiteSpace s.
Definition trimEnd (s : jsstring) : jsstring := rev (dropWhile isWhiteSpace (rev s)).
Definition trim (s : jsstring) : jsstring := trimEnd (trimStart s).

Definition str_eqb (a b : jsstring) : bool := bool_decide (a = b).

Fixpoint startsWith (s p : jsstring) {struct p} : bool :=
  match p, s with
  | [], _ => true
  | _ :: _, [] => false
  | a :: p', b :: s' => (a =? b) && startsWith s' p'
  end.

Definition endsWith (s p : jsstring) : bool := startsWith (rev s) (rev p).

Fixpoint includes (s needle : jsstring) : bool :=
  startsWith s needle ||
  match s with
  | [] => false
  | _ :: t => includes t needle
  end.

(** [s.indexOf(needle)], -1 when absent. *)
Fixpoint indexOfFrom (s needle : jsstring) (i : Z) : Z :=
  if startsWith s needle then i
  else match s with
       | [] => (-1)%Z
       | _ :: t => indexOfFrom t needle (i + 1)%Z
       end.
Definition indexOf (s needle : jsstring) : Z := indexOfFrom s needle 0%Z.

(** Relative indices of [slice]: negative ones count from the end. *)
Definition clampIndex (len k : Z) : Z :=
  if (k <? 0)%Z then Z.max (len + k) 0 else Z.min k len.

(** [String.prototype.slice] and [Array.prototype.slice]. *)
Definition slice {A} (l : list A) (from : Z) (to : option Z) : list A :=
  let len := Z.of_nat (length l) in
  let k := clampIndex len from in
  let e := match to with None => len | Some t => clampIndex len t end in
  firstn (Z.to_nat (e - k)) (skipn (Z.to_nat k) l).

(** [s.split(sep)] for a non-empty separator. [skip] counts the units of a
    separator occurrence still to be passed over. *)
Fixpoint splitAux (sep s acc : jsstring) (skip : nat) : list jsstring :=
  match s with
  | [] => [rev acc]
  | c :: t =>
    match skip with
    | S k => splitAux sep t acc k
    | O => if startsWith s sep
           then rev acc :: splitAux sep t [] (length sep - 1)
           else splitAux sep t (c :: acc) 0
    end
  end.
Definition split (s sep : jsstring) : list jsstring := splitAux sep s [] 0.

Fixpoint join (sep : jsstring) (l : list jsstring) : jsstring :=
  match l with
  | [] => []
  | [x] => x
  | x :: t => x ++ sep ++ join sep t
  end.

(** [s.replaceAll(pat, by)] for a non-empty literal pattern. *)
Definition replaceAll (s pat by_ : jsstring) : jsstring := join by_ (split s pat).

Definition padStart (s : jsstring) (n : nat) (fill : N) : jsstring :=
  repeat fill (n - length s) ++ s.

(** [String(n)] for an integer. *)
Definition decimalN (n : N) : jsstring :=
  fmap N_of_ascii (list_ascii_of_string (NilZero.string_of_uint (N.to_uint n))).
Definition stringOfZ (z : Z) : jsstring :=
  if (z <? 0)%Z then 45 :: decimalN (Z.to_N (- z)) else decimalN (Z.to_N z).

(** ** What the host supplies *)

(** Unicode data. [localeCompare] is required by ECMA-262 (22.1.3.12) to be a
    consistent comparison function; the same clause requires it to return
    zero on distinguishable strings that are canonically equivalent, so no
    field says that a zero result means equal strings. *)
Class Unicode := {
  toLowerCase : jsstring -> jsstring;
  toUpperCase : jsstring -> jsstring;
  isLetterOrNumber : N -> bool;
  localeCompare : jsstring -> jsstring -> Z;
  localeCompare_sgn : forall a b,
    Z.sgn (localeCompare b a) = (- Z.sgn (localeCompare a b))%Z;
  localeCompare_trans : forall a b c,
    (localeCompare a b <= 0)%Z -> (localeCompare b c <= 0)%Z ->
    (localeCompare a c <= 0)%Z
}.

(** ** Regular expressions *)

Inductive regex : Type :=
| REmpty
| RChar (c : N)
| RSet (p : N -> bool)
| RSeq (r1 r2 : regex)
| RAlt (r1 r2 : regex)
| RStar (greedy : bool) (r : regex)
| RGroup (r : regex)
| RBol
| REol
| RWordB.

Definition RPlus (r : regex) : regex := RSeq r (RStar true r).
Definition ROpt (r : regex) : regex := RAlt r REmpty.
Fixpoint RLit (s : jsstring) : regex :=
  match s with
  | [] => REmpty
  | [c] => RChar c
  | c :: t => RSeq (RChar c) (RLit t)
  end.
Fixpoint RAlts (rs : list regex) : regex :=
  match rs with
  | [] => RSet (fun _ => false)
  | [r] => r
  | r :: t => RAlt r (RAlts t)
  end.
Fixpoint RSeqs (rs : list regex) : regex :=
  match rs with
  | [] => REmpty
  | [r] => r
  | r :: t => RSeq r (RSeqs t)
  end.

Definition inRange (lo hi c : N) : bool := (lo <=? c) && (c <=? hi).
Definition isDigit (c : N) : bool := inRange 48 57 c.
Definition isAsciiUpper (c : N) : bool := inRange 65 90 c.
Definition isAsciiLower (c : N) : bool := inRange 97 122 c.
Definition isAsciiAlnum (c : N) : bool := isAsciiUpper c || isAsciiLower c || isDigit c.
Definition anyChar (c : N) : bool := true.
Definition notChar (x c : N) : bool := negb (c =? x).

(** Canonicalize of ECMA-262 under the u and i flags (simple case folding),
    tabulated for what can fold to a pattern character of the source: the
    ASCII letters, U+017F (to s) and U+212A (to k). *)
Definition foldCase (c : N) : N :=
  if isAsciiUpper c then c + 32
  else if c =? 0x17F then 115
  else if c =? 0x212A then 107
  else c.
Definition canon (icase : bool) (c : N) : N := if icase then foldCase c else c.

(** The word characters behind \b; with the u and i flags the set is closed
    under case folding. *)
Definition isWordChar (icase : bool) (c : N) : bool :=
  isAsciiAlnum c || (c =? 95) || (icase && ((c =? 0x17F) || (c =? 0x212A))).

Definition isHighSurrogate (c : N) : bool := inRange 0xD800 0xDBFF c.
Definition isLowSurrogate (c : N) : bool := inRange 0xDC00 0xDFFF c.

(** The next code point of the input and what follows it. *)
Definition nextCp (s : jsstring) : option (N * jsstring) :=
  match s with
  | [] => None
  | h :: t =>
    match t with
    | l :: t' =>
      if isHighSurrogate h && isLowSurrogate l
      then Some (0x10000 + (h - 0xD800) * 0x400 + (l - 0xDC00), t')
      else Some (h, t)
    | [] => Some (h, t)
    end
  end.

(** The matcher's state: the code point before the current position (None at
    the start of the input), the rest of the input, and the capture. *)
Record mstate := MState {
  ms_prev : option N;
  ms_rest : jsstring;
  ms_cap : option jsstring
}.

Definition consumed (before after : jsstring) : jsstring :=
  firstn (length before - length after) before.

Section Matcher.
Context {A : Type}.
Variable icase : bool.

Definition stepChar (ok : N -> bool) (st : mstate) (k : mstate -> option A) : option A :=
  match nextCp (ms_rest st) with
  | Some (d, t) => if ok d then k (MState (Some d) t (ms_cap st)) else None
  | None => None
  end.

Definition orElse (x y : option A) : option A :=
  match x with
  | Some a => Some a
  | None => y
  end.

(** The iterations of a star: [step] matches the body once, [n] bounds the
    iterations left. An iteration that consumes nothing is dropped, as in
    ECMA-262's RepeatMatcher. *)
Fixpoint starLoop (step : mstate -> (mstate -> option A) -> option A) (greedy : bool)
    (k : mstate -> option A) (n : nat) (st : mstate) {struct n} : option A :=
  match n with
  | O => k st
  | S n' =>
    let more :=
      step st (fun st' =>
        if (length (ms_rest st') <? length (ms_rest st))%nat
        then starLoop step greedy k n' st' else None) in
    if greedy then orElse more (k st) else orElse (k st) more
  end.

Fixpoint rmatch (r : regex) (st : mstate) (k : mstate -> option A) {struct r} : option A :=
  match r with
  | REmpty => k st
  | RChar c => stepChar (fun d => canon icase d =? canon icase c) st k
  | RSet p => stepChar p st k
  | RSeq r1 r2 => rmatch r1 st (fun st' => rmatch r2 st' k)
  | RAlt r1 r2 => orElse (rmatch r1 st k) (rmatch r2 st k)
  | RStar greedy r' => starLoop (rmatch r') greedy k (S (length (ms_rest st))) st
  | RGroup r' =>
    rmatch r' st (fun st' =>
      k (MState (ms_prev st') (ms_rest st')
                (Some (consumed (ms_rest st) (ms_rest st')))))
  | RBol => match ms_prev st with None => k st | Some _ => None end
  | REol => match ms_rest st with [] => k st | _ :: _ => None end
  | RWordB =>
    let a := match ms_prev st with Some c => isWordChar icase c | None => false end in
    let b := match nextCp (ms_rest st) with
             | Some (c, _) => isWordChar icase c
             | None => false
             end in
    if xorb a b then k st else None
  end.

End Matcher.

(** The result of [exec]: text before the match, the match, capture 1, the
    input after the match and the code point before that. *)
Record rmatched := RMatched {
  m_before : jsstring;
  m_text : jsstring;
  m_cap : option jsstring;
  m_after : jsstring;
  m_prev : option N
}.

Definition matchHere (icase : bool) (r : regex) (prev : option N) (s : jsstring)
  : option mstate :=
  rmatch icase r (MState prev s None) Some.

(** Leftmost match at or after the current position ([acc] is the text
    passed over, reversed). *)
Fixpoint execFrom (fuel : nat) (icase : bool) (r : regex) (prev : option N)
    (s acc : jsstring) : option rmatched :=
  match matchHere icase r prev s with
  | Some st =>
    Some (RMatched (rev acc) (consumed s (ms_rest st)) (ms_cap st)
                   (ms_rest st) (ms_prev st))
  | None =>
    match fuel with
    | O => None
    | S fuel' =>
      match nextCp s with
      | None => None
      | Some (c, t) =>
        execFrom fuel' icase r (Some c) t (rev (consumed s t) ++ acc)
      end
    end
  end.

Definition exec (icase : bool) (r : regex) (s : jsstring) : option rmatched :=
  execFrom (length s) icase r None s [].

Definition test (icase : bool) (r : regex) (s : jsstring) : bool :=
  match exec icase r s with Some _ => true | None => false end.

(** [s.replace(r, f)] for a regular expression with the g flag. After an
    empty match the position moves on by one code point. *)
Fixpoint replaceFrom (fuel : nat) (icase : bool) (r : regex)
    (f : rmatched -> jsstring) (prev : option N) (s : jsstring) : jsstring :=
  match fuel with
  | O => s
  | S fuel' =>
    match execFrom (length s) icase r prev s [] with
    | None => s
    | Some m =>
      match m_text m with
      | _ :: _ =>
        m_before m ++ f m ++ replaceFrom fuel' icase r f (m_prev m) (m_after m)
      | [] =>
        match nextCp (m_after m) with
        | None => m_before m ++ f m
        | Some (c, t) =>
          m_before m ++ f m ++ consumed (m_after m) t
            ++ replaceFrom fuel' icase r f (Some c) t
        end
      end
    end
  end.

Definition replaceRegex (icase : bool) (r : regex) (f : rmatched -> jsstring)
    (s : jsstring) : jsstring :=
  replaceFrom (S (length s)) icase r f None s.

(** [s.split(r)]: the pieces between the matches; a match that is empty at the
    start of a piece is passed over. [piece] is the current piece, reversed. *)
Fixpoint splitRegexFrom (fuel : nat) (icase : bool) (r : regex) (prev : option N)
    (s piece : jsstring) : list jsstring :=
  match fuel with
  | O => [rev piece ++ s]
  | S fuel' =>
    match s with
    | [] => [rev piece]
    | _ :: _ =>
      let pass :=
        match nextCp s with
        | None => [rev piece]
        | Some (c, t) =>
          splitRegexFrom fuel' icase r (Some c) t (rev (consumed s t) ++ piece)
        end in
      match matchHere icase r prev s with
      | None => pass
      | Some st =>
        match consumed s (ms_rest st), piece with
        | [], [] => pass
        | _, _ =>
          rev piece :: splitRegexFrom fuel' icase r (ms_prev st) (ms_rest st) []
        end
      end
    end
  end.

Definition splitRegex (icase : bool) (r : regex) (s : jsstring) : list jsstring :=
  match s with
  | [] => match matchHere icase r None [] with Some _ => [] | None => [[]] end
  | _ :: _ => splitRegexFrom (S (2 * length s)) icase r None s []
  end.

(** ** Arrays, sets and numbers of the host *)

(** A comparison function as [Array.prototype.sort] takes it: negative,
    zero or positive. *)
Class Consistent {A} (cmp : A -> A -> Z) : Prop := {
  cmp_sgn : forall a b, Z.sgn (cmp b a) = (- Z.sgn (cmp a b))%Z;
  cmp_trans : forall a b c, (cmp a b <= 0)%Z -> (cmp b c <= 0)%Z -> (cmp a c <= 0)%Z
}.

(** [Array.prototype.sort] is stable and, for a consistent comparison
    function, returns the elements in ascending order (ECMA-262 23.1.3.30);
    the algorithm is left to the engine. The model is the stable insertion
    sort: an element goes before the first one it does not come after. *)
Fixpoint insertBy {A} (cmp : A -> A -> Z) (x : A) (l : list A) : list A :=
  match l with
  | [] => [x]
  | y :: t => if (cmp x y <=? 0)%Z then x :: l else y :: insertBy cmp x t
  end.
Definition sortBy {A} (cmp : A -> A -> Z) (l : list A) : list A :=
  foldr (insertBy cmp) [] l.

(** A [Set]: insertion order, no duplicates. *)
Definition setAdd {A} `{EqDecision A} (s : list A) (x : A) : list A :=
  if bool_decide (x ∈ s) then s else s ++ [x].
Definition newSet (items : list jsstring) : list jsstring := fold_left setAdd items [].
Definition setHas (s : list jsstring) (x : jsstring) : bool := bool_decide (x ∈ s).

(** Numbers are rationals: a double is one, and the arithmetic of the
    source is taken exactly. [Math.log10] is the host's. *)
Class Numeric := {
  log10 : Q -> Q
}.

(** A number as a caller can pass it: finite, NaN, or an infinity. *)
Inductive jsnumber :=
| Finite (q : Q)
| NaN
| Infinity
| NegativeInfinity.

(** The number that is an integer. *)
Definition integer (z : Z) : jsnumber := Finite (inject_Z z).

(** [Number.isInteger]. *)
Definition isInteger (x : jsnumber) : bool :=
  match x with
  | Finite q => Qeq_bool q (inject_Z (Qfloor q))
  | _ => false
  end.

(** The integer nearest to |q| * 10^digits, halves upwards: the digits
    [Number.prototype.toFixed] prints. *)
Definition scaledDigits (digits : nat) (q : Q) : Z :=
  Qfloor (Qabs q * inject_Z (10 ^ Z.of_nat digits) + (1 # 2)).

Definition toFixed (digits : nat) (q : Q) : jsstring :=
  let n := Z.to_N (scaledDigits digits q) in
  let ds := padStart (decimalN n) (S digits) 48 in
  let k := (length ds - digits)%nat in
  (if Qlt_le_dec q 0 then [45] else [])
    ++ firstn k ds ++ (if (0 <? digits)%nat then 46 :: skipn k ds else []).

(** A [Map] with string keys: its entries in insertion order. Setting a key
    that is present replaces the value where the entry stands. *)
Fixpoint mapSet {V} (m : list (jsstring * V)) (k : jsstring) (v : V)
  : list (jsstring * V) :=
  match m with
  | [] => [(k, v)]
  | (k', v') :: t =>
    if bool_decide (k' = k) then (k, v) :: t else (k', v') :: mapSet t k v
  end.
Definition mapDelete {V} (m : list (jsstring * V)) (k : jsstring)
  : list (jsstring * V) :=
  List.filter (fun entry => negb (bool_decide (fst entry = k))) m.
Fixpoint mapGet {V} (m : list (jsstring * V)) (k : jsstring) : option V :=
  match m with
  | [] => None
  | (k', v) :: t => if bool_decide (k' = k) then Some v else mapGet t k
  end.
Definition mapHas {V} (m : list (jsstring * V)) (k : jsstring) : bool :=
  match mapGet m k with Some _ => true | None => false end.

(** Values that cross the boundary as data: error details and decoded JSON. *)
#[warnings="-register-all"]
Inductive jsvalue : Type :=
| JUndefined
| JNull
| JBool (b : bool)
| JNum (x : jsnumber)
| JStr (s : jsstring)
| JObj (fields : list (jsstring * jsvalue)).

(** A property of an object value; undefined when absent. *)
Definition prop (v : jsvalue) (key : jsstring) : jsvalue :=
  match v with
  | JObj fields => match mapGet fields key with Some x => x | None => JUndefined end
  | _ => JUndefined
  end.

(** The WHATWG URL record, as far as the code reads it. *)
Record URL := {
  href : jsstring;
  origin : jsstring;
  pathname : jsstring
}.

(** The web platform: [newURL input base] is [new URL(input, base)], None
    when the constructor throws; [decodeURIComponent] is None when it
    throws. *)
Class Web := {
  newURL : jsstring -> option jsstring -> option URL;
  encodeURIComponent : jsstring -> jsstring;
  decodeURIComponent : jsstring -> option jsstring;
  jsonStringify : jsvalue -> jsstring
}.

Definition asciiLower (c : N) : N := if isAsciiUpper c then c + 32 else c.
Definition asciiUpper (c : N) : N := if isAsciiLower c then c - 32 else c.

(** A [Headers] object: names are lower-cased and there is one entry per
    name. [new Headers(init)] appends the entries of [init] one by one, and a
    name that is already there gets the new value after the old one, a comma
    and a space between them; [set] replaces the value. Names and values are
    taken to be well-formed. *)
Definition headersAppend (h : list (jsstring * jsstring)) (name value : jsstring)
  : list (jsstring * jsstring) :=
  match mapGet h (asciiLower <$> name) with
  | Some old => mapSet h (asciiLower <$> name) (old ++ lit ", " ++ value)
  | None => mapSet h (asciiLower <$> name) value
  end.
Definition newHeaders (init : list (jsstring * jsstring)) : list (jsstring * jsstring) :=
  fold_left (fun h entry => headersAppend h (fst entry) (snd entry)) init [].
Definition headersHas (h : list (jsstring * jsstring)) (name : jsstring) : bool :=
  mapHas h (asciiLower <$> name).
Definition headersSet (h : list (jsstring * jsstring)) (name value : jsstring)
  : list (jsstring * jsstring) :=
  mapSet h (asciiLower <$> name) value.

(** ** Effects

    A computation reads and writes a state and either returns a value or
    throws; the state written before a throw stays written. *)

Definition Eff (S E A : Type) : Type := S -> (E + A) * S.

Definition ret {S E A} (a : A) : Eff S E A := fun s => (inr a, s).
Definition throw {S E A} (e : E) : Eff S E A := fun s => (inl e, s).
Definition bind {S E A B} (m : Eff S E A) (f : A -> Eff S E B) : Eff S E B :=
  fun s => match m s with
           | (inr a, s') => f a s'
           | (inl e, s') => (inl e, s')
           end.
Definition get {S E} : Eff S E S := fun s => (inr s, s).
Definition put {S E} (s : S) : Eff S E unit := fun _ => (inr tt, s).
(** try { m } catch (e) { h e } *)
Definition tryCatch {S E A} (m : Eff S E A) (h : E -> Eff S E A) : Eff S E A :=
  fun s => match m s with
           | (inr a, s') => (inr a, s')
           | (inl e, s') => h e s'
           end.

Declare Scope eff_scope.
Delimit Scope eff_scope with eff.
Notation "x <- m ;; k" := (bind m (fun x => k))
  (at level 100, m at level 90, k at level 200, right associativity) : eff_scope.
Notation "m ;;; k" := (bind m (fun _ => k))
  (at level 100, k at level 200, right associativity) : eff_scope.

Fixpoint mapM {S E A B} (f : A -> Eff S E B) (l : list A) : Eff S E (list B) :=
  match l with
  | [] => ret []
  | x :: t => (y <- f x ;; ys <- mapM f t ;; ret (y :: ys))%eff
  end.

(** [Array.prototype.map] with a callback that may throw: the first throw
    ends the call. *)
Fixpoint arrayMap {E A B} (f : A -> E + B) (l : list A) : E + list B :=
  match l with
  | [] => inr []
  | x :: t =>
    match f x with
    | inl e => inl e
    | inr y =>
      match arrayMap f t with
      | inl e => inl e
      | inr ys => inr (y :: ys)
      end
    end
  end.

(** ** src/domain/types.ts *)

Inductive SubtitleFormat := srt | ass | vtt.

Definition formatName (f : SubtitleFormat) : jsstring :=
  match f with
  | srt => lit "srt"
  | ass => lit "ass"
  | vtt => lit "vtt"
  end.

Record SubtitleRequestInput := {
  in_query : jsstring;
  in_year : option Z;
  in_season : option Z;
  in_episode : option Z;
  in_languages : option (list jsstring)
}.

Record NormalizedSubtitleRequest := {
  query : jsstring;
  normalizedQuery : jsstring;
  queryTokens : list jsstring;
  year : option Z;
  season : option Z;
  episode : option Z;
  languagePreferences : list jsstring;
  fingerprint : jsstring
}.

Record ProviderSubtitleResult := {
  c_id : jsstring;
  c_providerId : jsstring;
  c_title : jsstring;
  c_language : jsstring;
  c_format : SubtitleFormat;
  c_downloads : N;
  c_hearingImpaired : option bool;
  c_releaseName : option jsstring
}.

(** [RankedSubtitleResult] without its rank: the candidate's own fields,
    spread, and the two new ones. *)
Record ScoredSubtitleResult := {
  s_candidate : ProviderSubtitleResult;
  s_score : Z;
  s_reasons : list jsstring
}.

Record RankedSubtitleResult := {
  r_candidate : ProviderSubtitleResult;
  r_score : Z;
  r_reasons : list jsstring;
  r_rank : Z
}.

Record SubtitleDownloadPlan := {
  p_id : jsstring;
  p_providerId : jsstring;
  p_fileName : jsstring;
  p_sourceUrl : jsstring;
  p_format : SubtitleFormat
}.

(** ** src/core/errors.ts *)

Inductive CliErrorCode :=
| E_ARG_INVALID
| E_ARG_MISSING
| E_ARG_CONFLICT
| E_ARG_UNSUPPORTED
| E_AUTH_REQUIRED
| E_AUTH_INVALID
| E_NOT_FOUND_RESOURCE
| E_UPSTREAM_NETWORK
| E_UPSTREAM_TIMEOUT
| E_UPSTREAM_BAD_RESPONSE
| E_UNKNOWN.

#[global] Instance CliErrorCode_eq_dec : EqDecision CliErrorCode.
Proof. solve_decision. Defined.

(** A thrown value that is not a [CliAppError]: whether it is an [Error], its
    name, and its message (for a value that is no [Error], what [String]
    makes of it). *)
Record JsError := {
  err_isError : bool;
  err_name : jsstring;
  err_message : jsstring
}.

Record CliAppError := {
  code : CliErrorCode;
  message : jsstring;
  details : list (jsstring * jsvalue);
  cause : option JsError
}.

Inductive Thrown :=
| ThrowApp (e : CliAppError)
| ThrowOther (e : JsError).

Definition typeError (msg : jsstring) : Thrown :=
  ThrowOther {| err_isError := true; err_name := lit "TypeError"; err_message := msg |}.

(** ** Object literals

    A table written as an object literal has Object.prototype behind it: a
    key that is none of its own but names a member of the prototype reads
    that member, a function or, for the word __proto__, the prototype
    itself. *)

Inductive PrototypeMember :=
| member_constructor
| member_defineGetter
| member_defineSetter
| member_hasOwnProperty
| member_lookupGetter
| member_lookupSetter
| member_isPrototypeOf
| member_propertyIsEnumerable
| member_toString
| member_valueOf
| member_proto
| member_toLocaleString.

#[global] Instance PrototypeMember_eq_dec : EqDecision PrototypeMember.
Proof. solve_decision. Defined.

Definition OBJECT_PROTOTYPE : list (jsstring * PrototypeMember) :=
  [ (lit "constructor", member_constructor);
    (lit "__defineGetter__", member_defineGetter);
    (lit "__defineSetter__", member_defineSetter);
    (lit "hasOwnProperty", member_hasOwnProperty);
    (lit "__lookupGetter__", member_lookupGetter);
    (lit "__lookupSetter__", member_lookupSetter);
    (lit "isPrototypeOf", member_isPrototypeOf);
    (lit "propertyIsEnumerable", member_propertyIsEnumerable);
    (lit "toString", member_toString);
    (lit "valueOf", member_valueOf);
    (lit "__proto__", member_proto);
    (lit "toLocaleString", member_toLocaleString) ].

(** The [length] of the value a member name reads: the number of parameters
    of the function; the prototype object has none. *)
Definition memberLength (m : PrototypeMember) : option Z :=
  match m with
  | member_constructor => Some 1%Z
  | member_defineGetter => Some 2%Z
  | member_defineSetter => Some 2%Z
  | member_hasOwnProperty => Some 1%Z
  | member_lookupGetter => Some 1%Z
  | member_lookupSetter => Some 1%Z
  | member_isPrototypeOf => Some 1%Z
  | member_propertyIsEnumerable => Some 1%Z
  | member_toString => Some 0%Z
  | member_valueOf => Some 0%Z
  | member_proto => None
  | member_toLocaleString => Some 0%Z
  end.

(** The first entry of a list of entries under a key. *)
Fixpoint ownProperty {V} (entries : list (jsstring * V)) (key : jsstring) : option V :=
  match entries with
  | [] => None
  | (k, v) :: t => if bool_decide (k = key) then Some v else ownProperty t key
  end.

(** What [table[key]] reads. *)
Inductive Looked (V : Type) :=
| Own (v : V)
| Inherited (m : PrototypeMember)
| Absent.
Arguments Own {V}. Arguments Inherited {V}. Arguments Absent {V}.

Definition objectGet {V} (table : list (jsstring * V)) (key : jsstring) : Looked V :=
  match ownProperty table key with
  | Some v => Own v
  | None =>
    match ownProperty OBJECT_PROTOTYPE key with
    | Some m => Inherited m
    | None => Absent
    end
  end.

(** ** src/domain/request-normalization.ts *)

Module RequestNormalization.
Section WithUnicode.
Context {U : Unicode}.

Definition LANGUAGE_ALIAS_MAP : list (jsstring * jsstring) :=
  [ (lit "zh", lit "zh");
    (lit "zho", lit "zh");
    (lit "chinese", lit "zh");
    (lit "chs", lit "zh-cn");
    (lit "cht", lit "zh-tw");
    (lit "zh-cn", lit "zh-cn");
    (lit "zh-hans", lit "zh-cn");
    (lit "zh-tw", lit "zh-tw");
    (lit "zh-hant", lit "zh-tw");
    (lit "en", lit "en");
    (lit "eng", lit "en");
    (lit "english", lit "en");
    (lit "ja", lit "ja");
    (lit "jpn", lit "ja");
    (lit "japanese", lit "ja") ].

Definition collapseWhitespace (value : jsstring) : jsstring :=
  trim (replaceRegex false (RPlus (RSet isWhiteSpace)) (fun _ => lit " ") value).

Definition tokenize (text : jsstring) : list jsstring :=
  if (length (trim text) =? 0)%nat then []
  else
    let items :=
      List.filter (fun item => (0 <? length item)%nat)
        (fmap trim
          (splitRegex false (RPlus (RSet (fun c => negb (isLetterOrNumber c))))
                      (toLowerCase text))) in
    let deduped := newSet items in
    sortBy localeCompare deduped.

(** What [normalizeLanguage] returns: a string, or the member of
    Object.prototype that the lookup in the alias table reached. *)
Inductive LanguageValue :=
| LanguageTag (tag : jsstring)
| LanguageMember (m : PrototypeMember).

#[global] Instance LanguageValue_eq_dec : EqDecision LanguageValue.
Proof. solve_decision. Defined.

Definition normalizeLanguage (value : jsstring) : LanguageValue :=
  let normalized := toLowerCase (trim value) in
  if (length normalized =? 0)%nat then LanguageTag normalized
  else match objectGet LANGUAGE_ALIAS_MAP normalized with
       | Own canonical => LanguageTag canonical
       | Inherited m => LanguageMember m
       | Absent => LanguageTag normalized
       end.

(** [normalized.length > 0]; an undefined length is not greater than 0. *)
Definition hasLength (normalized : LanguageValue) : bool :=
  match normalized with
  | LanguageTag tag => (0 <? length tag)%nat
  | LanguageMember m =>
    match memberLength m with
    | Some n => (0 <? n)%Z
    | None => false
    end
  end.

Definition normalizeLanguages (values : list jsstring) : list LanguageValue :=
  fold_left
    (fun deduped value =>
       let normalized := normalizeLanguage value in
       if hasLength normalized then setAdd deduped normalized else deduped)
    values [].

(** [String(x ?? "")] for an optional integer. *)
Definition stringOrEmpty (x : option Z) : jsstring :=
  match x with
  | Some z => stringOfZ z
  | None => []
  end.

(** The strings of a list of values, when every value is one. *)
Fixpoint languageTags (values : list LanguageValue) : option (list jsstring) :=
  match values with
  | [] => Some []
  | LanguageTag tag :: rest =>
    match languageTags rest with
    | Some tags => Some (tag :: tags)
    | None => None
    end
  | LanguageMember _ :: _ => None
  end.

(** What [normalizeSubtitleRequest] comes to. With a member of Object.prototype
    among the preferences the outcome is the engine's: the comparison function
    of the sort throws a TypeError when the member is its left argument,
    ECMA-262 leaves it to the engine which pairs are compared, and the join
    prints the text the engine gives a native function. The model stops there
    and says which preferences were reached. *)
Inductive Normalization :=
| Normalized (request : NormalizedSubtitleRequest)
| EngineDefined (languagePreferences : list LanguageValue).

Definition normalizeSubtitleRequest (input : SubtitleRequestInput) : Normalization :=
  let query := collapseWhitespace (in_query input) in
  let normalizedQuery := toLowerCase query in
  let queryTokens := tokenize normalizedQuery in
  let languagePreferences :=
    normalizeLanguages (match in_languages input with Some l => l | None => [] end) in
  match languageTags languagePreferences with
  | None => EngineDefined languagePreferences
  | Some languagePreferences =>
    let canonicalLanguages := sortBy localeCompare languagePreferences in
    let fingerprint :=
      join (lit "|")
        [ normalizedQuery;
          stringOrEmpty (in_year input);
          stringOrEmpty (in_season input);
          stringOrEmpty (in_episode input);
          join (lit ",") canonicalLanguages ] in
    Normalized
      {| query := query;
         normalizedQuery := normalizedQuery;
         queryTokens := queryTokens;
         year := in_year input;
         season := in_season input;
         episode := in_episode input;
         languagePreferences := languagePreferences;
         fingerprint := fingerprint |}
  end.

End WithUnicode.
End RequestNormalization.


(** ** src/domain/ranking.ts *)

Module Ranking.
Import RequestNormalization.
Section WithHost.
Context {U : Unicode} {Nm : Numeric}.
Local Open Scope Q_scope.

Definition PROVIDER_PRIORITY_BOOST : list (jsstring * Q) :=
  [ (lit "subhd", 12); (lit "assrt", 4) ].

(** [Number(value.toFixed(6))], as a whole number of millionths. *)
Definition roundScore (value : Q) : Z :=
  if Qlt_le_dec value 0 then (- scaledDigits 6 value)%Z else scaledDigits 6 value.

Fixpoint findIndexFrom {A} (p : A -> bool) (l : list A) (i : Z) : Z :=
  match l with
  | [] => (-1)%Z
  | x :: t => if p x then i else findIndexFrom p t (i + 1)%Z
  end.
Definition findIndex {A} (p : A -> bool) (l : list A) : Z := findIndexFrom p l 0%Z.

(** A provider id that names a member of Object.prototype reads that
    member: it is not 0, and the call of its [toFixed], which it has not,
    throws a TypeError. *)
Definition scoreSubtitleCandidate (request : NormalizedSubtitleRequest)
    (candidate : ProviderSubtitleResult) : Thrown + ScoredSubtitleResult :=
  let reasons : list jsstring := [] in
  let score : Q := 0 in
  let titleTokens := newSet (tokenize (c_title candidate)) in
  let overlapCount :=
    fold_left (fun count token => (count + (if setHas titleTokens token then 1 else 0))%Z)
              (queryTokens request) 0%Z in
  let '(score, reasons) :=
    if (0 <? length (queryTokens request))%nat then
      let overlapRatio :=
        inject_Z overlapCount / inject_Z (Z.of_nat (length (queryTokens request))) in
      (score + overlapRatio * 60,
       reasons ++ [lit "query-overlap:" ++ toFixed 3 overlapRatio])
    else (score, reasons) in
  let preferredIndex :=
    findIndex (fun item => str_eqb item (c_language candidate))
              (languagePreferences request) in
  let '(score, reasons) :=
    if (preferredIndex =? 0)%Z then (score + 30, reasons ++ [lit "lang:primary"])
    else if (0 <? preferredIndex)%Z then (score + 20, reasons ++ [lit "lang:secondary"])
    else if (0 <? length (languagePreferences request))%nat
         then (score - 10, reasons ++ [lit "lang:mismatch"])
         else (score, reasons) in
  let providerBoost :=
    match objectGet PROVIDER_PRIORITY_BOOST (c_providerId candidate) with
    | Absent => Own 0
    | found => found
    end in
  match
    match providerBoost with
    | Own providerBoost =>
      if negb (Qeq_bool providerBoost 0) then
        inr (score + providerBoost,
             reasons ++ [lit "provider:" ++ c_providerId candidate ++ lit ":+"
                           ++ toFixed 3 providerBoost])
      else inr (score, reasons)
    | _ => inl (typeError (lit "providerBoost.toFixed is not a function"))
    end
  with
  | inl error => inl error
  | inr (score, reasons) =>
    let downloadBoost :=
      Qmin 15 (log10 (inject_Z (Z.of_N (c_downloads candidate) + 1)) * 5) in
    let score := score + downloadBoost in
    let reasons := reasons ++ [lit "downloads:+" ++ toFixed 3 downloadBoost] in
    let '(score, reasons) :=
      match c_format candidate with
      | srt => (score + 8, reasons ++ [lit "format:srt"])
      | ass => (score + 5, reasons ++ [lit "format:ass"])
      | vtt => (score + 4, reasons ++ [lit "format:vtt"])
      end in
    let '(score, reasons) :=
      match c_hearingImpaired candidate with
      | Some true => (score - 2, reasons ++ [lit "hi:-2"])
      | _ => (score, reasons)
      end in
    inr {| s_candidate := candidate;
           s_score := roundScore score;
           s_reasons := reasons |}
  end.

(** The comparison function given to [scored.sort]. *)
Definition compareScored (left right : ScoredSubtitleResult) : Z :=
  if negb (s_score right =? s_score left)%Z then (s_score right - s_score left)%Z
  else if negb (c_downloads (s_candidate right) =? c_downloads (s_candidate left))%N
  then (Z.of_N (c_downloads (s_candidate right))
        - Z.of_N (c_downloads (s_candidate left)))%Z
  else
    let providerOrder :=
      localeCompare (c_providerId (s_candidate left)) (c_providerId (s_candidate right)) in
    if negb (providerOrder =? 0)%Z then providerOrder
    else localeCompare (c_id (s_candidate left)) (c_id (s_candidate right)).

Definition withRank (index : nat) (item : ScoredSubtitleResult) : RankedSubtitleResult :=
  {| r_candidate := s_candidate item;
     r_score := s_score item;
     r_reasons := s_reasons item;
     r_rank := (Z.of_nat index + 1)%Z |}.

(** [limit] is None when the argument is left out. *)
Definition rankSubtitleCandidates (request : NormalizedSubtitleRequest)
    (candidates : list ProviderSubtitleResult) (limit : option Z)
  : Thrown + list RankedSubtitleResult :=
  let limit := match limit with Some n => n | None => Z.of_nat (length candidates) end in
  match arrayMap (scoreSubtitleCandidate request) candidates with
  | inl error => inl error
  | inr scored =>
    let scored := sortBy compareScored scored in
    inr (imap withRank (slice scored 0 (Some limit)))
  end.

(** *** The same function over the heap

    Arrays and records are objects with an identity. The heap is the list of
    the objects allocated so far; a reference is an index into it, and a new
    object takes the next index. What no reference leaves a call with (the
    token sets, the reasons array of a call that throws) is not allocated. *)

Abbreviation loc := nat (only parsing).

Inductive object :=
| OCandidate (c : ProviderSubtitleResult)
| OStrings (items : list jsstring)
| OScored (c : ProviderSubtitleResult) (score : Z) (reasons : loc)
| ORanked (c : ProviderSubtitleResult) (score : Z) (reasons : loc) (rank : Z)
| OArray (items : list loc).

Abbreviation heap := (list object) (only parsing).

(** How a computation over the heap stops short: on a reference that holds
    no object of the expected shape, which no caller can pass, or with what
    the code throws. *)
Inductive HeapError :=
| IllShaped
| Raised (error : Thrown).

Abbreviation HeapM := (Eff heap HeapError) (only parsing).

Definition alloc (o : object) : HeapM loc :=
  fun h => (inr (length h), h ++ [o]).
Definition read (l : loc) : HeapM object :=
  fun h => match h !! l with
           | Some o => (inr o, h)
           | None => (inl IllShaped, h)
           end.
Definition write (l : loc) (o : object) : HeapM unit :=
  fun h => (inr tt, <[l := o]> h).

Definition readArray (l : loc) : HeapM (list loc) :=
  (o <- read l ;;
   match o with
   | OArray items => ret items
   | _ => throw IllShaped
   end)%eff.

(** The scored record behind a reference, its reasons array read through. *)
Definition readScored (l : loc) : HeapM ScoredSubtitleResult :=
  (o <- read l ;;
   match o with
   | OScored c score reasons =>
     r <- read reasons ;;
     match r with
     | OStrings items => ret {| s_candidate := c; s_score := score; s_reasons := items |}
     | _ => throw IllShaped
     end
   | _ => throw IllShaped
   end)%eff.

(** [scoreSubtitleCandidate] on a reference: the candidate is read, the
    reasons array and the result record are new objects. *)
Definition scoreSubtitleCandidateH (request : NormalizedSubtitleRequest)
    (candidate : loc) : HeapM loc :=
  (o <- read candidate ;;
   match o with
   | OCandidate c =>
     match scoreSubtitleCandidate request c with
     | inl error => throw (Raised error)
     | inr s =>
       reasons <- alloc (OStrings (s_reasons s)) ;;
       alloc (OScored c (s_score s) reasons)
     end
   | _ => throw IllShaped
   end)%eff.

(** [scored.sort(...)]: the array object is overwritten with its own
    elements in sorted order. *)
Definition sortInPlace (arr : loc) : HeapM unit :=
  (items <- readArray arr ;;
   views <- mapM (fun l => s <- readScored l ;; ret (l, s)) items ;;
   write arr
     (OArray (fmap fst (sortBy (fun a b => compareScored (snd a) (snd b)) views))))%eff.

(** [{ ...item, rank: index + 1 }]: a new record sharing the reasons array
    of [item]. *)
Definition withRankH (entry : nat * loc) : HeapM loc :=
  (o <- read (snd entry) ;;
   match o with
   | OScored c score reasons =>
     alloc (ORanked c score reasons (Z.of_nat (fst entry) + 1))
   | _ => throw IllShaped
   end)%eff.

Definition rankSubtitleCandidatesH (request : NormalizedSubtitleRequest)
    (candidates : loc) (limit : option Z) : HeapM loc :=
  (items <- readArray candidates ;;
   let limit := match limit with Some n => n | None => Z.of_nat (length items) end in
   scoredItems <- mapM (scoreSubtitleCandidateH request) items ;;
   scored <- alloc (OArray scoredItems) ;;
   sortInPlace scored ;;;
   sorted <- readArray scored ;;
   sliced <- alloc (OArray (slice sorted 0 (Some limit))) ;;
   slicedItems <- readArray sliced ;;
   rankedItems <- mapM withRankH (imap pair slicedItems) ;;
   alloc (OArray rankedItems))%eff.

End WithHost.
End Ranking.

(** ** src/domain/providers/upstream-client.ts *)

Module UpstreamClient.
Section WithHost.
Context {U : Unicode} {Wb : Web}.
(** The state of whatever stands behind the transport. *)
Variable W : Type.

Inductive Method := GET | POST.

Record UpstreamRequestOptions := {
  pathOrUrl : jsstring;
  method : option Method;
  headers : list (jsstring * jsstring);
  body : option jsstring
}.

(** What [fetchImpl] is called with. *)
Record FetchRequest := {
  fr_url : URL;
  fr_method : Method;
  fr_headers : list (jsstring * jsstring);
  fr_body : option jsstring
}.

(** How the Set-Cookie headers of a response can be read: through
    [getSetCookie], through [raw], or only through [get]. *)
Inductive ResponseHeaders :=
| WithGetSetCookie (cookies : list jsstring)
| WithRaw (setCookie : option (list jsstring))
| WithGet (setCookie : option jsstring).

(** A response: [resp_text] and [resp_json] are what [text()] and [json()]
    resolve to, or the error they reject with. [resp_url] is the address the
    response came from in the end, which is not the address asked for when
    the transport followed a redirect; the code does not read it. *)
Record Response := {
  resp_url : jsstring;
  resp_status : Z;
  resp_headers : ResponseHeaders;
  resp_text : JsError + jsstring;
  resp_json : JsError + jsvalue
}.

Definition resp_ok (r : Response) : bool :=
  (200 <=? resp_status r)%Z && (resp_status r <=? 299)%Z.

Inductive FetchResult :=
| Fulfilled (r : Response)
| Rejected (e : Thrown).

Record UpstreamClientOptions := {
  o_providerId : jsstring;
  o_baseUrl : jsstring;
  o_timeoutMs : option jsnumber;
  o_retries : option jsnumber;
  o_backoffMs : option jsnumber;
  o_maxBackoffMs : option jsnumber;
  o_fetchImpl : FetchRequest -> W -> FetchResult * W;
  o_userAgent : option jsstring
}.

(** The fields of the class but the jar, which is the state. A call of the
    injected [sleep] is recorded with its duration. *)
Record Client := {
  providerId : jsstring;
  baseUrl : jsstring;
  timeoutMs : Z;
  retries : Z;
  backoffMs : Z;
  maxBackoffMs : Z;
  fetchImpl : FetchRequest -> W -> FetchResult * W;
  userAgent : jsstring;
  baseOrigin : jsstring
}.

(** One call of the transport, kept for the statements: the options of the
    request it serves, what was sent, and what came back. The code does not
    read it. *)
Record Exchange := {
  ex_options : UpstreamRequestOptions;
  ex_request : FetchRequest;
  ex_result : FetchResult
}.

Record ClientState := {
  cookieJar : list (jsstring * jsstring);
  world : W;
  sleeps : list Z;
  exchanges : list Exchange
}.

Abbreviation ClientM := (Eff ClientState Thrown) (only parsing).

Definition RETRYABLE_STATUS : list Z := [408; 425; 429; 500; 502; 503; 504]%Z.

Definition normalizeBaseUrl (value : jsstring) : jsstring :=
  let normalized := trim value in
  if (length normalized =? 0)%nat then lit "https://subhd.tv/"
  else if endsWith normalized (lit "/") then normalized else normalized ++ lit "/".

Definition resolveUrl (baseUrl pathOrUrl : jsstring) : option URL :=
  if test true (RSeqs [RBol; RLit (lit "http"); ROpt (RChar 115); RLit (lit "://")]) pathOrUrl
  then newURL pathOrUrl None
  else newURL pathOrUrl (Some baseUrl).

(** An option left out is undefined; NaN and the infinities are not finite;
    [Math.floor] of a finite number is [Qfloor]. *)
Definition normalizePositiveInt (value : option jsnumber) (fallback : Z) : Z :=
  match value with
  | None => fallback
  | Some (Finite v) => if Qle_bool v 0 then fallback else Qfloor v
  | Some _ => fallback
  end.

Definition normalizeNonNegativeInt (value : option jsnumber) (fallback : Z) : Z :=
  match value with
  | None => fallback
  | Some (Finite v) => if negb (Qle_bool 0 v) then fallback else Qfloor v
  | Some _ => fallback
  end.

Definition computeBackoff (baseMs maxMs attempt : Z) : Z :=
  let multiplier := (2 ^ Z.max 0 (attempt - 1))%Z in
  Z.min maxMs (baseMs * multiplier).

Definition collapseWhitespace (value : jsstring) : jsstring :=
  trim (replaceRegex false (RPlus (RSet isWhiteSpace)) (fun _ => lit " ") value).

Definition readSnippet (response : Response) : jsstring :=
  match resp_text response with
  | inr text => slice (collapseWhitespace text) 0 (Some 320%Z)
  | inl _ => []
  end.

(** [new UpstreamClient(options)]. *)
Definition newClient (options : UpstreamClientOptions) : Thrown + Client :=
  let baseUrl := normalizeBaseUrl (o_baseUrl options) in
  match newURL baseUrl None with
  | None => inl (typeError (lit "Invalid URL"))
  | Some url =>
    inr {| providerId := o_providerId options;
           baseUrl := baseUrl;
           timeoutMs := normalizePositiveInt (o_timeoutMs options) 12000;
           retries := normalizeNonNegativeInt (o_retries options) 2;
           backoffMs := normalizePositiveInt (o_backoffMs options) 250;
           maxBackoffMs := normalizePositiveInt (o_maxBackoffMs options) 3000;
           fetchImpl := o_fetchImpl options;
           userAgent := match o_userAgent options with
                        | Some ua => ua
                        | None => lit "subtitle-cli/subhd"
                        end;
           baseOrigin := origin url |}
  end.

Definition initialState (w : W) : ClientState :=
  {| cookieJar := []; world := w; sleeps := []; exchanges := [] |}.

Inductive Classification := RateLimit | AntiBot | BadResponse.

Definition classificationName (c : Classification) : jsstring :=
  match c with
  | RateLimit => lit "rate-limit"
  | AntiBot => lit "anti-bot"
  | BadResponse => lit "bad-response"
  end.

Definition whiteSpace : regex := RSet isWhiteSpace.

(** /too\s+many\s+requests|rate\s*limit/iu *)
Definition rateLimitPattern : regex :=
  RAlt (RSeqs [RLit (lit "too"); RPlus whiteSpace; RLit (lit "many");
               RPlus whiteSpace; RLit (lit "requests")])
       (RSeqs [RLit (lit "rate"); RStar true whiteSpace; RLit (lit "limit")]).

(** The signatures of a challenge page. *)
Definition ANTI_BOT_SIGNATURES : list jsstring :=
  [ lit "challenge-platform";
    lit "cloudflare";
    lit "cf-challenge";
    lit "captcha";
    lit "验证码";
    lit "验证获取下载地址";
    lit "jsd/main.js";
    lit "attention required" ].

Definition looksLikeAntiBotChallenge (text : jsstring) : bool :=
  let snippet := toLowerCase text in
  existsb (fun needle => includes snippet needle) ANTI_BOT_SIGNATURES.

Definition classifyResponse (status : Z) (snippet : jsstring) : Classification :=
  if (status =? 429)%Z || test true rateLimitPattern snippet
  then RateLimit
  else if (status =? 403)%Z || (status =? 401)%Z || looksLikeAntiBotChallenge snippet
  then AntiBot
  else BadResponse.

Definition classifyResponseError (providerId : jsstring) (url : URL) (status : Z)
    (snippet : jsstring) : CliAppError :=
  let classification := classifyResponse status snippet in
  {| code := E_UPSTREAM_BAD_RESPONSE;
     message := providerId ++ lit " upstream returned HTTP " ++ stringOfZ status;
     details :=
       [ (lit "provider", JStr providerId);
         (lit "url", JStr (href url));
         (lit "status", JNum (integer status));
         (lit "classification", JStr (classificationName classification));
         (lit "snippet", JStr snippet) ];
     cause := None |}.

Definition isAbortError (error : JsError) : bool :=
  if negb (err_isError error) then false
  else str_eqb (err_name error) (lit "AbortError")
       || str_eqb (err_name error) (lit "TimeoutError").

Definition mapFetchError (error : Thrown) (providerId : jsstring) (url : URL)
    (timeoutMs : Z) : CliAppError :=
  match error with
  | ThrowApp e => e
  | ThrowOther e =>
    if isAbortError e then
      {| code := E_UPSTREAM_TIMEOUT;
         message := providerId ++ lit " upstream request timed out after "
                      ++ stringOfZ timeoutMs ++ lit "ms";
         details :=
           [ (lit "provider", JStr providerId);
             (lit "url", JStr (href url));
             (lit "timeoutMs", JNum (integer timeoutMs)) ];
         cause := Some e |}
    else
      {| code := E_UPSTREAM_NETWORK;
         message := lit "Failed to reach " ++ providerId ++ lit " upstream";
         details :=
           [ (lit "provider", JStr providerId);
             (lit "url", JStr (href url));
             (lit "reason", JStr (err_message e)) ];
         cause := Some e |}
  end.

Definition mergeCookie (cookieJar : list (jsstring * jsstring)) (raw : jsstring)
  : list (jsstring * jsstring) :=
  match take 1 (split raw (lit ";")) with
  | [] => cookieJar
  | first :: _ =>
    let firstSegment := trim first in
    if (length firstSegment =? 0)%nat then cookieJar
    else
      let eqIndex := indexOf firstSegment (lit "=") in
      if (eqIndex <=? 0)%Z then cookieJar
      else
        let name := trim (slice firstSegment 0 (Some eqIndex)) in
        let value := trim (slice firstSegment (eqIndex + 1) None) in
        if (length name =? 0)%nat then cookieJar
        else if (length value =? 0)%nat || str_eqb value (lit "deleted")
        then mapDelete cookieJar name
        else mapSet cookieJar name value
  end.

(** The loop of [splitCombinedSetCookieHeader]: [raw] is what is left from
    the current index on. *)
Fixpoint splitCombinedLoop (raw : jsstring) (parts : list jsstring)
    (buffer : jsstring) (insideExpires : bool) : list jsstring :=
  match raw with
  | [] =>
    let normalized := trim buffer in
    if (0 <? length normalized)%nat then parts ++ [normalized] else parts
  | char :: rest =>
    let tail := toLowerCase raw in
    let insideExpires :=
      if startsWith tail (lit "expires=") then true else insideExpires in
    if (char =? 44) && negb insideExpires then
      let normalized := trim buffer in
      let parts := if (0 <? length normalized)%nat then parts ++ [normalized] else parts in
      splitCombinedLoop rest parts [] insideExpires
    else
      let insideExpires := if (char =? 59) then false else insideExpires in
      splitCombinedLoop rest parts (buffer ++ [char]) insideExpires
  end.

Definition splitCombinedSetCookieHeader (raw : jsstring) : list jsstring :=
  splitCombinedLoop raw [] [] false.

Definition readSetCookieHeaders (headers : ResponseHeaders) : list jsstring :=
  match headers with
  | WithGetSetCookie cookies => cookies
  | WithRaw (Some cookies) => cookies
  | WithRaw None => []
  | WithGet None => []
  | WithGet (Some fallback) => splitCombinedSetCookieHeader fallback
  end.

Section Methods.
Variable this : Client.

Definition serializeCookies (cookieJar : list (jsstring * jsstring)) : jsstring :=
  join (lit "; ") ((fun entry => fst entry ++ lit "=" ++ snd entry) <$> cookieJar).

(** What [fetchWithTimeout] hands to the transport. *)
Definition buildRequest (cookieJar : list (jsstring * jsstring)) (url : URL)
    (options : UpstreamRequestOptions) : FetchRequest :=
  let headers := newHeaders (headers options) in
  let headers :=
    if negb (headersHas headers (lit "user-agent"))
    then headersSet headers (lit "user-agent") (userAgent this)
    else headers in
  let cookie := serializeCookies cookieJar in
  let headers :=
    if (0 <? length cookie)%nat && str_eqb (origin url) (baseOrigin this)
    then headersSet headers (lit "cookie") cookie
    else headers in
  {| fr_url := url;
     fr_method := match method options with Some m => m | None => GET end;
     fr_headers := headers;
     fr_body := body options |}.

(** The timer only aborts the call: a transport that honours the signal
    rejects with an AbortError, which is one of its possible results. *)
Definition fetchWithTimeout (url : URL) (options : UpstreamRequestOptions)
  : ClientM Response :=
  fun st =>
    let request := buildRequest (cookieJar st) url options in
    let '(result, w) := fetchImpl this request (world st) in
    let st' :=
      {| cookieJar := cookieJar st;
         world := w;
         sleeps := sleeps st;
         exchanges := exchanges st ++ [Build_Exchange options request result] |} in
    match result with
    | Fulfilled response => (inr response, st')
    | Rejected e => (inl e, st')
    end.

Definition mergeResponseCookies (url : URL) (headers : ResponseHeaders)
  : ClientM unit :=
  fun st =>
    if negb (str_eqb (origin url) (baseOrigin this)) then (inr tt, st)
    else
      (inr tt,
       {| cookieJar := fold_left mergeCookie (readSetCookieHeaders headers) (cookieJar st);
          world := world st;
          sleeps := sleeps st;
          exchanges := exchanges st |}).

Definition sleep (ms : Z) : ClientM unit :=
  fun st =>
    (inr tt,
     {| cookieJar := cookieJar st;
        world := world st;
        sleeps := sleeps st ++ [ms];
        exchanges := exchanges st |}).

(** How one turn of the loop of [request] ends. *)
Inductive Turn :=
| Return (response : Response)
| Continue.

Definition unknownError (url : URL) : CliAppError :=
  {| code := E_UNKNOWN;
     message := providerId this ++ lit " upstream request failed unexpectedly";
     details := [ (lit "provider", JStr (providerId this)); (lit "url", JStr (href url)) ];
     cause := None |}.

(** The body of the while loop, [attempt] already incremented. *)
Definition attemptOnce (url : URL) (options : UpstreamRequestOptions)
    (maxAttempts attempt : Z) : ClientM Turn :=
  tryCatch
    (response <- fetchWithTimeout url options ;;
     mergeResponseCookies url (resp_headers response) ;;;
     if resp_ok response then ret (Return response)
     else
       let snippet := readSnippet response in
       let classified :=
         classifyResponseError (providerId this) url (resp_status response) snippet in
       if (attempt <? maxAttempts)%Z
          && bool_decide (resp_status response ∈ RETRYABLE_STATUS)
       then
         sleep (computeBackoff (backoffMs this) (maxBackoffMs this) attempt) ;;;
         ret Continue
       else throw (ThrowApp classified))%eff
    (fun error =>
       let mapped := mapFetchError error (providerId this) url (timeoutMs this) in
       if (attempt <? maxAttempts)%Z
          && (bool_decide (code mapped = E_UPSTREAM_NETWORK)
              || bool_decide (code mapped = E_UPSTREAM_TIMEOUT))
       then
         (sleep (computeBackoff (backoffMs this) (maxBackoffMs this) attempt) ;;;
          ret Continue)%eff
       else throw (ThrowApp mapped)).

(** The while loop: [turns] bounds the turns left, which is
    [maxAttempts - attempt] when the loop is entered. *)
Fixpoint requestLoop (turns : nat) (url : URL) (options : UpstreamRequestOptions)
    (maxAttempts attempt : Z) : ClientM Response :=
  match turns with
  | O => throw (ThrowApp (unknownError url))
  | S turns' =>
    if (attempt <? maxAttempts)%Z then
      let attempt := (attempt + 1)%Z in
      (turn <- attemptOnce url options maxAttempts attempt ;;
       match turn with
       | Return response => ret response
       | Continue => requestLoop turns' url options maxAttempts attempt
       end)%eff
    else throw (ThrowApp (unknownError url))
  end.

Definition request (options : UpstreamRequestOptions) : ClientM Response :=
  match resolveUrl (baseUrl this) (pathOrUrl options) with
  | None => throw (typeError (lit "Invalid URL"))
  | Some url =>
    let maxAttempts := (retries this + 1)%Z in
    requestLoop (Z.to_nat maxAttempts) url options maxAttempts 0
  end.

Definition requestText (options : UpstreamRequestOptions) : ClientM jsstring :=
  (response <- request options ;;
   match resp_text response with
   | inr text => ret text
   | inl e => throw (ThrowOther e)
   end)%eff.

Definition requestJson (options : UpstreamRequestOptions) : ClientM jsvalue :=
  (response <- request options ;;
   match resp_json response with
   | inr payload => ret payload
   | inl error =>
     throw (ThrowApp
       {| code := E_UPSTREAM_BAD_RESPONSE;
          message := providerId this ++ lit " upstream returned invalid JSON";
          details :=
            [ (lit "provider", JStr (providerId this));
              (lit "url",
               match resolveUrl (baseUrl this) (pathOrUrl options) with
               | Some url => JStr (href url)
               | None => JUndefined
               end);
              (lit "classification", JStr (lit "bad-response"));
              (lit "reason", JStr (err_message error)) ];
          cause := Some error |})
   end)%eff.

End Methods.
End WithHost.

Arguments o_providerId {W}. Arguments o_baseUrl {W}. Arguments o_timeoutMs {W}.
Arguments o_retries {W}. Arguments o_backoffMs {W}. Arguments o_maxBackoffMs {W}.
Arguments o_fetchImpl {W}. Arguments o_userAgent {W}.
Arguments providerId {W}. Arguments baseUrl {W}. Arguments timeoutMs {W}.
Arguments retries {W}. Arguments backoffMs {W}. Arguments maxBackoffMs {W}.
Arguments fetchImpl {W}. Arguments userAgent {W}. Arguments baseOrigin {W}.
Arguments cookieJar {W}. Arguments world {W}. Arguments sleeps {W}.
Arguments exchanges {W}. Arguments Build_ClientState {W}.
Arguments initialState {W}. Arguments newClient {Wb W}.
Arguments buildRequest {W}. Arguments fetchWithTimeout {W}.
Arguments mergeResponseCookies {U W}. Arguments sleep {W}.
Arguments unknownError {W}. Arguments attemptOnce {U W}.
Arguments requestLoop {U W}. Arguments request {U Wb W}.
Arguments requestText {U Wb W}. Arguments requestJson {U Wb W}.

End UpstreamClient.

(** ** src/domain/providers/subhd-parser.ts *)

(** A double quote inside a pattern or a string of the source. *)
Definition dq : jsstring := [34].

(** [s.replace(r, f)] with the g flag for a callback that can throw: None
    when a call of [f] throws. *)
Fixpoint replaceFromOpt (fuel : nat) (icase : bool) (r : regex)
    (f : rmatched -> option jsstring) (prev : option N) (s : jsstring)
  : option jsstring :=
  match fuel with
  | O => Some s
  | S fuel' =>
    match execFrom (length s) icase r prev s [] with
    | None => Some s
    | Some m =>
      match f m with
      | None => None
      | Some by_ =>
        match m_text m with
        | _ :: _ =>
          match replaceFromOpt fuel' icase r f (m_prev m) (m_after m) with
          | Some rest => Some (m_before m ++ by_ ++ rest)
          | None => None
          end
        | [] =>
          match nextCp (m_after m) with
          | None => Some (m_before m ++ by_)
          | Some (c, t) =>
            match replaceFromOpt fuel' icase r f (Some c) t with
            | Some rest => Some (m_before m ++ by_ ++ consumed (m_after m) t ++ rest)
            | None => None
            end
          end
        end
      end
    end
  end.

(** [Number.parseInt(digits, 10)] for a string of decimal digits, as an
    exact integer (the source has the nearest double). *)
Definition parseDigits (digits : jsstring) : N :=
  fold_left (fun n c => 10 * n + (c - 48)) digits 0.

(** From here on [Number.parseInt] returns Infinity. *)
Definition INFINITE : N := 2 ^ 1024.

Module SubhdParser.
Section WithHost.
Context {U : Unicode}.

Record SubhdSearchItem := {
  sid : jsstring;
  title : jsstring;
  language : jsstring;
  format : SubtitleFormat;
  downloads : N;
  hearingImpaired : option bool
}.

Record SubhdDownloadPage := {
  page_sid : jsstring;
  page_title : jsstring;
  fileStem : jsstring;
  page_format : option SubtitleFormat
}.

(** What the parser can throw: String.fromCodePoint on a number above
    U+10FFFF. *)
Definition rangeError : Thrown :=
  ThrowOther {| err_isError := true; err_name := lit "RangeError";
                err_message := lit "Invalid code point" |}.

Definition SUBHD_CARD_MARKER : jsstring :=
  lit "<div class=" ++ dq ++ lit "bg-white shadow-sm rounded-3 mb-4" ++ dq ++ lit ">".

Definition anything : regex := RSet anyChar.
Definition notGt : regex := RSet (notChar 62).
Definition space : regex := RSet isWhiteSpace.

Definition collapseWhitespace (value : jsstring) : jsstring :=
  trim (replaceRegex false (RPlus space) (fun _ => lit " ") value).

(** The callback of the numeric character references. *)
Definition decodeNumeric (m : rmatched) : option jsstring :=
  let codePoint := parseDigits (match m_cap m with Some digits => digits | None => [] end) in
  if (INFINITE <=? codePoint) || (codePoint <=? 0) then Some []
  else if codePoint <=? 0x10FFFF then Some (unitsOfCodePoint codePoint)
  else None.

Definition decodeHtmlEntities (value : jsstring) : option jsstring :=
  let named := replaceAll value (lit "&nbsp;") (lit " ") in
  let named := replaceAll named (lit "&amp;") (lit "&") in
  let named := replaceAll named (lit "&lt;") (lit "<") in
  let named := replaceAll named (lit "&gt;") (lit ">") in
  let named := replaceAll named (lit "&quot;") dq in
  let named := replaceAll named (lit "&#39;") (lit "'") in
  replaceFromOpt (S (length named)) false
    (RSeqs [RLit (lit "&#"); RGroup (RPlus (RSet isDigit)); RChar 59])
    decodeNumeric None named.

Definition cleanText (value : jsstring) : option jsstring :=
  match decodeHtmlEntities value with
  | None => None
  | Some decoded =>
    Some (collapseWhitespace
            (replaceRegex false (RSeqs [RChar 60; RStar true notGt; RChar 62])
                          (fun _ => lit " ") decoded))
  end.

(** [extractFirstText]: None when [cleanText] throws, Some None for
    undefined. The patterns carry the i flag. *)
Fixpoint extractFirstText (html : jsstring) (patterns : list regex)
  : option (option jsstring) :=
  match patterns with
  | [] => Some None
  | pattern :: rest =>
    match exec true pattern html with
    | Some {| m_cap := Some captured |} =>
      match cleanText captured with
      | None => None
      | Some cleaned =>
        if (0 <? length cleaned)%nat then Some (Some cleaned)
        else extractFirstText html rest
      end
    | _ => extractFirstText html rest
    end
  end.

Definition wordIn (words : list jsstring) : regex :=
  RAlts ((fun w => RSeqs [RWordB; RLit w; RWordB]) <$> words).

Definition inferSubtitleFormat (text : jsstring) : option SubtitleFormat :=
  let normalized := toUpperCase text in
  if test false (wordIn [lit "ASS"; lit "SSA"]) normalized then Some ass
  else if test false (wordIn [lit "SRT"]) normalized then Some srt
  else if test false (wordIn [lit "VTT"]) normalized then Some vtt
  else None.

Definition sanitizeFileStem (value : jsstring) : jsstring :=
  let normalized :=
    trim (replaceRegex false
            (RSet (fun c => bool_decide (c ∈ [92; 47; 58; 42; 63; 34; 60; 62; 124])))
            (fun _ => lit " ") (collapseWhitespace value)) in
  let clipped := trim (slice normalized 0 (Some 96%Z)) in
  if (0 <? length clipped)%nat then clipped else lit "subtitle".

Definition isQuote (c : N) : bool := (c =? 39) || (c =? 34).

Definition extractSubhdSid (cardHtml : jsstring) : option jsstring :=
  match exec false
          (RSeqs [RLit (lit "href="); RSet isQuote; RLit (lit "/a/");
                  RGroup (RPlus (RSet isAsciiAlnum)); RSet isQuote])
          cardHtml with
  | Some m => m_cap m
  | None => None
  end.

Definition digitsAndCommas : regex :=
  RSeq (RSet isDigit) (RStar true (RSet (fun c => isDigit c || (c =? 44)))).

Definition extractDownloadCount (cardHtml : jsstring) : N :=
  let found :=
    match exec true
            (RSeqs [RLit (lit "bi bi-download"); RStar false anything; RLit (lit "<span");
                    RStar true notGt; RChar 62; RStar true space;
                    RGroup digitsAndCommas; RStar true space; RLit (lit "</span>")])
            cardHtml with
    | Some m => Some m
    | None =>
      exec true
        (RSeqs [RLit (lit "下载"); RStar true (RSet (fun c => negb (isDigit c)));
                RGroup digitsAndCommas])
        cardHtml
    end in
  match found with
  | Some {| m_cap := Some captured |} =>
    let parsed := parseDigits (replaceRegex false (RChar 44) (fun _ => []) captured) in
    if parsed <? INFINITE then parsed else 0
  | _ => 0
  end.

Definition inferLanguage (languageLine title : jsstring) : jsstring :=
  let text := languageLine ++ lit " " ++ title in
  if test true (RAlts (RLit <$> [lit "简体"; lit "简中"; lit "chs"; lit "zh-cn"])) text
  then lit "zh-cn"
  else if test true (RAlts (RLit <$> [lit "繁体"; lit "繁中"; lit "cht"; lit "zh-tw"])) text
  then lit "zh-tw"
  else if test true
            (RAlts [RLit (lit "英语"); RLit (lit "英文");
                    RSeqs [RWordB; RLit (lit "eng"); RWordB];
                    RSeqs [RWordB; RLit (lit "en"); RWordB]]) text
  then lit "en"
  else if test true (RAlts (RLit <$> [lit "双语"; lit "中英"; lit "中字"; lit "中文"])) text
  then lit "zh-cn"
  else lit "zh".

Definition titlePatterns : list regex :=
  [ RSeqs [RLit (lit "<div class=" ++ dq ++ lit "view-text"); RStar true notGt; RChar 62;
           RStar true space; RLit (lit "<a"); RStar true notGt; RChar 62;
           RGroup (RStar false anything); RLit (lit "</a>")];
    RSeqs [RLit (lit "<a"); RStar true notGt;
           RLit (lit "class=" ++ dq ++ lit "link-dark align-middle" ++ dq);
           RStar true notGt; RChar 62;
           RGroup (RStar false anything); RLit (lit "</a>")] ].

Definition languageLinePattern : regex :=
  RSeqs [RLit (lit "<div class=" ++ dq ++ lit "text-truncate py-2 f11" ++ dq ++ lit ">");
         RGroup (RStar false anything); RLit (lit "</div>")].

Definition hearingImpairedPattern : regex :=
  RAlts [RLit (lit "听障"); RLit (lit "聋哑"); RLit (lit "sdh");
         RSeqs [RWordB; RLit (lit "hi"); RWordB]].

(** One turn of the loop of [parseSubhdSearchItems]: Some None when the card
    is skipped, None when it throws. *)
Definition parseCard (card : jsstring) : option (option SubhdSearchItem) :=
  match extractSubhdSid card with
  | None => Some None
  | Some sid =>
    match extractFirstText card titlePatterns with
    | None => None
    | Some found =>
      let title :=
        match found with
        | Some t => t
        | None => lit "SubHD subtitle " ++ sid
        end in
      match extractFirstText card [languageLinePattern] with
      | None => None
      | Some foundLine =>
        let languageLine := match foundLine with Some l => l | None => [] end in
        let format :=
          match inferSubtitleFormat (languageLine ++ [10] ++ title) with
          | Some f => f
          | None => srt
          end in
        let downloads := extractDownloadCount card in
        let hearingImpaired :=
          test true hearingImpairedPattern (title ++ lit " " ++ languageLine) in
        Some (Some {| sid := sid;
                      title := title;
                      language := inferLanguage languageLine title;
                      format := format;
                      downloads := downloads;
                      hearingImpaired := if hearingImpaired then Some true else None |})
      end
    end
  end.

Definition parseSubhdSearchItems (html : jsstring) : Thrown + list SubhdSearchItem :=
  let cards := slice (split html SUBHD_CARD_MARKER) 1 None in
  let deduped :=
    fold_left
      (fun deduped card =>
         match deduped with
         | None => None
         | Some entries =>
           match parseCard card with
           | None => None
           | Some None => Some entries
           | Some (Some item) => Some (mapSet entries (sid item) item)
           end
         end)
      cards (Some []) in
  match deduped with
  | None => inl rangeError
  | Some entries => inr (snd <$> entries)
  end.

Definition parseSubhdDownloadPage (html sid : jsstring) : Thrown + SubhdDownloadPage :=
  match
    extractFirstText html
      [ RSeqs [RLit (lit "<h5 class=" ++ dq ++ lit "card-header" ++ dq ++ lit ">");
               RGroup (RStar false anything); RLit (lit "</h5>")];
        RSeqs [RLit (lit "<div class=" ++ dq ++ lit "f16 fw-bold mb-2" ++ dq ++ lit ">");
               RGroup (RStar false anything); RLit (lit "</div>")] ]
  with
  | None => inl rangeError
  | Some found =>
    let title := match found with Some t => t | None => lit "subhd-" ++ sid end in
    match
      extractFirstText html
        [ RSeqs [RLit (lit "<th"); RStar true notGt; RLit (lit ">字幕版本</th>");
                 RStar true space; RLit (lit "<td>");
                 RGroup (RStar false anything); RLit (lit "</td>")] ]
    with
    | None => inl rangeError
    | Some foundCell =>
      let versionCell := match foundCell with Some c => c | None => [] end in
      let format := inferSubtitleFormat (versionCell ++ [10] ++ title) in
      inr {| page_sid := sid;
             page_title := title;
             fileStem := sanitizeFileStem title;
             page_format := format |}
    end
  end.

End WithHost.
End SubhdParser.

(** ** src/domain/providers/subhd.ts *)

Module Subhd.
Import UpstreamClient SubhdParser.
Section WithHost.
Context {U : Unicode} {Wb : Web}.
Variable W : Type.

Record SubhdProviderOptions := {
  po_baseUrl : option jsstring;
  po_timeoutMs : option jsnumber;
  po_retries : option jsnumber;
  po_backoffMs : option jsnumber;
  po_maxBackoffMs : option jsnumber;
  po_fetchImpl : FetchRequest -> W -> FetchResult * W
}.

(** What the closure of [createSubhdProvider] holds. *)
Record SubhdProvider := {
  sp_baseUrl : jsstring;
  sp_client : Client W
}.

Definition SUBHD_ID_PREFIX : jsstring := lit "subhd:".

Definition normalizeBaseUrl (value : option jsstring) : jsstring :=
  match value with
  | None => lit "https://subhd.tv/"
  | Some v =>
    let trimmed := trim v in
    if (length trimmed =? 0)%nat then lit "https://subhd.tv/"
    else if endsWith trimmed (lit "/") then trimmed else trimmed ++ lit "/"
  end.

Definition createSubhdProvider (options : SubhdProviderOptions) : Thrown + SubhdProvider :=
  let baseUrl := normalizeBaseUrl (po_baseUrl options) in
  match newClient
          {| o_providerId := lit "subhd";
             o_baseUrl := baseUrl;
             o_timeoutMs := po_timeoutMs options;
             o_retries := po_retries options;
             o_backoffMs := po_backoffMs options;
             o_maxBackoffMs := po_maxBackoffMs options;
             o_fetchImpl := po_fetchImpl options;
             o_userAgent := Some (lit "subtitle-cli/subhd") |} with
  | inl e => inl e
  | inr client => inr {| sp_baseUrl := baseUrl; sp_client := client |}
  end.

Definition toSubhdProviderId (sid : jsstring) : jsstring := SUBHD_ID_PREFIX ++ sid.

(** /^[A-Za-z0-9]+$/u *)
Definition alnumOnly : regex := RSeqs [RBol; RPlus (RSet isAsciiAlnum); REol].

Definition notFoundError (id : jsstring) : CliAppError :=
  {| code := E_NOT_FOUND_RESOURCE;
     message := lit "SubHD subtitle not found: " ++ id;
     details := [ (lit "provider", JStr (lit "subhd")); (lit "id", JStr id) ];
     cause := None |}.

Definition parseSubhdProviderId (id : jsstring) : Thrown + jsstring :=
  let normalized := trim id in
  let sid := slice normalized (Z.of_nat (length SUBHD_ID_PREFIX)) None in
  if startsWith normalized SUBHD_ID_PREFIX && test false alnumOnly sid then inr sid
  else if test false alnumOnly normalized then inr normalized
  else inl (ThrowApp (notFoundError id)).

Definition resolveSubhdDownloadUrl (baseUrl : jsstring) (value : jsvalue) : option jsstring :=
  match value with
  | JStr v =>
    if (length (trim v) =? 0)%nat then None
    else match newURL v (Some baseUrl) with
         | Some url => Some (href url)
         | None => None
         end
  | _ => None
  end.

Definition normalizeErrorMessage (value : jsvalue) : jsstring :=
  match value with
  | JStr v => trim v
  | _ => []
  end.

(** An optional string as a property value: undefined when left out. *)
Definition optional (value : option jsstring) : jsvalue :=
  match value with
  | Some v => JStr v
  | None => JUndefined
  end.

Definition createSubhdChallengeError (url reason : jsstring) (sid message : option jsstring)
  : CliAppError :=
  {| code := E_UPSTREAM_BAD_RESPONSE;
     message := lit "SubHD requires anti-bot verification before download";
     details :=
       [ (lit "provider", JStr (lit "subhd"));
         (lit "classification", JStr (lit "anti-bot"));
         (lit "url", JStr url);
         (lit "reason", JStr reason);
         (lit "sid", optional sid);
         (lit "message", optional message) ];
     cause := None |}.

(** /临时页面|验证|验证码/u *)
Definition verificationPattern : regex :=
  RAlts (RLit <$> [lit "临时页面"; lit "验证"; lit "验证码"]).

(** /频繁|次数|rate\s*limit|too\s*many/iu *)
Definition frequencyPattern : regex :=
  RAlts [ RLit (lit "频繁"); RLit (lit "次数");
          RSeqs [RLit (lit "rate"); RStar true whiteSpace; RLit (lit "limit")];
          RSeqs [RLit (lit "too"); RStar true whiteSpace; RLit (lit "many")] ].

Definition isFalse (v : jsvalue) : bool :=
  match v with JBool false => true | _ => false end.
Definition isTrue (v : jsvalue) : bool :=
  match v with JBool true => true | _ => false end.

Definition createSubhdDownloadApiError (sid : jsstring) (payload : jsvalue) (url : jsstring)
  : CliAppError :=
  let message := normalizeErrorMessage (prop payload (lit "msg")) in
  if isFalse (prop payload (lit "success"))
     && (looksLikeAntiBotChallenge message || test false verificationPattern message)
  then createSubhdChallengeError url (lit "download-gate-rejected") (Some sid) (Some message)
  else if isFalse (prop payload (lit "success")) && test true frequencyPattern message
  then
    {| code := E_UPSTREAM_BAD_RESPONSE;
       message := lit "SubHD rate limited the download request";
       details :=
         [ (lit "provider", JStr (lit "subhd"));
           (lit "sid", JStr sid);
           (lit "url", JStr url);
           (lit "classification", JStr (lit "rate-limit"));
           (lit "message", JStr message) ];
       cause := None |}
  else
    {| code := E_UPSTREAM_BAD_RESPONSE;
       message := lit "SubHD download gate returned an unexpected response";
       details :=
         [ (lit "provider", JStr (lit "subhd"));
           (lit "sid", JStr sid);
           (lit "url", JStr url);
           (lit "classification", JStr (lit "bad-response"));
           (lit "payload", payload) ];
       cause := None |}.

(** /\.([A-Za-z0-9]{2,5})(?:$|[?#])/u *)
Definition extensionPattern : regex :=
  let c := RSet isAsciiAlnum in
  RSeqs [ RChar 46;
          RGroup (RSeqs [c; c; ROpt (RSeq c (ROpt (RSeq c (ROpt c))))]);
          RAlt REol (RSet (fun x => (x =? 63) || (x =? 35))) ].

Definition inferSubtitleFormatFromUrl (url : jsstring) : option SubtitleFormat :=
  match exec false extensionPattern url with
  | Some {| m_cap := Some extension |} => inferSubtitleFormat extension
  | _ => None
  end.

(** None when [decodeURIComponent] throws. *)
Definition selectFileName (fileStem sourceUrl : jsstring) (format : SubtitleFormat)
  : option jsstring :=
  let pathname :=
    match newURL sourceUrl None with
    | Some url => pathname url
    | None => []
    end in
  let baseName :=
    last (List.filter (fun segment => (0 <? length segment)%nat) (split pathname (lit "/"))) in
  match baseName with
  | Some name => decodeURIComponent name
  | None => Some (sanitizeFileStem fileStem ++ lit "." ++ formatName format)
  end.

Section Methods.
Variable this : SubhdProvider.

(** The options of the two requests of [getDownloadPlan]. *)
Definition gatePageRequest (sid : jsstring) : UpstreamRequestOptions :=
  {| pathOrUrl := lit "/down/" ++ encodeURIComponent sid;
     method := None;
     headers :=
       [ (lit "referer", sp_baseUrl this ++ lit "a/" ++ encodeURIComponent sid);
         (lit "accept-language", lit "zh-CN,zh;q=0.9,en;q=0.7") ];
     body := None |}.

Definition downPageUrl (sid : jsstring) : jsstring :=
  sp_baseUrl this ++ lit "down/" ++ encodeURIComponent sid.

Definition resolutionRequest (sid origin : jsstring) : UpstreamRequestOptions :=
  {| pathOrUrl := lit "/api/sub/down";
     method := Some POST;
     headers :=
       [ (lit "content-type", lit "application/json");
         (lit "accept", lit "application/json, text/plain, */*");
         (lit "origin", origin);
         (lit "referer", downPageUrl sid) ];
     body := Some (jsonStringify (JObj [ (lit "sid", JStr sid); (lit "cap", JStr []) ])) |}.

Definition liftThrown {A} (r : Thrown + A) : Eff (ClientState W) Thrown A :=
  match r with
  | inl e => throw e
  | inr a => ret a
  end.

Definition getDownloadPlan (id : jsstring)
  : Eff (ClientState W) Thrown SubtitleDownloadPlan :=
  (sid <- liftThrown (parseSubhdProviderId id) ;;
   html <- requestText (sp_client this) (gatePageRequest sid) ;;
   if looksLikeAntiBotChallenge html then
     throw (ThrowApp (createSubhdChallengeError (downPageUrl sid)
                        (lit "download-gate-challenge") None None))
   else
     page <- liftThrown (parseSubhdDownloadPage html sid) ;;
     match newURL (sp_baseUrl this) None with
     | None => throw (typeError (lit "Invalid URL"))
     | Some base =>
       apiPayload <- requestJson (sp_client this) (resolutionRequest sid (origin base)) ;;
       match apiPayload with
       | JNull | JUndefined => throw (typeError (lit "Cannot read properties of null"))
       | _ =>
         match resolveSubhdDownloadUrl (sp_baseUrl this) (prop apiPayload (lit "url")) with
         | Some sourceUrl =>
           if isTrue (prop apiPayload (lit "success")) && isTrue (prop apiPayload (lit "pass"))
           then
             let sourceFormat := inferSubtitleFormatFromUrl sourceUrl in
             let format :=
               match sourceFormat with
               | Some f => f
               | None => match page_format page with Some f => f | None => srt end
               end in
             match selectFileName (fileStem page) sourceUrl format with
             | None =>
               throw (ThrowOther {| err_isError := true; err_name := lit "URIError";
                                    err_message := lit "URI malformed" |})
             | Some fileName =>
               ret {| p_id := toSubhdProviderId sid;
                      p_providerId := lit "subhd";
                      p_fileName := fileName;
                      p_sourceUrl := sourceUrl;
                      p_format := format |}
             end
           else
             throw (ThrowApp (createSubhdDownloadApiError sid apiPayload (downPageUrl sid)))
         | None =>
           throw (ThrowApp (createSubhdDownloadApiError sid apiPayload (downPageUrl sid)))
         end
       end
     end)%eff.

End Methods.
End WithHost.

Arguments po_baseUrl {W}. Arguments po_timeoutMs {W}. Arguments po_retries {W}.
Arguments po_backoffMs {W}. Arguments po_maxBackoffMs {W}. Arguments po_fetchImpl {W}.
Arguments sp_baseUrl {W}. Arguments sp_client {W}.
Arguments createSubhdProvider {Wb W}.
Arguments gatePageRequest {Wb W}. Arguments downPageUrl {Wb W}.
Arguments resolutionRequest {Wb W}. Arguments liftThrown {W A}.
Arguments getDownloadPlan {U Wb W}.

End Subhd.

(** ** src/core/exit-codes.ts *)

(** The codes are strings in the source; their spelling decides the exit
    code. *)
Definition codeName (code : CliErrorCode) : jsstring :=
  match code with
  | E_ARG_INVALID => lit "E_ARG_INVALID"
  | E_ARG_MISSING => lit "E_ARG_MISSING"
  | E_ARG_CONFLICT => lit "E_ARG_CONFLICT"
  | E_ARG_UNSUPPORTED => lit "E_ARG_UNSUPPORTED"
  | E_AUTH_REQUIRED => lit "E_AUTH_REQUIRED"
  | E_AUTH_INVALID => lit "E_AUTH_INVALID"
  | E_NOT_FOUND_RESOURCE => lit "E_NOT_FOUND_RESOURCE"
  | E_UPSTREAM_NETWORK => lit "E_UPSTREAM_NETWORK"
  | E_UPSTREAM_TIMEOUT => lit "E_UPSTREAM_TIMEOUT"
  | E_UPSTREAM_BAD_RESPONSE => lit "E_UPSTREAM_BAD_RESPONSE"
  | E_UNKNOWN => lit "E_UNKNOWN"
  end.

Module ExitCodes.

Definition SUCCESS : Z := 0.
Definition ARGUMENT_ERROR : Z := 2.
Definition AUTH_OR_CONFIG_ERROR : Z := 3.
Definition NOT_FOUND : Z := 4.
Definition UPSTREAM_ERROR : Z := 5.
Definition UNKNOWN_ERROR : Z := 10.

Definition mapErrorCodeToExitCode (code : CliErrorCode) : Z :=
  if startsWith (codeName code) (lit "E_ARG_") then ARGUMENT_ERROR
  else if startsWith (codeName code) (lit "E_AUTH_") then AUTH_OR_CONFIG_ERROR
  else if startsWith (codeName code) (lit "E_NOT_FOUND_") then NOT_FOUND
  else if startsWith (codeName code) (lit "E_UPSTREAM_") then UPSTREAM_ERROR
  else UNKNOWN_ERROR.

End ExitCodes.

(** ** src/domain/providers/subhd.ts: search and doctor *)

Module SubhdProvider.
Import UpstreamClient SubhdParser Subhd.
Section WithHost.
Context {U : Unicode} {Wb : Web} {W : Type}.
Variable this : SubhdProvider W.

Definition matchesRequest (title : jsstring) (request : NormalizedSubtitleRequest) : bool :=
  let normalizedTitle := toLowerCase title in
  if match year request with
     | Some y => negb (includes normalizedTitle (stringOfZ y))
     | None => false
     end
  then false
  else if match season request with
          | Some s =>
            negb (includes normalizedTitle (lit "s" ++ padStart (stringOfZ s) 2 48))
          | None => false
          end
  then false
  else if match episode request with
          | Some e =>
            negb (includes normalizedTitle (lit "e" ++ padStart (stringOfZ e) 2 48))
          | None => false
          end
  then false
  else true.

Definition searchRequest (request : NormalizedSubtitleRequest) : UpstreamRequestOptions :=
  {| pathOrUrl := lit "/search/" ++ encodeURIComponent (query request);
     method := None;
     headers := [ (lit "accept-language", lit "zh-CN,zh;q=0.9,en;q=0.7") ];
     body := None |}.

Definition toCandidate (item : SubhdSearchItem) : ProviderSubtitleResult :=
  {| c_id := toSubhdProviderId (sid item);
     c_providerId := lit "subhd";
     c_title := title item;
     c_language := language item;
     c_format := format item;
     c_downloads := downloads item;
     c_hearingImpaired := hearingImpaired item;
     c_releaseName := Some (title item) |}.

Definition search (request : NormalizedSubtitleRequest)
  : Eff (ClientState W) Thrown (list ProviderSubtitleResult) :=
  if (length (queryTokens request) =? 0)%nat then ret []
  else
    (html <- requestText (sp_client this) (searchRequest request) ;;
     if looksLikeAntiBotChallenge html then
       throw (ThrowApp (createSubhdChallengeError
                          (sp_baseUrl this ++ lit "search/" ++ encodeURIComponent (query request))
                          (lit "search-page-challenge") None None))
     else
       items <- liftThrown (parseSubhdSearchItems html) ;;
       ret (toCandidate <$>
              List.filter (fun item => matchesRequest (title item) request) items))%eff.

(** What [doctor] returns. *)
Record DoctorReport := {
  ok : bool;
  report_message : jsstring;
  report_details : list (jsstring * jsvalue)
}.

Definition toSubhdUnknownError (error : Thrown) : CliAppError :=
  match error with
  | ThrowApp e => e
  | ThrowOther e =>
    {| code := E_UNKNOWN;
       message := if err_isError e then err_message e
                  else lit "Unknown SubHD provider failure";
       details := [ (lit "name", if err_isError e then JStr (err_name e) else JUndefined) ];
       cause := Some e |}
  end.

Definition doctorRequest : UpstreamRequestOptions :=
  {| pathOrUrl := lit "/";
     method := None;
     headers := [ (lit "accept-language", lit "zh-CN,zh;q=0.9,en;q=0.7") ];
     body := None |}.

Definition doctor : Eff (ClientState W) Thrown DoctorReport :=
  tryCatch
    (html <- requestText (sp_client this) doctorRequest ;;
     if looksLikeAntiBotChallenge html then
       ret {| ok := false;
              report_message := lit "SubHD reachable, but anti-bot challenge is active.";
              report_details :=
                [ (lit "provider", JStr (lit "subhd"));
                  (lit "baseUrl", JStr (sp_baseUrl this));
                  (lit "classification", JStr (lit "anti-bot")) ] |}
     else
       ret {| ok := true;
              report_message := lit "SubHD provider is reachable.";
              report_details :=
                [ (lit "provider", JStr (lit "subhd"));
                  (lit "baseUrl", JStr (sp_baseUrl this)) ] |})%eff
    (fun error =>
       let appError :=
         match error with
         | ThrowApp e => e
         | ThrowOther _ => toSubhdUnknownError error
         end in
       ret {| ok := false;
              report_message := message appError;
              report_details :=
                [ (lit "provider", JStr (lit "subhd"));
                  (lit "code", JStr (codeName (code appError)));
                  (lit "details", JObj (details appError)) ] |}).

End WithHost.
End SubhdProvider.

(** ** src/commands/search.ts *)

Module SearchCommand.
Import Ranking.
Section WithHost.
Context {U : Unicode} {Nm : Numeric}.
(** The state the provider works on. *)
Variable State : Type.

(** A provider, as far as the command uses it. *)
Record SubtitleProvider := {
  descriptor_id : jsstring;
  provider_search : NormalizedSubtitleRequest -> Eff State Thrown (list ProviderSubtitleResult)
}.

Record SearchCommandInput := {
  provider : SubtitleProvider;
  request : NormalizedSubtitleRequest;
  limit : jsnumber
}.

Record SearchCommandOutput := {
  out_provider : jsstring;
  out_request : NormalizedSubtitleRequest;
  returned : nat;
  totalCandidates : nat;
  items : list RankedSubtitleResult
}.

(** [input.limit <= 0]. *)
Definition notPositive (x : jsnumber) : bool :=
  match x with
  | Finite q => Qle_bool q 0
  | NegativeInfinity => true
  | NaN | Infinity => false
  end.

(** The limit, an integer once the test is passed, goes to the ranking as
    that integer. *)
Definition runSearchCommand (input : SearchCommandInput)
  : Eff State Thrown SearchCommandOutput :=
  if negb (isInteger (limit input)) || notPositive (limit input) then
    throw (ThrowApp
      {| code := E_ARG_INVALID;
         message := lit "--limit must be a positive integer";
         details := [ (lit "arg", JStr (lit "limit")); (lit "value", JNum (limit input)) ];
         cause := None |})
  else
    (candidates <- provider_search (provider input) (request input) ;;
     match
       rankSubtitleCandidates (request input) candidates
         (Some (match limit input with Finite q => Qfloor q | _ => 0%Z end))
     with
     | inl error => throw error
     | inr ranked =>
       ret {| out_provider := descriptor_id (provider input);
              out_request := request input;
              returned := length ranked;
              totalCandidates := length candidates;
              items := ranked |}
     end)%eff.

End WithHost.

Arguments descriptor_id {State}. Arguments provider_search {State}.
Arguments provider {State}. Arguments request {State}. Arguments limit {State}.
Arguments runSearchCommand {U Nm State}.

End SearchCommand.

(** * Facts about the host operations *)

Local Close Scope N_scope.

Section SortFacts.
Context {A : Type} (cmp : A -> A -> Z) {HC : Consistent cmp}.

(** Two elements the comparison function does not tell apart. *)
Definition tied (a b : A) : Prop := cmp a b = 0%Z.

Lemma cmp_refl a : cmp a a = 0%Z.
Proof. pose proof (cmp_sgn a a) as E. destruct (cmp a a); simpl in E; lia || done. Qed.

Lemma cmp_flip_le a b : (0 < cmp a b)%Z -> (cmp b a < 0)%Z.
Proof. intros Hn. pose proof (cmp_sgn a b) as E. destruct (cmp a b), (cmp b a); simpl in E; lia. Qed.

Lemma cmp_lt_flip a b : (cmp a b < 0)%Z -> (0 < cmp b a)%Z.
Proof. intros Hn. pose proof (cmp_sgn a b) as E. destruct (cmp a b), (cmp b a); simpl in E; lia. Qed.

Lemma tied_sym a b : tied a b -> tied b a.
Proof. unfold tied. intros E. pose proof (cmp_sgn a b) as S. rewrite E in S. destruct (cmp b a); simpl in S; lia. Qed.

Lemma tied_le a b : tied a b -> (cmp a b <= 0)%Z /\ (cmp b a <= 0)%Z.
Proof. intros E. pose proof (tied_sym _ _ E). unfold tied in *. lia. Qed.

Lemma le_le_tied a b : (cmp a b <= 0)%Z -> (cmp b a <= 0)%Z -> tied a b.
Proof.
  intros H1 H2. unfold tied. pose proof (cmp_sgn a b) as S.
  destruct (cmp a b), (cmp b a); simpl in S; lia.
Qed.

Lemma tied_trans a b c : tied a b -> tied b c -> tied a c.
Proof.
  intros [H1 H2]%tied_le [H3 H4]%tied_le.
  apply le_le_tied; eapply cmp_trans; eauto.
Qed.

Lemma tied_le_l a b c : tied a b -> (cmp a c <= 0)%Z -> (cmp b c <= 0)%Z.
Proof. intros [H1 H2]%tied_le H. eapply cmp_trans; eauto. Qed.

Lemma tied_le_r a b c : tied a b -> (cmp c a <= 0)%Z -> (cmp c b <= 0)%Z.
Proof. intros [H1 H2]%tied_le H. eapply cmp_trans; eauto. Qed.

Lemma cmp_lt_le_trans a b c : (cmp a b < 0)%Z -> (cmp b c <= 0)%Z -> (cmp a c < 0)%Z.
Proof.
  intros H1 H2. destruct (Z.ltb_spec (cmp a c) 0) as [?|Hge]; [done|].
  assert (Hca : (cmp c a <= 0)%Z).
  { destruct (Z.leb_spec (cmp c a) 0) as [?|Hp]; [done|].
    apply cmp_flip_le in Hp. lia. }
  assert (cmp b a <= 0)%Z by (eapply cmp_trans; eauto).
  apply cmp_lt_flip in H1. lia.
Qed.

Lemma cmp_le_lt_trans a b c : (cmp a b <= 0)%Z -> (cmp b c < 0)%Z -> (cmp a c < 0)%Z.
Proof.
  intros H1 H2. destruct (Z.ltb_spec (cmp a c) 0) as [?|Hge]; [done|].
  assert (Hca : (cmp c a <= 0)%Z).
  { destruct (Z.leb_spec (cmp c a) 0) as [?|Hp]; [done|].
    apply cmp_flip_le in Hp. lia. }
  assert (cmp c b <= 0)%Z by (eapply cmp_trans; eauto).
  apply cmp_lt_flip in H2. lia.
Qed.

Lemma insertBy_tied x y s1 s2 :
  tied x y -> Forall2 tied s1 s2 ->
  Forall2 tied (insertBy cmp x s1) (insertBy cmp y s2).
Proof.
  intros Hxy HF. induction HF as [|a b s1 s2 Hab HF IH]; simpl.
  - by constructor.
  - destruct (Z.leb_spec (cmp x a) 0) as [Hxa|Hxa];
      destruct (Z.leb_spec (cmp y b) 0) as [Hyb|Hyb].
    + constructor; [done|]. by constructor.
    + exfalso. apply tied_sym in Hxy.
      assert (cmp y a <= 0)%Z by (eapply tied_le_l; eauto using tied_sym).
      assert (cmp y b <= 0)%Z by (eapply tied_le_r; eauto). lia.
    + exfalso.
      assert (cmp x b <= 0)%Z by (eapply tied_le_l; eauto using tied_sym).
      assert (cmp x a <= 0)%Z by (eapply tied_le_r; eauto using tied_sym). lia.
    + by constructor.
Qed.

Lemma Forall2_tied_refl s : Forall2 tied s s.
Proof. induction s; constructor; auto. apply cmp_refl. Qed.

Lemma Forall2_tied_trans s1 s2 s3 :
  Forall2 tied s1 s2 -> Forall2 tied s2 s3 -> Forall2 tied s1 s3.
Proof.
  intros H. revert s3. induction H; intros s3 H3; inversion H3; subst; constructor.
  - eapply tied_trans; eauto.
  - eauto.
Qed.

(** Inserting two elements in either order gives the same list, up to the
    order of the two when they are tied. *)
Lemma insertBy_comm x y s :
  Forall2 tied (insertBy cmp x (insertBy cmp y s)) (insertBy cmp y (insertBy cmp x s)).
Proof.
  induction s as [|z t IH]; simpl.
  - destruct (Z.leb_spec (cmp x y) 0) as [Hxy|Hxy];
      destruct (Z.leb_spec (cmp y x) 0) as [Hyx|Hyx].
    + pose proof (le_le_tied _ _ Hxy Hyx). repeat constructor; auto using tied_sym.
    + apply Forall2_tied_refl.
    + apply Forall2_tied_refl.
    + apply cmp_flip_le in Hxy. lia.
  - destruct (Z.leb_spec (cmp y z) 0) as [Hyz|Hyz];
      destruct (Z.leb_spec (cmp x z) 0) as [Hxz|Hxz]; simpl.
    + destruct (Z.leb_spec (cmp x y) 0) as [Hxy|Hxy];
        destruct (Z.leb_spec (cmp y x) 0) as [Hyx|Hyx].
      * pose proof (le_le_tied _ _ Hxy Hyx).
        constructor; [done|]. constructor; [by apply tied_sym|]. apply Forall2_tied_refl.
      * rewrite (proj2 (Z.leb_le _ _) Hyz). apply Forall2_tied_refl.
      * rewrite (proj2 (Z.leb_le _ _) Hxz). apply Forall2_tied_refl.
      * apply cmp_flip_le in Hxy. lia.
    + assert (Hyx : (cmp y x <= 0)%Z).
      { destruct (Z.leb_spec (cmp y x) 0) as [?|Hn]; [done|].
        assert (cmp x y < 0)%Z by (by apply cmp_flip_le).
        assert (cmp x z <= 0)%Z by (eapply cmp_trans; [|exact Hyz]; lia). lia. }
      assert (Hxy : ~ (cmp x y <= 0)%Z).
      { intros Hxy. assert (cmp x z <= 0)%Z by (eapply cmp_trans; eauto). lia. }
      rewrite (proj2 (Z.leb_gt _ _)) by lia.
      rewrite (proj2 (Z.leb_gt _ _) Hxz).
      rewrite (proj2 (Z.leb_le _ _) Hyz). apply Forall2_tied_refl.
    + assert (Hxy : (cmp x y <= 0)%Z).
      { destruct (Z.leb_spec (cmp x y) 0) as [?|Hn]; [done|].
        assert (cmp y x < 0)%Z by (by apply cmp_flip_le).
        assert (cmp y z <= 0)%Z by (eapply cmp_trans; [|exact Hxz]; lia). lia. }
      assert (Hyx : ~ (cmp y x <= 0)%Z).
      { intros Hyx. assert (cmp y z <= 0)%Z by (eapply cmp_trans; eauto). lia. }
      rewrite (proj2 (Z.leb_le _ _) Hxz).
      rewrite (proj2 (Z.leb_gt _ _)) by lia.
      rewrite (proj2 (Z.leb_gt _ _) Hyz). apply Forall2_tied_refl.
    + rewrite (proj2 (Z.leb_gt _ _) Hxz), (proj2 (Z.leb_gt _ _) Hyz).
      constructor; [apply cmp_refl|apply IH].
Qed.

(** Sorting a permutation of a list gives the same list up to ties. *)
Lemma sortBy_Permutation_tied l l' :
  Permutation l l' -> Forall2 tied (sortBy cmp l) (sortBy cmp l').
Proof.
  induction 1 as [|x l l' _ IH|x y l|l1 l2 l3 _ IH1 _ IH2]; simpl.
  - constructor.
  - apply insertBy_tied; [apply cmp_refl|exact IH].
  - apply insertBy_comm.
  - eapply Forall2_tied_trans; eauto.
Qed.

Lemma insertBy_Permutation x l : Permutation (insertBy cmp x l) (x :: l).
Proof.
  induction l as [|y t IH]; simpl; [done|].
  destruct (cmp x y <=? 0)%Z; [done|].
  rewrite IH. apply perm_swap.
Qed.

Lemma sortBy_Permutation l : Permutation (sortBy cmp l) l.
Proof.
  induction l as [|x t IH]; simpl; [done|].
  rewrite insertBy_Permutation. by constructor.
Qed.

Definition notAfter (a b : A) : Prop := (cmp a b <= 0)%Z.

Lemma insertBy_sorted x l :
  StronglySorted notAfter l -> StronglySorted notAfter (insertBy cmp x l).
Proof.
  induction 1 as [|y t Hs IH Hall]; simpl.
  - repeat constructor.
  - destruct (Z.leb_spec (cmp x y) 0) as [Hxy|Hxy].
    + constructor; [by constructor|]. constructor; [done|].
      eapply Forall_impl; [exact Hall|]. intros z Hz. unfold notAfter in *.
      eapply cmp_trans; eauto.
    + constructor; [done|].
      eapply Permutation_Forall; [symmetry; apply insertBy_Permutation|].
      constructor; [|done]. unfold notAfter. apply cmp_flip_le in Hxy. lia.
Qed.

Lemma sortBy_sorted l : StronglySorted notAfter (sortBy cmp l).
Proof. induction l; simpl; [constructor|by apply insertBy_sorted]. Qed.

End SortFacts.

Lemma Forall2_tied_keys {A K} (cmp : A -> A -> Z) (key : A -> K) (P : A -> Prop) xs ys :
  (forall a b, P a -> P b -> tied cmp a b -> key a = key b) ->
  Forall2 (tied cmp) xs ys -> Forall P xs -> Forall P ys ->
  key <$> xs = key <$> ys.
Proof.
  intros Hkey HF. induction HF as [|a b xs ys Hab HF IH]; intros Hx Hy; [done|].
  inversion Hx; inversion Hy; subst. simpl. f_equal; auto.
Qed.

Lemma Forall2_firstn {A B} (R : A -> B -> Prop) n xs ys :
  Forall2 R xs ys -> Forall2 R (firstn n xs) (firstn n ys).
Proof.
  intros HF. revert n. induction HF; intros [|n]; simpl; constructor; auto.
Qed.

Lemma Forall2_skipn {A B} (R : A -> B -> Prop) n xs ys :
  Forall2 R xs ys -> Forall2 R (skipn n xs) (skipn n ys).
Proof.
  intros HF. revert n. induction HF; intros [|n]; simpl; try constructor; auto.
Qed.

Lemma Forall2_slice {A B} (R : A -> B -> Prop) from to xs ys :
  Forall2 R xs ys -> Forall2 R (slice xs from to) (slice ys from to).
Proof.
  intros HF. unfold slice. rewrite (Forall2_length _ _ _ HF).
  by apply Forall2_firstn, Forall2_skipn.
Qed.

Lemma Forall_firstn {A} (P : A -> Prop) n xs : Forall P xs -> Forall P (firstn n xs).
Proof. intros HF. revert n. induction HF; intros [|n]; simpl; constructor; auto. Qed.

Lemma Forall_skipn {A} (P : A -> Prop) n xs : Forall P xs -> Forall P (skipn n xs).
Proof. intros HF. revert n. induction HF; intros [|n]; simpl; try constructor; auto. Qed.

Lemma Forall_slice {A} (P : A -> Prop) from to xs : Forall P xs -> Forall P (slice xs from to).
Proof. intros. unfold slice. by apply Forall_firstn, Forall_skipn. Qed.

Lemma slice_prefix {A} (l : list A) (n : Z) :
  (0 <= n)%Z -> slice l 0 (Some n) = firstn (Z.to_nat n) l.
Proof.
  intros Hn. unfold slice, clampIndex.
  destruct (Z.ltb_spec 0 0) as [?|_]; [lia|].
  destruct (Z.ltb_spec n 0) as [?|_]; [lia|].
  replace (Z.to_nat (0 `min` Z.of_nat (length l))) with 0%nat by lia.
  rewrite skipn_O.
  destruct (Z.le_gt_cases n (Z.of_nat (length l))) as [Hle|Hgt].
  - f_equal. lia.
  - rewrite (firstn_all2 (n:=Z.to_nat n)) by lia.
    rewrite firstn_all2 by lia. done.
Qed.

Instance localeCompare_consistent {U : Unicode} : Consistent localeCompare.
Proof. split; [apply localeCompare_sgn|apply localeCompare_trans]. Qed.

Lemma bind_run {S E A B} (m : Eff S E A) (f : A -> Eff S E B) s a s' :
  m s = (inr a, s') -> bind m f s = f a s'.
Proof. intros H. unfold bind. by rewrite H. Qed.


Section ArrayMapFacts.
Context {E A B : Type} (f : A -> E + B).

(** What the callback returns, when it returns. *)
Definition returnOf (x : A) : option B :=
  match f x with
  | inr y => Some y
  | inl _ => None
  end.

Lemma arrayMap_inr l ys :
  arrayMap f l = inr ys <-> Forall2 (fun x y => f x = inr y) l ys.
Proof.
  revert ys. induction l as [|x l IH]; intros ys; simpl.
  - split; [intros [= <-]; constructor|]. by inversion 1.
  - destruct (f x) as [e|y] eqn:Ex.
    + split; [done|]. inversion 1; congruence.
    + destruct (arrayMap f l) as [e|ys'] eqn:El.
      * split; [done|]. inversion 1 as [|? y' ? ys'' Hy Hrest]; subst.
        apply IH in Hrest. done.
      * split.
        -- intros [= <-]. constructor; [done|]. by apply IH.
        -- inversion 1 as [|? y' ? ys'' Hy Hrest]; subst.
           apply IH in Hrest. congruence.
Qed.

Lemma arrayMap_omap l ys : arrayMap f l = inr ys -> ys = omap returnOf l.
Proof.
  rewrite arrayMap_inr. induction 1 as [|x y l ys Hx _ IH]; [done|].
  simpl. unfold returnOf at 1. rewrite Hx. by rewrite IH.
Qed.

Lemma arrayMap_length l ys : arrayMap f l = inr ys -> length ys = length l.
Proof. rewrite arrayMap_inr. intros H. symmetry. by eapply Forall2_length. Qed.

Lemma arrayMap_returns l :
  Forall (fun x => exists y, f x = inr y) l -> arrayMap f l = inr (omap returnOf l).
Proof.
  induction 1 as [|x l [y Hx] _ IH]; [done|].
  simpl. unfold returnOf at 1. by rewrite Hx, IH.
Qed.

(** The call throws what the callback throws on the first element on which
    it throws. *)
Lemma arrayMap_inl l e :
  arrayMap f l = inl e <->
  exists before x after,
    l = before ++ x :: after /\ f x = inl e /\
    Forall (fun x => exists y, f x = inr y) before.
Proof.
  revert e. induction l as [|x l IH]; intros e; simpl.
  - split; [done|]. intros (before & ? & ? & H & _). by destruct before.
  - destruct (f x) as [e'|y] eqn:Ex.
    + split.
      * intros [= <-]. exists [], x, l. split; [done|]. split; [done|constructor].
      * intros (before & x' & after & Hl & Hx' & Hbefore).
        destruct before as [|b before]; simpl in Hl; injection Hl as -> ->; [congruence|].
        inversion Hbefore as [|? ? [y Hy] _]; subst. congruence.
    + destruct (arrayMap f l) as [e'|ys] eqn:El.
      * split.
        -- intros [= <-]. destruct (proj1 (IH e') eq_refl) as (before & x' & after & -> & Hx' & Hb).
           exists (x :: before), x', after. split; [done|]. split; [done|].
           constructor; [by exists y|done].
        -- intros (before & x' & after & Hl & Hx' & Hbefore).
           destruct before as [|b before]; simpl in Hl; injection Hl as -> ->; [congruence|].
           inversion Hbefore; subst. f_equal.
           assert (H : inl e' = @inl E (list B) e); [|congruence].
           apply IH. by exists before, x', after.
      * split; [done|].
        intros (before & x' & after & Hl & Hx' & Hbefore).
        destruct before as [|b before]; simpl in Hl; injection Hl as -> ->; [congruence|].
        inversion Hbefore; subst.
        assert (H : inr ys = @inl E (list B) e); [|done].
        apply IH. by exists before, x', after.
Qed.

End ArrayMapFacts.

(** * The matcher *)

Section MatcherFacts.
Variable icase : bool.

(** What the matcher computes, as a relation: the regular expression takes
    the matcher from one state to another. An iteration of a star consumes
    something. *)
Inductive Matches : regex -> mstate -> mstate -> Prop :=
| Matches_empty st : Matches REmpty st st
| Matches_char c st d t :
    nextCp (ms_rest st) = Some (d, t) -> canon icase d = canon icase c ->
    Matches (RChar c) st (MState (Some d) t (ms_cap st))
| Matches_set p st d t :
    nextCp (ms_rest st) = Some (d, t) -> p d = true ->
    Matches (RSet p) st (MState (Some d) t (ms_cap st))
| Matches_seq r1 r2 st st1 st2 :
    Matches r1 st st1 -> Matches r2 st1 st2 -> Matches (RSeq r1 r2) st st2
| Matches_alt_l r1 r2 st st' : Matches r1 st st' -> Matches (RAlt r1 r2) st st'
| Matches_alt_r r1 r2 st st' : Matches r2 st st' -> Matches (RAlt r1 r2) st st'
| Matches_star_stop greedy r st : Matches (RStar greedy r) st st
| Matches_star_more greedy r st st1 st2 :
    Matches r st st1 -> (length (ms_rest st1) < length (ms_rest st))%nat ->
    Matches (RStar greedy r) st1 st2 -> Matches (RStar greedy r) st st2
| Matches_group r st st1 :
    Matches r st st1 ->
    Matches (RGroup r) st
      (MState (ms_prev st1) (ms_rest st1) (Some (consumed (ms_rest st) (ms_rest st1))))
| Matches_bol st : ms_prev st = None -> Matches RBol st st
| Matches_eol st : ms_rest st = [] -> Matches REol st st
| Matches_wordb st :
    xorb (match ms_prev st with Some c => isWordChar icase c | None => false end)
         (match nextCp (ms_rest st) with
          | Some (c, _) => isWordChar icase c
          | None => false
          end) = true ->
    Matches RWordB st st.

Lemma is_Some_orElse {A} (x y : option A) : is_Some (orElse x y) <-> is_Some x \/ is_Some y.
Proof.
  destruct x as [a|]; simpl.
  - split; [by left|]. intros _. by eexists.
  - split; [by right|]. intros [H|H]; [by destruct H|done].
Qed.

Lemma stepChar_spec {A} (ok : N -> bool) st (k : mstate -> option A) :
  is_Some (stepChar ok st k) <->
  exists d t, nextCp (ms_rest st) = Some (d, t) /\ ok d = true /\
              is_Some (k (MState (Some d) t (ms_cap st))).
Proof.
  unfold stepChar. destruct (nextCp (ms_rest st)) as [[d t]|].
  - destruct (ok d) eqn:Hok.
    + split; [by exists d, t|]. by intros (? & ? & [= <- <-] & _ & ?).
    + split; [by intros [? ?]|]. intros (? & ? & [= <- <-] & ? & _). congruence.
  - split; [by intros [? ?]|]. by intros (? & ? & ? & _).
Qed.

Section Star.
Context {A : Type} (r : regex) (greedy : bool) (k : mstate -> option A).
Hypothesis body : forall st (k : mstate -> option A),
  is_Some (rmatch icase r st k) <-> exists st', Matches r st st' /\ is_Some (k st').

Lemma starLoop_spec n st :
  (length (ms_rest st) < n)%nat ->
  is_Some (starLoop (rmatch icase r) greedy k n st) <->
  exists st', Matches (RStar greedy r) st st' /\ is_Some (k st').
Proof.
  revert st. induction n as [|n IH]; intros st Hn; [lia|].
  cbn [starLoop].
  assert (Hmore :
    is_Some (rmatch icase r st (fun st' =>
               if (length (ms_rest st') <? length (ms_rest st))%nat
               then starLoop (rmatch icase r) greedy k n st' else None)) <->
    exists st1 st', Matches r st st1 /\ (length (ms_rest st1) < length (ms_rest st))%nat /\
                    Matches (RStar greedy r) st1 st' /\ is_Some (k st')).
  { rewrite body. split.
    - intros (st1 & H1 & Hk).
      destruct (Nat.ltb_spec (length (ms_rest st1)) (length (ms_rest st))) as [Hlt|];
        [|by destruct Hk].
      apply IH in Hk as (st' & Hstar & Hk); [|lia]. by exists st1, st'.
    - intros (st1 & st' & H1 & Hlt & Hstar & Hk). exists st1. split; [done|].
      rewrite (proj2 (Nat.ltb_lt _ _) Hlt). apply IH; [lia|]. by exists st'. }
  assert (Hall :
    (exists st', Matches (RStar greedy r) st st' /\ is_Some (k st')) <->
    is_Some (k st) \/
    exists st1 st', Matches r st st1 /\ (length (ms_rest st1) < length (ms_rest st))%nat /\
                    Matches (RStar greedy r) st1 st' /\ is_Some (k st')).
  { split.
    - intros (st' & Hstar & Hk). inversion Hstar; subst; [by left|].
      right. by eexists _, st'.
    - intros [Hk|(st1 & st' & H1 & Hlt & Hstar & Hk)].
      + exists st. split; [constructor|done].
      + exists st'. split; [|done]. by eapply Matches_star_more. }
  rewrite Hall. destruct greedy; rewrite is_Some_orElse, Hmore; tauto.
Qed.

End Star.

(** The matcher finds a result exactly when the expression takes the state
    to one the continuation accepts. *)
Theorem rmatch_spec {A} r st (k : mstate -> option A) :
  is_Some (rmatch icase r st k) <-> exists st', Matches r st st' /\ is_Some (k st').
Proof.
  revert st k. induction r as [|c|p|r1 IH1 r2 IH2|r1 IH1 r2 IH2|greedy r IH|r IH| | |];
    intros st k; cbn [rmatch].
  - split; [intros Hk; exists st; split; [constructor|done]|].
    intros (st' & H & Hk). by inversion H; subst.
  - rewrite stepChar_spec. split.
    + intros (d & t & Hnext & Hd%N.eqb_eq & Hk). eexists. split; [|exact Hk].
      by constructor.
    + intros (st' & H & Hk). inversion H; subst. eexists _, _.
      split; [done|]. split; [by apply N.eqb_eq|done].
  - rewrite stepChar_spec. split.
    + intros (d & t & Hnext & Hd & Hk). eexists. split; [|exact Hk]. by constructor.
    + intros (st' & H & Hk). inversion H; subst. by eexists _, _.
  - rewrite IH1. split.
    + intros (st1 & H1 & (st2 & H2 & Hk)%IH2). exists st2. split; [|done].
      by econstructor.
    + intros (st2 & H & Hk). inversion H; subst. eexists. split; [done|].
      apply IH2. by eexists.
  - rewrite is_Some_orElse, IH1, IH2. split.
    + intros [(st' & H & Hk)|(st' & H & Hk)]; exists st'; (split; [|done]).
      * by apply Matches_alt_l.
      * by apply Matches_alt_r.
    + intros (st' & H & Hk). inversion H; subst; [left|right]; by exists st'.
  - apply starLoop_spec; [exact IH|lia].
  - rewrite IH. split.
    + intros (st1 & H1 & Hk). eexists. split; [|exact Hk]. by constructor.
    + intros (st' & H & Hk). inversion H; subst. by eexists.
  - destruct (ms_prev st) eqn:Hprev.
    + split; [by intros [? ?]|]. intros (st' & H & _). inversion H; subst. congruence.
    + split; [intros Hk; exists st; split; [by constructor|done]|].
      intros (st' & H & Hk). by inversion H; subst.
  - destruct (ms_rest st) eqn:Hrest.
    + split; [intros Hk; exists st; split; [by constructor|done]|].
      intros (st' & H & Hk). by inversion H; subst.
    + split; [by intros [? ?]|]. intros (st' & H & _). inversion H; subst. congruence.
  - destruct (xorb _ _) eqn:Hx.
    + split; [intros Hk; exists st; split; [by constructor|done]|].
      intros (st' & H & Hk). by inversion H; subst.
    + split; [by intros [? ?]|]. intros (st' & H & _). inversion H; subst. congruence.
Qed.

End MatcherFacts.

Section SearchFacts.
Variable icase : bool.

(** The positions the search for a match passes through, code point by
    code point: the code point before the position and the input from
    there on. *)
Inductive Position : option N -> jsstring -> option N -> jsstring -> Prop :=
| Position_here prev s : Position prev s prev s
| Position_next prev s c t prev' s' :
    nextCp s = Some (c, t) -> Position (Some c) t prev' s' -> Position prev s prev' s'.

Lemma nextCp_length s c t : nextCp s = Some (c, t) -> (length t < length s)%nat.
Proof.
  destruct s as [|h [|l t']]; simpl; [done|by intros [= _ <-]; simpl; lia|].
  destruct (isHighSurrogate h && isLowSurrogate l); intros [= _ <-]; simpl; lia.
Qed.

Lemma nextCp_suffix s c t : nextCp s = Some (c, t) -> exists units, s = units ++ t.
Proof.
  destruct s as [|h [|l t']]; simpl; [done|by intros [= _ <-]; exists [h]|].
  destruct (isHighSurrogate h && isLowSurrogate l); intros [= _ <-].
  - by exists [h; l].
  - by exists [h].
Qed.

(** A code point of the basic plane that is no high surrogate is its own
    code unit. *)
Lemma nextCp_single h t : isHighSurrogate h = false -> nextCp (h :: t) = Some (h, t).
Proof. intros Hh. simpl. destruct t; [done|]. by rewrite Hh. Qed.

Lemma nextCp_inv s d t : nextCp s = Some (d, t) -> (d < 0x10000)%N -> s = d :: t.
Proof.
  destruct s as [|h [|l t']]; simpl; [done|by intros [= <- <-]|].
  destruct (isHighSurrogate h && isLowSurrogate l) eqn:Hpair; [|by intros [= <- <-]].
  intros [= <- _] Hd. exfalso.
  apply andb_true_iff in Hpair as [Hh Hl].
  unfold isHighSurrogate, isLowSurrogate, inRange in *.
  apply andb_true_iff in Hh as [Hh%N.leb_le _], Hl as [Hl%N.leb_le _]. lia.
Qed.

Lemma Position_prefix prev s prev' s' :
  Position prev s prev' s' -> exists before, s = before ++ s'.
Proof.
  induction 1 as [prev s|prev s c t prev' s' Hnext _ (before & ->)]; [by exists []|].
  apply nextCp_suffix in Hnext as (units & ->). exists (units ++ before).
  by rewrite app_assoc.
Qed.

(** Every place in the input that does not split a surrogate pair is a
    position of the search. *)
Lemma Position_reached before prev rest :
  match rest with h :: _ => isLowSurrogate h = false | [] => True end ->
  exists prev', Position prev (before ++ rest) prev' rest.
Proof.
  intros Hrest. remember (length before) as n eqn:Hn. revert before prev Hn.
  induction n as [n IH] using lt_wf_ind. intros before prev ->.
  destruct before as [|h before]; [exists prev; constructor|].
  change ((h :: before) ++ rest) with (h :: (before ++ rest)).
  assert (Hcases : exists c t, nextCp (h :: (before ++ rest)) = Some (c, t) /\
            (t = before ++ rest \/
             exists l before', before = l :: before' /\ t = before' ++ rest)).
  { simpl. destruct (before ++ rest) as [|l t'] eqn:Hbr;
      [eexists _, _; split; [done|by left]|].
    destruct (isHighSurrogate h && isLowSurrogate l) eqn:Hpair;
      [|eexists _, _; split; [done|by left]].
    eexists _, _. split; [done|]. right. destruct before as [|l' before'].
    - simpl in Hbr. subst rest. apply andb_true_iff in Hpair as [_ Hl]. congruence.
    - injection Hbr as -> <-. by exists l, before'. }
  destruct Hcases as (c & t & Hnext & Hcases).
  destruct Hcases as [->|(l & before' & -> & ->)].
  - destruct (IH (length before) ltac:(simpl; lia) before (Some c) eq_refl) as [prev' Hpos].
    exists prev'. by eapply Position_next.
  - destruct (IH (length before') ltac:(simpl; lia) before' (Some c) eq_refl) as [prev' Hpos].
    exists prev'. by eapply Position_next.
Qed.

Lemma matchHere_spec r prev s :
  is_Some (matchHere icase r prev s) <->
  exists st', Matches icase r (MState prev s None) st'.
Proof.
  unfold matchHere. rewrite rmatch_spec. split.
  - intros (st' & H & _). by exists st'.
  - intros (st' & H). exists st'. split; [done|by eexists].
Qed.

Lemma execFrom_spec fuel r prev s acc :
  (length s <= fuel)%nat ->
  is_Some (execFrom fuel icase r prev s acc) <->
  exists prev' s' st', Position prev s prev' s' /\ Matches icase r (MState prev' s' None) st'.
Proof.
  revert prev s acc. induction fuel as [|fuel IH]; intros prev s acc Hfuel; cbn [execFrom];
    pose proof (matchHere_spec r prev s) as Hhere;
    destruct (matchHere icase r prev s) as [st|] eqn:Hm.
  - split; [|by eexists]. intros _.
    destruct (proj1 Hhere ltac:(by eexists)) as (st' & H). exists prev, s, st'.
    split; [constructor|done].
  - destruct s; [|simpl in Hfuel; lia].
    split; [by intros [? ?]|]. intros (prev' & s' & st' & Hpos & H).
    inversion Hpos; subst; [|done].
    exfalso. apply (is_Some_None (A:=mstate)). apply Hhere. by exists st'.
  - split; [|by eexists]. intros _.
    destruct (proj1 Hhere ltac:(by eexists)) as (st' & H). exists prev, s, st'.
    split; [constructor|done].
  - destruct (nextCp s) as [[c t]|] eqn:Hnext.
    + rewrite IH by (apply nextCp_length in Hnext; lia). split.
      * intros (prev' & s' & st' & Hpos & H). exists prev', s', st'.
        split; [by eapply Position_next|done].
      * intros (prev' & s' & st' & Hpos & H). inversion Hpos; subst.
        -- exfalso. apply (is_Some_None (A:=mstate)). apply Hhere. by exists st'.
        -- exists prev', s', st'. split; [congruence|done].
    + split; [by intros [? ?]|]. intros (prev' & s' & st' & Hpos & H).
      inversion Hpos; subst; [|congruence].
      exfalso. apply (is_Some_None (A:=mstate)). apply Hhere. by exists st'.
Qed.

(** A regular expression tests true on an input when it matches from some
    position of the search. *)
Theorem test_spec r s :
  test icase r s = true <->
  exists prev' s' st', Position None s prev' s' /\ Matches icase r (MState prev' s' None) st'.
Proof.
  unfold test, exec. rewrite <- (execFrom_spec (length s) r None s []) by done.
  destruct (execFrom _ _ _ _ _ _); split; try done; try (by eexists); by intros [? ?].
Qed.

(** *** Expressions that consume code units

    The code point before the position once the code units [t] have been
    passed. *)
Definition lastOr (prev : option N) (t : jsstring) : option N :=
  match last t with Some c => Some c | None => prev end.

(** From [st] the matcher reaches [st'] over the code units [t], leaving
    the capture alone. *)
Definition Consumes (st : mstate) (t : jsstring) (st' : mstate) : Prop :=
  ms_rest st = t ++ ms_rest st' /\
  ms_prev st' = lastOr (ms_prev st) t /\
  ms_cap st' = ms_cap st.

(** The expression matches exactly the texts of a shape, one code unit per
    code point. *)
Definition Spans (r : regex) (shape : jsstring -> Prop) : Prop :=
  forall st st', Matches icase r st st' <-> exists t, shape t /\ Consumes st t st'.

Lemma lastOr_app prev t1 t2 : lastOr (lastOr prev t1) t2 = lastOr prev (t1 ++ t2).
Proof.
  unfold lastOr. destruct t2 as [|c t2 _] using rev_ind; [by rewrite app_nil_r|].
  by rewrite app_assoc, !last_snoc.
Qed.

Lemma Consumes_nil st : Consumes st [] st.
Proof. by repeat split. Qed.

Lemma Consumes_nil_inv st st' : Consumes st [] st' -> st' = st.
Proof. destruct st, st'. unfold Consumes, lastOr. simpl. by intros (-> & -> & ->). Qed.

Lemma Consumes_one st h st' :
  Consumes st [h] st' <->
  ms_rest st = h :: ms_rest st' /\ st' = MState (Some h) (ms_rest st') (ms_cap st).
Proof.
  destruct st, st'. unfold Consumes, lastOr. simpl. split.
  - by intros (-> & -> & ->).
  - by intros (-> & [= -> ->]).
Qed.

Lemma Consumes_app st t1 st1 t2 st' :
  Consumes st t1 st1 -> Consumes st1 t2 st' -> Consumes st (t1 ++ t2) st'.
Proof.
  intros (Hr1 & Hp1 & Hc1) (Hr2 & Hp2 & Hc2). repeat split.
  - by rewrite Hr1, Hr2, app_assoc.
  - by rewrite Hp2, Hp1, lastOr_app.
  - congruence.
Qed.

Lemma Consumes_split st t1 t2 st' :
  Consumes st (t1 ++ t2) st' ->
  exists st1, Consumes st t1 st1 /\ Consumes st1 t2 st'.
Proof.
  intros (Hr & Hp & Hc).
  exists (MState (lastOr (ms_prev st) t1) (t2 ++ ms_rest st') (ms_cap st)).
  repeat split; simpl; [by rewrite Hr, app_assoc|by rewrite lastOr_app|done].
Qed.

Lemma Spans_iff r (P Q : jsstring -> Prop) :
  (forall t, P t <-> Q t) -> Spans r P -> Spans r Q.
Proof.
  intros HPQ Hr st st'. rewrite (Hr st st'). split; intros (t & Ht & ?); exists t;
    (split; [by apply HPQ|done]).
Qed.

Lemma Spans_empty : Spans REmpty (fun t => t = []).
Proof.
  intros st st'. split.
  - inversion 1; subst. exists []. split; [done|apply Consumes_nil].
  - intros (t & -> & ->%Consumes_nil_inv). constructor.
Qed.

Lemma Spans_seq r1 r2 P1 P2 :
  Spans r1 P1 -> Spans r2 P2 ->
  Spans (RSeq r1 r2) (fun t => exists t1 t2, t = t1 ++ t2 /\ P1 t1 /\ P2 t2).
Proof.
  intros H1 H2 st st'. split.
  - inversion 1 as [| | |? ? ? st1 ? Hm1 Hm2| | | | | | | |]; subst.
    apply H1 in Hm1 as (t1 & Ht1 & Hc1). apply H2 in Hm2 as (t2 & Ht2 & Hc2).
    exists (t1 ++ t2). split; [by exists t1, t2|by eapply Consumes_app].
  - intros (t & (t1 & t2 & -> & Ht1 & Ht2) & (st1 & Hc1 & Hc2)%Consumes_split).
    apply (Matches_seq icase r1 r2 st st1).
    + apply H1. by exists t1.
    + apply H2. by exists t2.
Qed.

Lemma Spans_alt r1 r2 P1 P2 :
  Spans r1 P1 -> Spans r2 P2 -> Spans (RAlt r1 r2) (fun t => P1 t \/ P2 t).
Proof.
  intros H1 H2 st st'. split.
  - inversion 1 as [| | | |? ? ? ? Hm|? ? ? ? Hm| | | | | |]; subst.
    + apply H1 in Hm as (t & ? & ?). exists t. by split; [left|].
    + apply H2 in Hm as (t & ? & ?). exists t. by split; [right|].
  - intros (t & [Ht|Ht] & Hrest).
    + apply Matches_alt_l, H1. by exists t.
    + apply Matches_alt_r, H2. by exists t.
Qed.

(** A class of code points of the basic plane. *)
Definition unitClass (p : N -> bool) : Prop :=
  forall d, p d = true -> (d < 0x10000)%N /\ isHighSurrogate d = false.

Lemma Spans_set p : unitClass p -> Spans (RSet p) (fun t => exists h, t = [h] /\ p h = true).
Proof.
  intros Hp st st'. split.
  - inversion 1 as [| |? ? d t Hnext Hd| | | | | | | | |]; subst.
    destruct (Hp d Hd) as [Hlt _]. apply nextCp_inv in Hnext; [|done].
    exists [d]. split; [by exists d|]. by apply Consumes_one.
  - intros (t & (h & -> & Hh) & [Hrest ->]%Consumes_one).
    destruct (Hp h Hh) as [_ Hsingle].
    constructor; [|done]. rewrite Hrest. by apply nextCp_single.
Qed.

Lemma canon_below c : (c < 0xD800)%N -> (canon icase c < 0xD800)%N.
Proof.
  intros Hc. unfold canon, foldCase, isAsciiUpper, inRange. destruct icase; [|done].
  destruct (N.leb_spec 65 c), (N.leb_spec c 90); simpl; try lia;
    destruct (N.eqb_spec c 383); try lia; destruct (N.eqb_spec c 8490); lia.
Qed.

Lemma canon_below_inv d : (canon icase d < 0xD800)%N -> (d < 0xD800)%N.
Proof.
  unfold canon, foldCase, isAsciiUpper, inRange. destruct icase; [|done].
  destruct (N.leb_spec 65 d), (N.leb_spec d 90); simpl; try lia;
    destruct (N.eqb_spec d 383); try lia; destruct (N.eqb_spec d 8490); lia.
Qed.

Lemma below_single d : (d < 0xD800)%N -> (d < 0x10000)%N /\ isHighSurrogate d = false.
Proof.
  intros Hd. split; [lia|]. unfold isHighSurrogate, inRange.
  apply andb_false_iff. left. apply N.leb_gt. lia.
Qed.

Lemma below_not_low d : (d < 0xD800)%N -> isLowSurrogate d = false.
Proof.
  intros Hd. unfold isLowSurrogate, inRange.
  apply andb_false_iff. left. apply N.leb_gt. lia.
Qed.

Lemma Spans_char c :
  (c < 0xD800)%N ->
  Spans (RChar c) (fun t => exists h, t = [h] /\ canon icase h = canon icase c).
Proof.
  intros Hc st st'. split.
  - inversion 1 as [|? ? d t Hnext Hd| | | | | | | | | |]; subst.
    assert (Hlt : (d < 0xD800)%N).
    { apply canon_below_inv. rewrite Hd. by apply canon_below. }
    apply nextCp_inv in Hnext; [|lia].
    exists [d]. split; [by exists d|]. by apply Consumes_one.
  - intros (t & (h & -> & Hh) & [Hrest ->]%Consumes_one).
    assert (Hlt : (h < 0xD800)%N).
    { apply canon_below_inv. rewrite Hh. by apply canon_below. }
    constructor; [|done]. rewrite Hrest. by apply nextCp_single, below_single.
Qed.

(** The text is the word, letter for letter, in whatever letter case when
    the expression ignores it. *)
Definition spells (word text : jsstring) : Prop :=
  Forall2 (fun h c => canon icase h = canon icase c) text word.

Lemma Spans_lit word :
  Forall (fun c => c < 0xD800)%N word -> Spans (RLit word) (spells word).
Proof.
  induction word as [|c [|c' word] IH]; intros Hword.
  - apply (Spans_iff _ (fun t => t = [])); [|apply Spans_empty].
    intros t. unfold spells. split; [intros ->; constructor|by inversion 1].
  - inversion Hword; subst.
    apply (Spans_iff _ (fun t => exists h, t = [h] /\ canon icase h = canon icase c));
      [|by apply Spans_char].
    intros t. unfold spells. split.
    + intros (h & -> & Hh). by repeat constructor.
    + inversion 1 as [|h ? ? ? Hh Hrest]; subst. inversion Hrest; subst. by exists h.
  - inversion Hword as [|? ? Hc Hword']; subst.
    change (RLit (c :: c' :: word)) with (RSeq (RChar c) (RLit (c' :: word))).
    eapply Spans_iff; [|apply Spans_seq; [by apply Spans_char|by apply IH]].
    intros t. unfold spells. split.
    + intros (t1 & t2 & -> & (h & -> & Hh) & Ht2). by constructor.
    + inversion 1 as [|h ? t2 ? Hh Hrest]; subst. exists [h], t2.
      split; [done|]. split; [by exists h|done].
Qed.

(** A run of code units of a class. *)
Lemma Spans_star greedy p :
  unitClass p -> Spans (RStar greedy (RSet p)) (fun t => forallb p t = true).
Proof.
  intros Hp st st'. split.
  - intros H. remember (RStar greedy (RSet p)) as r eqn:Hr.
    induction H as [| | | | | |? ? st|? ? st st1 st2 H1 _ Hlt Hstar IH| | | |];
      try discriminate Hr.
    + exists []. split; [done|apply Consumes_nil].
    + injection Hr as -> ->.
      apply (Spans_set p Hp) in H1 as (t1 & (h & -> & Hh) & Hc1).
      destruct (IH eq_refl) as (t2 & Ht2 & Hc2).
      exists (h :: t2). split; [simpl; by rewrite Hh|].
      apply (Consumes_app st [h] st1 t2 st2 Hc1 Hc2).
  - intros (t & Ht & Hc). revert st Hc.
    induction t as [|h t IH]; intros st Hc.
    + apply Consumes_nil_inv in Hc as ->. constructor.
    + simpl in Ht. apply andb_true_iff in Ht as [Hh Ht].
      apply (Consumes_split st [h] t) in Hc as (st1 & Hc1 & Hc2).
      apply (Matches_star_more icase greedy (RSet p) st st1).
      * apply (Spans_set p Hp). exists [h]. split; [by exists h|done].
      * destruct Hc1 as [Hrest _]. rewrite Hrest. simpl. lia.
      * by apply IH.
Qed.

Lemma Spans_plus p :
  unitClass p -> Spans (RPlus (RSet p)) (fun t => t <> [] /\ forallb p t = true).
Proof.
  intros Hp. unfold RPlus.
  eapply Spans_iff; [|apply Spans_seq; [by apply Spans_set|by apply Spans_star]].
  intros t. split.
  - intros (t1 & t2 & -> & (h & -> & Hh) & Ht2). split; [done|]. simpl. by rewrite Hh.
  - intros [Hne Ht]. destruct t as [|h t]; [done|]. simpl in Ht.
    apply andb_true_iff in Ht as [Hh Ht]. exists [h], t. split; [done|].
    split; [by exists h|done].
Qed.

(** The text has a part of the shape. *)
Definition within (shape : jsstring -> Prop) (s : jsstring) : Prop :=
  exists before t after, s = before ++ t ++ after /\ shape t.

(** The test of an expression that consumes code units: some part of the
    input has the shape. *)
Theorem test_Spans r shape s :
  Spans r shape ->
  (forall t, shape t -> match t with h :: _ => isLowSurrogate h = false | [] => True end) ->
  test icase r s = true <-> within shape s.
Proof.
  intros Hr Hhead. rewrite test_spec. split.
  - intros (prev' & s' & st' & Hpos & Hm).
    apply Position_prefix in Hpos as (before & ->).
    apply Hr in Hm as (t & Ht & Hrest & _). cbn [ms_rest] in Hrest.
    exists before, t, (ms_rest st'). by rewrite Hrest.
  - intros (before & t & after & -> & Ht). destruct t as [|h t].
    + exists None, (before ++ after), (MState None (before ++ after) None).
      split; [constructor|]. apply Hr. exists []. split; [done|apply Consumes_nil].
    + destruct (Position_reached before None ((h :: t) ++ after) (Hhead _ Ht))
        as [prev' Hpos].
      exists prev', ((h :: t) ++ after),
        (MState (lastOr prev' (h :: t)) after None).
      split; [done|]. apply Hr. exists (h :: t). split; [done|]. by repeat split.
Qed.

End SearchFacts.

(** *** The patterns of the source in words *)

Section PatternFacts.
Import UpstreamClient Subhd.

Definition whiteSpaces (t : jsstring) : Prop := forallb isWhiteSpace t = true.

Lemma isWhiteSpace_unit : unitClass isWhiteSpace.
Proof.
  intros d H. unfold isWhiteSpace in H.
  rewrite !orb_true_iff, !andb_true_iff, !N.leb_le, !N.eqb_eq in H.
  assert (Hd : (d < 0xD800)%N \/ d = 0xFEFF%N) by lia.
  destruct Hd as [Hd| ->]; [by apply below_single|]. split; [lia|reflexivity].
Qed.

Lemma below_check (w : jsstring) :
  forallb (fun c => c <? 0xD800)%N w = true -> Forall (fun c => c < 0xD800)%N w.
Proof.
  intros H. apply Forall_forall. intros c Hc%list_elem_of_In.
  rewrite forallb_forall in H. by apply N.ltb_lt, H.
Qed.

(** /too\s+many\s+requests|rate\s*limit/iu in words: the words in any
    letter case, white space between them, none needed inside "rate
    limit". *)
Definition tooManyRequests (t : jsstring) : Prop :=
  exists too gap many gap' requests,
    t = too ++ gap ++ many ++ gap' ++ requests /\
    spells true (lit "too") too /\ gap <> [] /\ whiteSpaces gap /\
    spells true (lit "many") many /\ gap' <> [] /\ whiteSpaces gap' /\
    spells true (lit "requests") requests.

Definition rateLimit (t : jsstring) : Prop :=
  exists rate gap limit,
    t = rate ++ gap ++ limit /\
    spells true (lit "rate") rate /\ whiteSpaces gap /\ spells true (lit "limit") limit.

Definition mentionsRateLimit (snippet : jsstring) : Prop :=
  within (fun t => tooManyRequests t \/ rateLimit t) snippet.

Definition tooMany (t : jsstring) : Prop :=
  exists too gap many,
    t = too ++ gap ++ many /\
    spells true (lit "too") too /\ whiteSpaces gap /\ spells true (lit "many") many.

(** /临时页面|验证|验证码/u in words. *)
Definition mentionsVerification (message : jsstring) : Prop :=
  exists needle before after,
    needle ∈ [lit "临时页面"; lit "验证"; lit "验证码"] /\
    message = before ++ needle ++ after.

(** /频繁|次数|rate\s*limit|too\s*many/iu in words. *)
Definition mentionsFrequency (message : jsstring) : Prop :=
  within (fun t => t = lit "频繁" \/ t = lit "次数" \/ rateLimit t \/ tooMany t) message.

Lemma spells_first icase word text rest :
  spells icase word text ->
  match word with c :: _ => (c <? 0xD800)%N | [] => false end = true ->
  match text ++ rest with h :: _ => isLowSurrogate h = false | [] => True end.
Proof.
  intros Hs Hc. destruct word as [|c word]; [done|]. apply N.ltb_lt in Hc.
  inversion Hs as [|h ? ? ? Hh _]; subst. simpl.
  apply below_not_low, (canon_below_inv icase). rewrite Hh. by apply canon_below.
Qed.

Lemma spells_exact word text : spells false word text <-> text = word.
Proof.
  unfold spells. split.
  - induction 1 as [|h c text word Hh _ IH]; [done|]. simpl in Hh. by subst.
  - intros ->. induction word; by constructor.
Qed.

(** Beyond U+212A no two code points fold to the same one, with what
    [foldCase] tabulates. *)
Lemma foldCase_above c h : (0x212A < c)%N -> foldCase h = foldCase c -> h = c.
Proof.
  unfold foldCase, isAsciiUpper, inRange. intros Hc.
  destruct (N.leb_spec 65 c), (N.leb_spec c 90); simpl; try lia;
  destruct (N.eqb_spec c 383); try lia; destruct (N.eqb_spec c 8490); try lia;
  destruct (N.leb_spec 65 h), (N.leb_spec h 90); simpl; try lia;
  destruct (N.eqb_spec h 383); try lia; destruct (N.eqb_spec h 8490); lia.
Qed.

Lemma spells_caseless icase word text :
  forallb (fun c => 0x212A <? c)%N word = true ->
  spells icase word text <-> text = word.
Proof.
  intros Hword. unfold spells. split.
  - intros H. induction H as [|h c text word' Hh _ IH]; [done|].
    simpl in Hword. apply andb_true_iff in Hword as [Hc%N.ltb_lt Hword].
    rewrite (IH Hword). f_equal. destruct icase; [|done]. by apply foldCase_above.
  - intros ->. clear Hword. induction word; by constructor.
Qed.

Ltac spans :=
  lazymatch goal with
  | |- Spans _ (RSeq _ _) _ => apply Spans_seq; spans
  | |- Spans _ (RAlt _ _) _ => apply Spans_alt; spans
  | |- Spans _ (RLit _) _ => apply Spans_lit, below_check; by vm_compute
  | |- Spans _ (RStar _ (RSet _)) _ => apply Spans_star, isWhiteSpace_unit
  | |- Spans _ (RPlus (RSet _)) _ => apply Spans_plus, isWhiteSpace_unit
  end.

Lemma Spans_tooManyRequests :
  Spans true (RSeqs [RLit (lit "too"); RPlus whiteSpace; RLit (lit "many");
                     RPlus whiteSpace; RLit (lit "requests")]) tooManyRequests.
Proof.
  unfold whiteSpace. cbn [RSeqs]. eapply Spans_iff; [|spans].
  intros t. unfold tooManyRequests, whiteSpaces. split.
  - intros (t1 & ? & -> & ? & t2 & ? & -> & [? ?] & t3 & ? & -> & ? & t4 & t5 & -> & [? ?] & ?).
    by exists t1, t2, t3, t4, t5.
  - intros (t1 & t2 & t3 & t4 & t5 & -> & ? & ? & ? & ? & ? & ? & ?).
    exists t1, (t2 ++ t3 ++ t4 ++ t5). split; [done|]. split; [done|].
    exists t2, (t3 ++ t4 ++ t5). split; [done|]. split; [done|].
    exists t3, (t4 ++ t5). split; [done|]. split; [done|].
    by exists t4, t5.
Qed.

Lemma Spans_rateLimit :
  Spans true (RSeqs [RLit (lit "rate"); RStar true whiteSpace; RLit (lit "limit")]) rateLimit.
Proof.
  unfold whiteSpace. cbn [RSeqs]. eapply Spans_iff; [|spans].
  intros t. unfold rateLimit, whiteSpaces. split.
  - intros (t1 & ? & -> & ? & t2 & t3 & -> & ? & ?). by exists t1, t2, t3.
  - intros (t1 & t2 & t3 & -> & ? & ? & ?).
    exists t1, (t2 ++ t3). split; [done|]. split; [done|]. by exists t2, t3.
Qed.

Lemma Spans_tooMany :
  Spans true (RSeqs [RLit (lit "too"); RStar true whiteSpace; RLit (lit "many")]) tooMany.
Proof.
  unfold whiteSpace. cbn [RSeqs]. eapply Spans_iff; [|spans].
  intros t. unfold tooMany, whiteSpaces. split.
  - intros (t1 & ? & -> & ? & t2 & t3 & -> & ? & ?). by exists t1, t2, t3.
  - intros (t1 & t2 & t3 & -> & ? & ? & ?).
    exists t1, (t2 ++ t3). split; [done|]. split; [done|]. by exists t2, t3.
Qed.

(** The rate-limit pattern tests true exactly on the texts that mention
    "too many requests" or "rate limit". *)
Theorem test_rateLimitPattern snippet :
  test true rateLimitPattern snippet = true <-> mentionsRateLimit snippet.
Proof.
  unfold rateLimitPattern, mentionsRateLimit. apply test_Spans.
  - apply Spans_alt; [apply Spans_tooManyRequests|apply Spans_rateLimit].
  - intros t [(too & ? & ? & ? & ? & -> & Hs & _)|(rate & ? & ? & -> & Hs & _)];
      by apply (spells_first true _ _ _ Hs).
Qed.

(** The verification pattern tests true exactly on the texts that contain
    one of its three phrases. *)
Theorem test_verificationPattern message :
  test false verificationPattern message = true <-> mentionsVerification message.
Proof.
  unfold verificationPattern. cbn [RAlts fmap list_fmap].
  rewrite (test_Spans false _
    (fun t => spells false (lit "临时页面") t \/ spells false (lit "验证") t \/
              spells false (lit "验证码") t)).
  - unfold mentionsVerification, within. setoid_rewrite spells_exact. split.
    + intros (before & t & after & -> & Ht). exists t, before, after. split; [|done].
      rewrite !elem_of_cons. destruct Ht as [->|[->| ->]]; auto.
    + intros (needle & before & after & Hin & ->). exists before, needle, after.
      split; [done|]. rewrite !elem_of_cons, elem_of_nil in Hin. tauto.
  - spans.
  - intros t [Hs|[Hs|Hs]]; rewrite <- (app_nil_r t); by apply (spells_first false _ _ _ Hs).
Qed.

(** The frequency pattern tests true exactly on the texts that contain
    频繁 or 次数 or mention "rate limit" or "too many". *)
Theorem test_frequencyPattern message :
  test true frequencyPattern message = true <-> mentionsFrequency message.
Proof.
  unfold frequencyPattern. cbn [RAlts].
  rewrite (test_Spans true _
    (fun t => spells true (lit "频繁") t \/ spells true (lit "次数") t \/
              rateLimit t \/ tooMany t)).
  - unfold mentionsFrequency, within.
    split; intros (before & t & after & -> & Ht); exists before, t, after; (split; [done|]);
      rewrite 2!spells_caseless in * by (by vm_compute); done.
  - apply Spans_alt; [spans|]. apply Spans_alt; [spans|].
    apply Spans_alt; [apply Spans_rateLimit|apply Spans_tooMany].
  - intros t [Hs|[Hs|[(rate & ? & ? & -> & Hs & _)|(too & ? & ? & -> & Hs & _)]]];
      try (by apply (spells_first true _ _ _ Hs));
      rewrite <- (app_nil_r t); by apply (spells_first true _ _ _ Hs).
Qed.

End PatternFacts.
(** * Ranking *)

Section RankingFacts.
Import Ranking.
Context {U : Unicode} {Nm : Numeric}.

(** The order of the ranked list in words: higher score first; at equal
    score more downloads first; then the provider id ascending; then the
    candidate id ascending, both in the order of localeCompare. *)
Definition rankedBefore (a b : ScoredSubtitleResult) : Prop :=
  (s_score a > s_score b)%Z \/
  (s_score a = s_score b /\
   ((c_downloads (s_candidate a) > c_downloads (s_candidate b))%N \/
    (c_downloads (s_candidate a) = c_downloads (s_candidate b) /\
     ((localeCompare (c_providerId (s_candidate a)) (c_providerId (s_candidate b)) < 0)%Z \/
      (localeCompare (c_providerId (s_candidate a)) (c_providerId (s_candidate b)) = 0%Z /\
       (localeCompare (c_id (s_candidate a)) (c_id (s_candidate b)) <= 0)%Z))))).

Lemma compareScored_le a b : (compareScored a b <= 0)%Z <-> rankedBefore a b.
Proof.
  unfold compareScored, rankedBefore.
  destruct (Z.eqb_spec (s_score b) (s_score a)) as [Es|Es]; simpl; [|lia].
  destruct (N.eqb_spec (c_downloads (s_candidate b)) (c_downloads (s_candidate a))) as [Ed|Ed];
    simpl; [|lia].
  destruct (Z.eqb_spec (localeCompare (c_providerId (s_candidate a))
                                      (c_providerId (s_candidate b))) 0) as [Ep|Ep];
    simpl; lia.
Qed.

Lemma compareScored_tied a b :
  compareScored a b = 0%Z ->
  s_score a = s_score b /\
  c_downloads (s_candidate a) = c_downloads (s_candidate b) /\
  localeCompare (c_providerId (s_candidate a)) (c_providerId (s_candidate b)) = 0%Z /\
  localeCompare (c_id (s_candidate a)) (c_id (s_candidate b)) = 0%Z.
Proof.
  unfold compareScored.
  destruct (Z.eqb_spec (s_score b) (s_score a)) as [Es|Es]; simpl; [|lia].
  destruct (N.eqb_spec (c_downloads (s_candidate b)) (c_downloads (s_candidate a))) as [Ed|Ed];
    simpl; [|lia].
  destruct (Z.eqb_spec (localeCompare (c_providerId (s_candidate a))
                                      (c_providerId (s_candidate b))) 0) as [Ep|Ep];
    simpl; [|lia]. auto.
Qed.

Instance compareScored_consistent : Consistent compareScored.
Proof.
  split.
  - intros a b. unfold compareScored.
    pose proof (localeCompare_sgn (c_providerId (s_candidate a)) (c_providerId (s_candidate b))) as Hp.
    pose proof (localeCompare_sgn (c_id (s_candidate a)) (c_id (s_candidate b))) as Hi.
    destruct (Z.eqb_spec (s_score b) (s_score a)) as [Es|Es],
             (Z.eqb_spec (s_score a) (s_score b)) as [Es'|Es']; simpl; try congruence.
    2:{ rewrite <- Z.sgn_opp. f_equal. lia. }
    destruct (N.eqb_spec (c_downloads (s_candidate b)) (c_downloads (s_candidate a))) as [Ed|Ed],
             (N.eqb_spec (c_downloads (s_candidate a)) (c_downloads (s_candidate b))) as [Ed'|Ed'];
      simpl; try congruence.
    2:{ rewrite <- Z.sgn_opp. f_equal. lia. }
    destruct (Z.eqb_spec (localeCompare (c_providerId (s_candidate a))
                                        (c_providerId (s_candidate b))) 0) as [Ep|Ep],
             (Z.eqb_spec (localeCompare (c_providerId (s_candidate b))
                                        (c_providerId (s_candidate a))) 0) as [Ep'|Ep'];
      simpl; try done.
    + exfalso. apply Ep'. apply Z.sgn_null_iff. rewrite Hp, Ep. reflexivity.
    + exfalso. apply Ep. apply Z.sgn_null_iff.
      apply (f_equal Z.opp) in Hp. rewrite Z.opp_involutive in Hp.
      rewrite <- Hp, Ep'. reflexivity.
  - intros a b c. rewrite !compareScored_le. unfold rankedBefore.
    intros H1 H2.
    destruct H1 as [H1|[E1 H1]], H2 as [H2|[E2 H2]]; try (left; lia).
    right. split; [lia|].
    destruct H1 as [H1|[D1 H1]], H2 as [H2|[D2 H2]]; try (left; lia).
    right. split; [lia|].
    destruct H1 as [H1|[P1 H1]], H2 as [H2|[P2 H2]].
    + left. eapply (cmp_lt_le_trans localeCompare); eauto. lia.
    + left. eapply (cmp_lt_le_trans localeCompare); eauto. lia.
    + left. eapply (cmp_le_lt_trans localeCompare); eauto. lia.
    + right. split.
      * apply (tied_trans localeCompare _ _ _ P1 P2).
      * eapply localeCompare_trans; eauto.
Qed.

Lemma imap_withRank_candidates xs :
  r_candidate <$> imap withRank xs = s_candidate <$> xs.
Proof. rewrite fmap_imap. apply (imap_const s_candidate). Qed.

Lemma imap_withRank_scores xs :
  r_score <$> imap withRank xs = s_score <$> xs.
Proof. rewrite fmap_imap. apply (imap_const s_score). Qed.

Lemma imap_withRank_reasons xs :
  r_reasons <$> imap withRank xs = s_reasons <$> xs.
Proof. rewrite fmap_imap. apply (imap_const s_reasons). Qed.

Lemma imap_withRank_ranks xs :
  r_rank <$> imap withRank xs = (fun i => (Z.of_nat i + 1)%Z) <$> seq 0 (length xs).
Proof. rewrite fmap_imap. apply (imap_seq_0 xs (fun i => (Z.of_nat i + 1)%Z)). Qed.

Lemma StronglySorted_impl {A} (R S : A -> A -> Prop) l :
  (forall a b, R a b -> S a b) -> StronglySorted R l -> StronglySorted S l.
Proof.
  intros HRS. induction 1 as [|x l Hs IH Hall]; constructor; [done|].
  eapply Forall_impl; [exact Hall|]. auto.
Qed.

(** The names of the members of Object.prototype. *)
Definition prototypeNames : list jsstring :=
  [ lit "constructor"; lit "__defineGetter__"; lit "__defineSetter__";
    lit "hasOwnProperty"; lit "__lookupGetter__"; lit "__lookupSetter__";
    lit "isPrototypeOf"; lit "propertyIsEnumerable"; lit "toString";
    lit "valueOf"; lit "__proto__"; lit "toLocaleString" ].

(** What a call of toFixed on a value that has none throws. *)
Definition noToFixed : Thrown :=
  ThrowOther {| err_isError := true;
                err_name := lit "TypeError";
                err_message := lit "providerBoost.toFixed is not a function" |}.

Lemma lit_in_prototypeNames (name : jsstring) :
  bool_decide (name ∈ prototypeNames) = true -> name ∈ prototypeNames.
Proof. apply bool_decide_eq_true_1. Qed.

(** What the boost table reads under a provider id. *)
Lemma provider_boost_cases (providerId : jsstring) :
  match objectGet PROVIDER_PRIORITY_BOOST providerId with
  | Own boost => (boost == 12 \/ boost == 4)%Q /\ providerId ∉ prototypeNames
  | Inherited _ => providerId ∈ prototypeNames
  | Absent => providerId ∉ prototypeNames
  end.
Proof.
  unfold objectGet, PROVIDER_PRIORITY_BOOST, OBJECT_PROTOTYPE. cbn [ownProperty].
  repeat (case_bool_decide;
          [subst providerId;
           first [ apply lit_in_prototypeNames; by vm_compute
                 | split; [(by left) || (by right)|];
                   apply (bool_decide_eq_true_1 (_ ∉ _)); by vm_compute ]|]).
  intros Hin%list_elem_of_In. unfold prototypeNames in Hin. cbn [In] in Hin.
  repeat (destruct Hin as [E|Hin];
          [match type of E with
           | ?name = providerId =>
             match goal with H : name <> providerId |- _ => exact (H E) end
           end|]).
  exact Hin.
Qed.

(** The two ways a scoring ends. *)
Lemma score_shape request c :
  match objectGet PROVIDER_PRIORITY_BOOST (c_providerId c) with
  | Inherited _ => scoreSubtitleCandidate request c = inl noToFixed
  | _ =>
    exists score reasons,
      scoreSubtitleCandidate request c
      = inr {| s_candidate := c; s_score := score; s_reasons := reasons |}
  end.
Proof.
  unfold scoreSubtitleCandidate.
  destruct (objectGet PROVIDER_PRIORITY_BOOST (c_providerId c)) as [boost|m|];
    repeat match goal with
           | |- context [let '(_, _) := ?p in _] => destruct p
           | |- context [match (if ?b then _ else _) with _ => _ end] => destruct b
           end;
    try reflexivity; by eexists _, _.
Qed.

Lemma score_throws request c :
  c_providerId c ∈ prototypeNames -> scoreSubtitleCandidate request c = inl noToFixed.
Proof.
  intros Hname.
  pose proof (provider_boost_cases (c_providerId c)) as Hboost.
  pose proof (score_shape request c) as Hshape.
  destruct (objectGet PROVIDER_PRIORITY_BOOST (c_providerId c)) as [boost|m|];
    [by destruct Hboost|done|done].
Qed.

Lemma score_returns request c :
  c_providerId c ∉ prototypeNames -> exists s, scoreSubtitleCandidate request c = inr s.
Proof.
  intros Hname.
  pose proof (provider_boost_cases (c_providerId c)) as Hboost.
  pose proof (score_shape request c) as Hshape.
  destruct (objectGet PROVIDER_PRIORITY_BOOST (c_providerId c)) as [boost|m|]; [|done|];
    destruct Hshape as (score & reasons & ->); by eexists.
Qed.

Lemma score_inl request c error :
  scoreSubtitleCandidate request c = inl error ->
  error = noToFixed /\ c_providerId c ∈ prototypeNames.
Proof.
  intros Hrun. destruct (decide (c_providerId c ∈ prototypeNames)) as [Hname|Hname].
  - rewrite (score_throws request c Hname) in Hrun. by injection Hrun as <-.
  - destruct (score_returns request c Hname) as [s Hs]. congruence.
Qed.

Lemma score_candidate request c s :
  scoreSubtitleCandidate request c = inr s -> s_candidate s = c.
Proof.
  intros Hrun. pose proof (score_shape request c) as Hshape.
  destruct (objectGet PROVIDER_PRIORITY_BOOST (c_providerId c)) as [boost|m|];
    [|congruence|]; destruct Hshape as (score & reasons & Hs);
    rewrite Hs in Hrun; by injection Hrun as <-.
Qed.

(** Where no provider id names a member of the prototype every candidate is
    scored. *)
Lemma scores_return request candidates :
  Forall (fun c => c_providerId c ∉ prototypeNames) candidates ->
  exists scored,
    arrayMap (scoreSubtitleCandidate request) candidates = inr scored /\
    scored = omap (returnOf (scoreSubtitleCandidate request)) candidates /\
    Forall2 (fun c s => scoreSubtitleCandidate request c = inr s) candidates scored.
Proof.
  intros Hnames.
  assert (Hall : Forall (fun c => exists s, scoreSubtitleCandidate request c = inr s) candidates).
  { eapply Forall_impl; [exact Hnames|]. intros c. apply score_returns. }
  apply arrayMap_returns in Hall. eexists. split; [exact Hall|]. split; [done|].
  by apply arrayMap_inr.
Qed.

(** Where one does, the scoring throws. *)
Lemma scores_throw request candidates c :
  c ∈ candidates -> c_providerId c ∈ prototypeNames ->
  arrayMap (scoreSubtitleCandidate request) candidates = inl noToFixed.
Proof.
  intros Hc Hname.
  destruct (arrayMap (scoreSubtitleCandidate request) candidates) as [error|scored] eqn:Hrun.
  - apply arrayMap_inl in Hrun as (_ & x & _ & _ & Hx & _).
    apply score_inl in Hx as [-> _]. done.
  - apply arrayMap_inr in Hrun.
    apply list_elem_of_lookup in Hc as [i Hi].
    destruct (Forall2_lookup_l _ _ _ _ _ Hrun Hi) as (s & _ & Hs).
    rewrite (score_throws request c Hname) in Hs. done.
Qed.

Lemma scored_candidates request candidates scored :
  Forall2 (fun c s => scoreSubtitleCandidate request c = inr s) candidates scored ->
  s_candidate <$> scored = candidates.
Proof.
  induction 1 as [|c s candidates scored Hs _ IH]; [done|].
  rewrite fmap_cons, IH. by rewrite (score_candidate _ _ _ Hs).
Qed.

Lemma scored_ordered (scored : list ScoredSubtitleResult) :
  let ordered := sortBy compareScored scored in
  Permutation ordered scored /\ StronglySorted rankedBefore ordered.
Proof.
  split; [apply sortBy_Permutation; apply _|].
  eapply StronglySorted_impl; [|apply (sortBy_sorted compareScored)].
  intros a b. apply compareScored_le.
Qed.

(** C5 (amended). Where no provider id names a member of Object.prototype,
    every candidate is scored and the ranked output is the scored candidates
    in the order [rankedBefore]: score descending, then downloads descending,
    then provider id and then candidate id ascending in the order of the
    host's localeCompare, which is the collation of the locale and not the
    order of the code units. The list is cut to the limit by
    [slice(0, limit)], which keeps the first [limit] entries when the limit
    is not negative, and the ranks 1, 2, 3, ... are given after the cut.
    Where a provider id names such a member, the ranking throws the
    TypeError of the missing toFixed. *)
Theorem rank_sorted_truncated_numbered request candidates (limit : option Z) :
  (Forall (fun c => c_providerId c ∉ prototypeNames) candidates ->
   exists scored ordered,
     Forall2 (fun c s => scoreSubtitleCandidate request c = inr s) candidates scored /\
     Permutation ordered scored /\
     StronglySorted rankedBefore ordered /\
     rankSubtitleCandidates request candidates limit =
       inr (imap withRank
              (slice ordered 0
                 (Some (match limit with
                        | Some n => n
                        | None => Z.of_nat (length candidates)
                        end)))) /\
     (forall n, limit = Some n -> (0 <= n)%Z ->
        rankSubtitleCandidates request candidates limit
        = inr (imap withRank (take (Z.to_nat n) ordered))) /\
     (limit = None ->
        rankSubtitleCandidates request candidates limit = inr (imap withRank ordered))) /\
  (forall ranked,
     rankSubtitleCandidates request candidates limit = inr ranked ->
     r_rank <$> ranked = (fun i => (Z.of_nat i + 1)%Z) <$> seq 0 (length ranked)) /\
  (forall c, c ∈ candidates -> c_providerId c ∈ prototypeNames ->
     rankSubtitleCandidates request candidates limit = inl noToFixed).
Proof.
  split; [|split].
  - intros Hnames.
    destruct (scores_return request candidates Hnames) as (scored & Hrun & _ & Hscored).
    exists scored, (sortBy compareScored scored).
    destruct (scored_ordered scored) as [Hperm Hsorted].
    split; [exact Hscored|]. split; [exact Hperm|]. split; [exact Hsorted|].
    unfold rankSubtitleCandidates. rewrite Hrun. split; [reflexivity|]. split.
    + intros n -> Hn. by rewrite slice_prefix.
    + intros ->. rewrite slice_prefix by lia.
      rewrite firstn_all2; [done|].
      rewrite Nat2Z.id. apply Permutation_length in Hperm.
      rewrite Hperm. by rewrite (arrayMap_length _ _ _ Hrun).
  - intros ranked. unfold rankSubtitleCandidates.
    destruct (arrayMap _ candidates) as [error|scored]; [done|].
    intros [= <-]. by rewrite imap_withRank_ranks, length_imap.
  - intros c Hc Hname. unfold rankSubtitleCandidates.
    by rewrite (scores_throw request candidates c Hc Hname).
Qed.

Lemma rank_tied request candidates candidates' limit :
  Permutation candidates candidates' ->
  Forall (fun c => c_providerId c ∉ prototypeNames) candidates ->
  exists xs ys,
    rankSubtitleCandidates request candidates limit = inr (imap withRank xs) /\
    rankSubtitleCandidates request candidates' limit = inr (imap withRank ys) /\
    Forall2 (tied compareScored) xs ys /\
    Forall (fun s => s_candidate s ∈ candidates) xs /\
    Forall (fun s => s_candidate s ∈ candidates) ys.
Proof.
  intros Hperm Hnames.
  assert (Hnames' : Forall (fun c => c_providerId c ∉ prototypeNames) candidates')
    by (by rewrite <- Hperm).
  destruct (scores_return request candidates Hnames) as (scored & Hrun & Hscored & HF).
  destruct (scores_return request candidates' Hnames') as (scored' & Hrun' & Hscored' & HF').
  unfold rankSubtitleCandidates. rewrite Hrun, Hrun'.
  rewrite <- (Permutation_length Hperm).
  set (lim := Some _).
  exists (slice (sortBy compareScored scored) 0 lim),
         (slice (sortBy compareScored scored') 0 lim).
  split; [done|]. split; [done|].
  assert (Hin : forall cs ss,
            Forall2 (fun c s => scoreSubtitleCandidate request c = inr s) cs ss ->
            Forall (fun s => s_candidate s ∈ cs) ss).
  { intros cs ss H. apply scored_candidates in H. rewrite <- H.
    apply Forall_forall. intros s Hs. apply list_elem_of_fmap. by exists s. }
  split; [|split].
  - apply Forall2_slice. apply sortBy_Permutation_tied; [apply _|].
    rewrite Hscored, Hscored'. by apply omap_Permutation.
  - apply Forall_slice.
    eapply Permutation_Forall; [symmetry; apply sortBy_Permutation|]. by apply Hin.
  - apply Forall_slice.
    eapply Permutation_Forall; [symmetry; apply sortBy_Permutation|].
    eapply Forall_impl; [apply (Hin _ _ HF')|]. intros s Hs. simpl in Hs. by rewrite Hperm.
Qed.

(** Where the collation tells any two different ids of the list apart (and
    no provider id names a member of Object.prototype), ranking a list and
    ranking a permutation of it give the same candidate ids in the same
    order, the same scores and the same ranks. *)
Lemma rank_permutation_of_distinct_ids request candidates candidates' limit :
  Permutation candidates candidates' ->
  Forall (fun c => c_providerId c ∉ prototypeNames) candidates ->
  (forall a b, a ∈ candidates -> b ∈ candidates ->
     localeCompare (c_id a) (c_id b) = 0%Z -> c_id a = c_id b) ->
  exists ranked ranked',
    rankSubtitleCandidates request candidates limit = inr ranked /\
    rankSubtitleCandidates request candidates' limit = inr ranked' /\
    (fun r => c_id (r_candidate r)) <$> ranked = (fun r => c_id (r_candidate r)) <$> ranked' /\
    r_score <$> ranked = r_score <$> ranked' /\
    r_rank <$> ranked = r_rank <$> ranked'.
Proof.
  intros Hperm Hnames Hids.
  destruct (rank_tied request _ _ limit Hperm Hnames) as (xs & ys & Ex & Ey & HF & Hx & Hy).
  exists (imap withRank xs), (imap withRank ys).
  split; [exact Ex|]. split; [exact Ey|]. split; [|split].
  - rewrite !(list_fmap_compose r_candidate c_id (imap withRank _)).
    rewrite !imap_withRank_candidates, <- !list_fmap_compose.
    eapply (Forall2_tied_keys compareScored); [|exact HF|exact Hx|exact Hy].
    intros a b Ha Hb Hab. simpl. apply compareScored_tied in Hab.
    apply Hids; [done|done|]. apply Hab.
  - rewrite !imap_withRank_scores.
    eapply (Forall2_tied_keys compareScored _ (fun _ => True)); [|exact HF| |].
    + intros a b _ _ Hab. apply compareScored_tied in Hab. apply Hab.
    + by apply Forall_forall.
    + by apply Forall_forall.
  - rewrite !imap_withRank_ranks. by rewrite (Forall2_length _ _ _ HF).
Qed.

End RankingFacts.
(** * Ranking over the heap *)

Section RankingHeapFacts.
Import Ranking.
Context {U : Unicode} {Nm : Numeric}.

(** The heap holds the candidate [c] at [l]. *)
Definition candidateAt (h : list object) (l : nat) (c : ProviderSubtitleResult) : Prop :=
  h !! l = Some (OCandidate c).

(** The heap holds the scored record [s] at [l], and neither it nor its
    reasons array is among the first [n] objects. *)
Definition scoredAt (n : nat) (h : list object) (l : nat) (s : ScoredSubtitleResult) : Prop :=
  exists rl, n <= l /\ n <= rl /\
    h !! l = Some (OScored (s_candidate s) (s_score s) rl) /\
    h !! rl = Some (OStrings (s_reasons s)).

(** The same for a ranked record. *)
Definition rankedAt (n : nat) (h : list object) (l : nat) (r : RankedSubtitleResult) : Prop :=
  exists rl, n <= l /\ n <= rl /\
    h !! l = Some (ORanked (r_candidate r) (r_score r) rl (r_rank r)) /\
    h !! rl = Some (OStrings (r_reasons r)).

Lemma scoredAt_app n h ext l s : scoredAt n h l s -> scoredAt n (h ++ ext) l s.
Proof.
  intros (rl & ? & ? & H1 & H2). exists rl.
  repeat split; try done; by apply lookup_app_l_Some.
Qed.

Lemma rankedAt_app n h ext l r : rankedAt n h l r -> rankedAt n (h ++ ext) l r.
Proof.
  intros (rl & ? & ? & H1 & H2). exists rl.
  repeat split; try done; by apply lookup_app_l_Some.
Qed.

Lemma scoredAt_write n h k old new l s :
  h !! k = Some (OArray old) -> scoredAt n h l s -> scoredAt n (<[k := OArray new]> h) l s.
Proof.
  intros Hk (rl & ? & ? & H1 & H2). exists rl.
  repeat split; try done; rewrite list_lookup_insert_ne; try done; congruence.
Qed.

Lemma run_read h l o : h !! l = Some o -> read l h = (inr o, h).
Proof. intros H. unfold read. by rewrite H. Qed.

Lemma run_readArray h l items : h !! l = Some (OArray items) -> readArray l h = (inr items, h).
Proof. intros H. unfold readArray, bind. by rewrite (run_read _ _ _ H). Qed.

Lemma run_score request h l c s :
  candidateAt h l c ->
  scoreSubtitleCandidate request c = inr s ->
  scoreSubtitleCandidateH request l h
  = (inr (S (length h)),
     h ++ [OStrings (s_reasons s); OScored c (s_score s) (length h)]).
Proof.
  intros H Hs. unfold scoreSubtitleCandidateH, bind. rewrite (run_read _ _ _ H), Hs.
  unfold alloc. rewrite length_app, <- app_assoc. simpl. do 2 f_equal. lia.
Qed.

Lemma run_score_throws request h l c error :
  candidateAt h l c ->
  scoreSubtitleCandidate request c = inl error ->
  scoreSubtitleCandidateH request l h = (inl (Raised error), h).
Proof.
  intros H Hs. unfold scoreSubtitleCandidateH, bind. by rewrite (run_read _ _ _ H), Hs.
Qed.

Lemma run_mapM_score request n h items cands scored :
  Forall2 (candidateAt h) items cands -> n <= length h ->
  Forall2 (fun c s => scoreSubtitleCandidate request c = inr s) cands scored ->
  exists locs ext,
    mapM (scoreSubtitleCandidateH request) items h = (inr locs, h ++ ext) /\
    Forall2 (scoredAt n (h ++ ext)) locs scored.
Proof.
  intros HF Hn Hscored. revert items h HF Hn.
  induction Hscored as [|c s cands scored Hs _ IH]; intros items h HF Hn.
  - inversion HF; subst. exists [], []. rewrite app_nil_r. split; [done|constructor].
  - inversion HF as [|l ? items' ? Hl HF']; subst. simpl.
    set (h1 := h ++ [OStrings (s_reasons s); OScored c (s_score s) (length h)]).
    destruct (IH items' h1) as (locs & ext & Hrun & Hall).
    { eapply Forall2_impl; [exact HF'|]. intros ? ? ?. by apply lookup_app_l_Some. }
    { unfold h1. rewrite length_app. lia. }
    exists (S (length h) :: locs), ([OStrings (s_reasons s); OScored c (s_score s) (length h)] ++ ext).
    unfold bind. rewrite (run_score _ _ _ _ _ Hl Hs). fold h1. rewrite Hrun.
    unfold h1 in *. rewrite <- !app_assoc in *. split; [done|].
    constructor; [|exact Hall].
    exists (length h). rewrite (score_candidate _ _ _ Hs).
    split; [lia|]. split; [lia|]. split.
    + change (h ++ [?a; ?b] ++ ext) with (h ++ [a] ++ b :: ext).
      rewrite app_assoc. apply list_lookup_middle. rewrite length_app. simpl. lia.
    + by apply list_lookup_middle.
Qed.

(** The scoring that throws leaves the heap it found, followed by the
    records of the candidates scored before. *)
Lemma run_mapM_score_throws request h items cands error :
  Forall2 (candidateAt h) items cands ->
  arrayMap (scoreSubtitleCandidate request) cands = inl error ->
  exists ext,
    mapM (scoreSubtitleCandidateH request) items h = (inl (Raised error), h ++ ext).
Proof.
  intros HF. revert h items HF. induction cands as [|c cands IH]; intros h items HF; [done|].
  inversion HF as [|l ? items' ? Hl HF']; subst. simpl.
  destruct (scoreSubtitleCandidate request c) as [e|s] eqn:Hs.
  - intros [= <-]. exists []. rewrite app_nil_r.
    unfold bind. by rewrite (run_score_throws _ _ _ _ _ Hl Hs).
  - destruct (arrayMap (scoreSubtitleCandidate request) cands) as [e|ss] eqn:Hrest; [|done].
    intros [= <-].
    set (h1 := h ++ [OStrings (s_reasons s); OScored c (s_score s) (length h)]).
    destruct (IH h1 items') as (ext & Hrun); [|done|].
    { eapply Forall2_impl; [exact HF'|]. intros ? ? ?. by apply lookup_app_l_Some. }
    exists ([OStrings (s_reasons s); OScored c (s_score s) (length h)] ++ ext).
    unfold bind. rewrite (run_score _ _ _ _ _ Hl Hs). fold h1. rewrite Hrun.
    unfold h1. by rewrite <- app_assoc.
Qed.

Lemma run_readScored n h l s : scoredAt n h l s -> readScored l h = (inr s, h).
Proof.
  intros (rl & _ & _ & H1 & H2). unfold readScored, bind.
  rewrite (run_read _ _ _ H1), (run_read _ _ _ H2). by destruct s.
Qed.

Lemma run_mapM_views n h locs ss :
  Forall2 (scoredAt n h) locs ss ->
  mapM (fun l => (s <- readScored l ;; ret (l, s))%eff) locs h = (inr (zip locs ss), h).
Proof.
  induction 1 as [|l s locs ss Hl HF IH]; simpl; [done|].
  rewrite (bind_run _ _ h (l, s) h).
  - by rewrite (bind_run _ _ _ _ _ IH).
  - by rewrite (bind_run _ _ _ _ _ (run_readScored _ _ _ _ Hl)).
Qed.

Lemma insertBy_fmap {A B} (f : A -> B) (cmp : B -> B -> Z) x l :
  f <$> insertBy (fun a b => cmp (f a) (f b)) x l = insertBy cmp (f x) (f <$> l).
Proof.
  induction l as [|y l IH]; simpl; [done|].
  destruct (cmp (f x) (f y) <=? 0)%Z; simpl; [done|]. f_equal. apply IH.
Qed.

Lemma sortBy_fmap {A B} (f : A -> B) (cmp : B -> B -> Z) l :
  f <$> sortBy (fun a b => cmp (f a) (f b)) l = sortBy cmp (f <$> l).
Proof.
  induction l as [|x l IH]; simpl; [done|].
  rewrite insertBy_fmap. f_equal. apply IH.
Qed.

Lemma Forall_pairs_Forall2 {A B} (R : A -> B -> Prop) (l : list (A * B)) :
  Forall (fun p => R (fst p) (snd p)) l -> Forall2 R (fst <$> l) (snd <$> l).
Proof. induction 1; simpl; constructor; auto. Qed.

Lemma Forall2_zip_pairs {A B} (R : A -> B -> Prop) xs ys :
  Forall2 R xs ys -> Forall (fun p => R (fst p) (snd p)) (zip xs ys).
Proof. induction 1; simpl; constructor; auto. Qed.

(** After [scored.sort] the array holds the references of the scored
    records in the order of the pure sort. *)
Lemma sorted_views n h locs ss :
  Forall2 (scoredAt n h) locs ss ->
  Forall2 (scoredAt n h)
    (fst <$> sortBy (fun a b => compareScored (snd a) (snd b)) (zip locs ss))
    (sortBy compareScored ss).
Proof.
  intros HF.
  rewrite <- (snd_zip locs ss) at 2 by (by rewrite (Forall2_length _ _ _ HF)).
  rewrite <- (sortBy_fmap snd compareScored).
  apply Forall_pairs_Forall2.
  eapply Permutation_Forall; [symmetry; apply sortBy_Permutation|].
  by apply Forall2_zip_pairs.
Qed.

Lemma run_withRank n h i l s :
  scoredAt n h l s -> n <= length h ->
  withRankH (i, l) h = (inr (length h), h ++ [ORanked (s_candidate s) (s_score s)
    match h !! l with Some (OScored _ _ rl) => rl | _ => 0 end (Z.of_nat i + 1)]) /\
  rankedAt n (h ++ [ORanked (s_candidate s) (s_score s)
    match h !! l with Some (OScored _ _ rl) => rl | _ => 0 end (Z.of_nat i + 1)])
    (length h) (withRank i s).
Proof.
  intros (rl & Hl & Hrl & H1 & H2) Hn. unfold withRankH, bind. simpl.
  rewrite (run_read _ _ _ H1). rewrite H1. split; [done|].
  exists rl. split; [done|]. split; [done|]. split.
  - by apply list_lookup_middle.
  - by apply lookup_app_l_Some.
Qed.

Lemma run_mapM_withRank n h locs ss (f : nat -> nat) :
  Forall2 (scoredAt n h) locs ss -> n <= length h ->
  exists ext,
    mapM withRankH (imap (fun i l => (f i, l)) locs) h
    = (inr (seq (length h) (length locs)), h ++ ext) /\
    Forall2 (rankedAt n (h ++ ext)) (seq (length h) (length locs))
            (imap (fun i s => withRank (f i) s) ss).
Proof.
  revert locs h f. induction ss as [|s ss IH]; intros locs h f HF Hn.
  - inversion HF; subst. exists []. rewrite app_nil_r. split; [done|constructor].
  - inversion HF as [|l ? locs' ? Hl HF']; subst. simpl.
    destruct (run_withRank n h (f 0%nat) l s Hl Hn) as [Hrun Hat].
    set (o := ORanked _ _ _ _) in *.
    destruct (IH locs' (h ++ [o]) (f ∘ S)) as (ext & Hrun' & Hall).
    { eapply Forall2_impl; [exact HF'|]. intros ? ? ?. by apply scoredAt_app. }
    { rewrite length_app. lia. }
    exists (o :: ext). unfold bind at 1. rewrite Hrun.
    unfold bind at 1. unfold compose in Hrun'. unfold compose.
    rewrite Hrun'. unfold ret. rewrite <- app_assoc. simpl.
    rewrite length_app, Nat.add_1_r in *. split; [done|].
    rewrite <- app_assoc in Hall. simpl in Hall.
    constructor; [|exact Hall].
    change (h ++ o :: ext) with (h ++ [o] ++ ext). rewrite app_assoc.
    by apply rankedAt_app.
Qed.

(** C10. Ranking leaves every object of the heap it was called on as it was,
    whether it returns or throws: the heap afterwards is the old heap
    followed by new objects, so the candidates array holds the same
    references and every candidate record the same fields. When it returns,
    the result array and every ranked record in it are new objects, and each
    record carries the fields of one of the candidates together with the
    score, reasons and rank of the pure function. It throws, the TypeError
    of the missing toFixed, only where a provider id names a member of
    Object.prototype. *)
Theorem rank_does_not_mutate request h candidates items cands limit :
  h !! candidates = Some (OArray items) ->
  Forall2 (candidateAt h) items cands ->
  exists outcome ext,
    rankSubtitleCandidatesH request candidates limit h = (outcome, h ++ ext) /\
    (h ++ ext) !! candidates = Some (OArray items) /\
    Forall2 (candidateAt (h ++ ext)) items cands /\
    match outcome with
    | inr result =>
      exists rankedItems ranked,
        rankSubtitleCandidates request cands limit = inr ranked /\
        (h ++ ext) !! result = Some (OArray rankedItems) /\
        length h <= result /\
        NoDup rankedItems /\
        Forall2 (rankedAt (length h) (h ++ ext)) rankedItems ranked /\
        Forall (fun r => r_candidate r ∈ cands) ranked
    | inl error =>
      error = Raised noToFixed /\
      rankSubtitleCandidates request cands limit = inl noToFixed /\
      Exists (fun c => c_providerId c ∈ prototypeNames) cands
    end.
Proof.
  intros Harr Hcands.
  assert (Hframe : forall ext,
            (h ++ ext) !! candidates = Some (OArray items) /\
            Forall2 (candidateAt (h ++ ext)) items cands).
  { intros ext. split; [by apply lookup_app_l_Some|].
    eapply Forall2_impl; [exact Hcands|]. intros ? ? ?. by apply lookup_app_l_Some. }
  unfold rankSubtitleCandidatesH, bind at 1. rewrite (run_readArray _ _ _ Harr).
  destruct (arrayMap (scoreSubtitleCandidate request) cands) as [error|scored] eqn:Hpure.
  { destruct (run_mapM_score_throws request h items cands error Hcands Hpure) as (ext & Hrun).
    unfold bind at 1. rewrite Hrun.
    exists (inl (Raised error)), ext. split; [done|].
    destruct (Hframe ext) as [H1 H2]. split; [exact H1|]. split; [exact H2|].
    apply arrayMap_inl in Hpure as (before & c & after & -> & Hc & _).
    apply score_inl in Hc as [-> Hname].
    split; [done|]. split.
    - unfold rankSubtitleCandidates.
      rewrite (scores_throw request _ c); [done| |done].
      apply elem_of_app. right. apply list_elem_of_here.
    - apply Exists_exists. exists c. split; [|done].
      apply elem_of_app. right. apply list_elem_of_here. }
  pose proof (proj1 (arrayMap_inr _ _ _) Hpure) as Hscored.
  destruct (run_mapM_score request (length h) h items cands scored Hcands (le_n _) Hscored)
    as (scoredItems & ext1 & Hrun1 & Hall1).
  unfold bind at 1. rewrite Hrun1.
  set (h1 := h ++ ext1) in *.
  unfold bind at 1. unfold alloc at 1.
  set (h2 := h1 ++ [OArray scoredItems]).
  assert (HscoredArr : h2 !! length h1 = Some (OArray scoredItems))
    by (by apply list_lookup_middle).
  assert (Hall2 : Forall2 (scoredAt (length h) h2) scoredItems scored).
  { eapply Forall2_impl; [exact Hall1|]. intros ? ? ?. by apply scoredAt_app. }
  unfold bind at 1. unfold sortInPlace, bind at 1.
  rewrite (run_readArray _ _ _ HscoredArr).
  unfold bind at 1. rewrite (run_mapM_views _ _ _ _ Hall2).
  unfold write.
  set (sortedLocs := fst <$> sortBy _ _).
  set (h3 := <[length h1 := OArray sortedLocs]> h2).
  assert (Eh3 : h3 = h1 ++ [OArray sortedLocs]).
  { unfold h3, h2. rewrite insert_app_r_alt by lia. by rewrite Nat.sub_diag. }
  assert (Hall3 : Forall2 (scoredAt (length h) h3) sortedLocs (sortBy compareScored scored)).
  { eapply Forall2_impl; [apply (sorted_views _ _ _ _ Hall2)|].
    intros ? ? ?. by eapply scoredAt_write. }
  assert (Hsorted : h3 !! length h1 = Some (OArray sortedLocs)).
  { rewrite Eh3. by apply list_lookup_middle. }
  unfold bind at 1. rewrite (run_readArray _ _ _ Hsorted).
  unfold bind at 1. unfold alloc at 1.
  set (lim := Some _).
  set (h4 := h3 ++ [OArray (slice sortedLocs 0 lim)]).
  assert (Hsliced : h4 !! length h3 = Some (OArray (slice sortedLocs 0 lim)))
    by (by apply list_lookup_middle).
  unfold bind at 1. rewrite (run_readArray _ _ _ Hsliced).
  assert (Hall4 : Forall2 (scoredAt (length h) h4) (slice sortedLocs 0 lim)
    (slice (sortBy compareScored scored) 0 lim)).
  { apply Forall2_slice. eapply Forall2_impl; [exact Hall3|].
    intros ? ? ?. by apply scoredAt_app. }
  assert (Hlen4 : length h <= length h4).
  { unfold h4. rewrite Eh3. unfold h1. rewrite !length_app. lia. }
  destruct (run_mapM_withRank _ _ _ _ (fun i => i) Hall4 Hlen4) as (ext5 & Hrun5 & Hall5).
  rewrite (bind_run _ _ _ _ _ Hrun5). unfold alloc.
  set (rankedItems := seq _ _) in *.
  exists (inr (length (h4 ++ ext5))),
         (ext1 ++ [OArray sortedLocs] ++ [OArray (slice sortedLocs 0 lim)] ++ ext5
            ++ [OArray rankedItems]).
  assert (Efinal : (h4 ++ ext5) ++ [OArray rankedItems]
     = h ++ ext1 ++ [OArray sortedLocs] ++ [OArray (slice sortedLocs 0 lim)] ++ ext5
         ++ [OArray rankedItems]).
  { unfold h4. rewrite Eh3. unfold h1. by rewrite <- !app_assoc. }
  rewrite <- Efinal.
  split; [done|].
  destruct (Hframe (ext1 ++ [OArray sortedLocs] ++ [OArray (slice sortedLocs 0 lim)] ++ ext5
                      ++ [OArray rankedItems])) as [H1 H2].
  rewrite <- Efinal in H1, H2. split; [exact H1|]. split; [exact H2|].
  assert (Elim : lim = Some (match limit with
                             | Some n => n
                             | None => Z.of_nat (length cands)
                             end)).
  { unfold lim. by rewrite (Forall2_length _ _ _ Hcands). }
  exists rankedItems, (imap withRank (slice (sortBy compareScored scored) 0 lim)).
  split; [|split; [|split; [|split; [|split]]]].
  - unfold rankSubtitleCandidates. by rewrite Hpure, Elim.
  - by apply list_lookup_middle.
  - rewrite length_app. lia.
  - apply NoDup_seq.
  - eapply Forall2_impl; [exact Hall5|]. intros ? ? ?. by apply rankedAt_app.
  - apply Forall_forall. intros r Hr.
    apply elem_of_lookup_imap in Hr as (i & s & -> & Hs). simpl.
    apply list_elem_of_lookup_2 in Hs.
    assert (Hall : Forall (fun s => s_candidate s ∈ cands)
                          (slice (sortBy compareScored scored) 0 lim)).
    { apply Forall_slice.
      eapply Permutation_Forall; [symmetry; apply sortBy_Permutation|].
      rewrite <- (scored_candidates _ _ _ Hscored).
      apply Forall_forall. intros s' Hs'. apply list_elem_of_fmap. by exists s'. }
    by apply (proj1 (Forall_forall _ _) Hall).
Qed.

End RankingHeapFacts.
(** * Request normalisation *)

Section NormalizationFacts.
Import RequestNormalization.
Context {U : Unicode}.

Lemma setAdd_NoDup {A} `{EqDecision A} (s : list A) x : NoDup s -> NoDup (setAdd s x).
Proof.
  intros Hs. unfold setAdd. case_bool_decide as Hx; [done|].
  apply NoDup_app. split; [done|]. split.
  - intros y Hy ->%list_elem_of_singleton. done.
  - apply NoDup_singleton.
Qed.

Lemma elem_of_setAdd {A} `{EqDecision A} (s : list A) x y :
  y ∈ setAdd s x <-> y ∈ s \/ y = x.
Proof.
  unfold setAdd. case_bool_decide as Hx.
  - split; [by left|]. intros [?| ->]; done.
  - rewrite elem_of_app, list_elem_of_singleton. done.
Qed.

(** One step of the loop of [normalizeLanguages]. *)
Definition addLanguage (deduped : list LanguageValue) (value : jsstring)
  : list LanguageValue :=
  let normalized := normalizeLanguage value in
  if hasLength normalized then setAdd deduped normalized else deduped.

Lemma fold_addLanguage_NoDup values acc :
  NoDup acc -> NoDup (fold_left addLanguage values acc).
Proof.
  revert acc. induction values as [|v values IH]; intros acc Hacc; simpl; [done|].
  apply IH. unfold addLanguage. case_match; [by apply setAdd_NoDup|done].
Qed.

Lemma elem_of_fold_addLanguage values acc x :
  x ∈ fold_left addLanguage values acc <->
  x ∈ acc \/ exists v, v ∈ values /\ normalizeLanguage v = x /\ hasLength x = true.
Proof.
  revert acc. induction values as [|v values IH]; intros acc; simpl.
  - split; [by left|]. intros [?|(v & Hv & _)]; [done|]. by apply elem_of_nil in Hv.
  - rewrite IH. unfold addLanguage.
    destruct (hasLength (normalizeLanguage v)) eqn:Hlen.
    + rewrite elem_of_setAdd. split.
      * intros [[?| ->]|(w & Hw & E & L)].
        -- by left.
        -- right. exists v. split; [apply list_elem_of_here|done].
        -- right. exists w. split; [by apply list_elem_of_further|done].
      * intros [?|(w & Hw & E & L)]; [by left; left|].
        apply elem_of_cons in Hw as [->|Hw].
        -- left. by right.
        -- right. by exists w.
    + split.
      * intros [?|(w & Hw & E & L)]; [by left|].
        right. exists w. split; [by apply list_elem_of_further|done].
      * intros [?|(w & Hw & E & L)]; [by left|].
        apply elem_of_cons in Hw as [->|Hw].
        -- subst x. congruence.
        -- right. by exists w.
Qed.

Lemma normalizeLanguages_NoDup values : NoDup (normalizeLanguages values).
Proof. apply (fold_addLanguage_NoDup values []). constructor. Qed.

Lemma elem_of_normalizeLanguages values x :
  x ∈ normalizeLanguages values <->
  exists v, v ∈ values /\ normalizeLanguage v = x /\ hasLength x = true.
Proof.
  unfold normalizeLanguages.
  rewrite (elem_of_fold_addLanguage values [] x). split.
  - intros [H|H]; [by apply elem_of_nil in H|done].
  - by right.
Qed.

(** The preference list of a permuted input has the same values, in an order
    that follows the input. *)
Lemma normalizeLanguages_Permutation values values' :
  Permutation values values' ->
  Permutation (normalizeLanguages values) (normalizeLanguages values').
Proof.
  intros Hperm. apply NoDup_Permutation; try apply normalizeLanguages_NoDup.
  intros x. rewrite !elem_of_normalizeLanguages.
  split; intros (v & Hv & ?); exists v; (split; [|done]).
  - by rewrite <- Hperm.
  - by rewrite Hperm.
Qed.

Lemma languageTags_Some values tags :
  languageTags values = Some tags <-> values = LanguageTag <$> tags.
Proof.
  revert tags. induction values as [|[tag|m] values IH]; intros tags; simpl.
  - split; [by intros [= <-]|]. by destruct tags.
  - destruct (languageTags values) as [rest|].
    + split.
      * intros [= <-]. simpl. f_equal. by apply IH.
      * destruct tags as [|t tags]; [done|]. intros [= -> H]. apply IH in H. congruence.
    + split; [done|]. destruct tags as [|t tags]; [done|].
      intros [= -> H]. by apply IH in H.
  - split; [done|]. by destruct tags.
Qed.

Lemma languageTags_Permutation values values' tags :
  Permutation values values' -> languageTags values = Some tags ->
  exists tags', languageTags values' = Some tags' /\ Permutation tags tags'.
Proof.
  intros Hperm. revert tags.
  induction Hperm as [|x l l' _ IH|x y l|l l' l'' _ IH1 _ IH2]; intros tags; simpl.
  - intros [= <-]. by exists [].
  - destruct x as [tag|m]; [|done].
    destruct (languageTags l) as [rest|]; [|done]. intros [= <-].
    destruct (IH rest eq_refl) as (rest' & -> & Hrest). exists (tag :: rest').
    split; [done|]. by constructor.
  - destruct x as [tx|mx], y as [ty|my]; try done;
      destruct (languageTags l) as [rest|]; try done.
    intros [= <-]. exists (tx :: ty :: rest). split; [done|]. apply perm_swap.
  - intros H. destruct (IH1 _ H) as (tags' & H' & Hp).
    destruct (IH2 _ H') as (tags'' & H'' & Hp'). exists tags''.
    split; [done|]. by etransitivity.
Qed.

Definition withLanguages (input : SubtitleRequestInput) (languages : list jsstring)
  : SubtitleRequestInput :=
  {| in_query := in_query input;
     in_year := in_year input;
     in_season := in_season input;
     in_episode := in_episode input;
     in_languages := Some languages |}.

(** Where every preference is a string and the collation tells any two
    different codes of the request apart, the fingerprint is the same for
    every permutation of the language list: it joins with a vertical bar the
    lower-cased collapsed query, the year, season and episode (each empty
    when absent) and the canonical language codes, deduplicated, sorted by
    localeCompare and joined by commas. *)
Lemma fingerprint_of_separated_codes input languages languages' tags :
  Permutation languages languages' ->
  languageTags (normalizeLanguages languages) = Some tags ->
  (forall a b, a ∈ tags -> b ∈ tags -> localeCompare a b = 0%Z -> a = b) ->
  exists request request',
    normalizeSubtitleRequest (withLanguages input languages) = Normalized request /\
    normalizeSubtitleRequest (withLanguages input languages') = Normalized request' /\
    fingerprint request' = fingerprint request /\
    fingerprint request
      = join (lit "|")
          [ toLowerCase (collapseWhitespace (in_query input));
            stringOrEmpty (in_year input);
            stringOrEmpty (in_season input);
            stringOrEmpty (in_episode input);
            join (lit ",") (sortBy localeCompare tags) ] /\
    NoDup tags.
Proof.
  intros Hperm Htags Hsep.
  destruct (languageTags_Permutation _ _ _ (normalizeLanguages_Permutation _ _ Hperm) Htags)
    as (tags' & Htags' & Hp).
  unfold normalizeSubtitleRequest, withLanguages. cbn [in_languages in_query in_year in_season in_episode].
  rewrite Htags, Htags'. eexists _, _. split; [reflexivity|]. split; [reflexivity|].
  cbn [fingerprint].
  assert (Esorted : sortBy localeCompare tags' = sortBy localeCompare tags).
  { pose proof (sortBy_Permutation_tied localeCompare _ _ Hp) as HF.
    rewrite <- (list_fmap_id (sortBy localeCompare tags')).
    rewrite <- (list_fmap_id (sortBy localeCompare tags)).
    symmetry.
    eapply (Forall2_tied_keys localeCompare id (fun x => x ∈ tags)); [|exact HF| |].
    + intros a b Ha Hb Hab. by apply Hsep.
    + apply Forall_forall. intros x Hx. by rewrite <- (sortBy_Permutation localeCompare).
    + apply Forall_forall. intros x Hx.
      rewrite Hp. by rewrite <- (sortBy_Permutation localeCompare). }
  rewrite Esorted. split; [done|]. split; [done|].
  apply languageTags_Some in Htags.
  pose proof (normalizeLanguages_NoDup languages) as Hnd. rewrite Htags in Hnd.
  by apply NoDup_fmap_1 in Hnd.
Qed.

End NormalizationFacts.
(** * Upstream client *)

Section ClientFacts.
Import UpstreamClient.
Context {U : Unicode} {Wb : Web} {W : Type} (this : Client W).

(** The state after the transport has been called once more. *)
Definition afterFetch (st : ClientState W) (url : URL) (options : UpstreamRequestOptions)
  : ClientState W :=
  let request := buildRequest this (cookieJar st) url options in
  {| cookieJar := cookieJar st;
     world := snd (fetchImpl this request (world st));
     sleeps := sleeps st;
     exchanges := exchanges st ++
       [Build_Exchange options request (fst (fetchImpl this request (world st)))] |}.

(** The error an unsuccessful attempt is classified as. *)
Definition failureOf (url : URL) (result : FetchResult) : CliAppError :=
  match result with
  | Fulfilled response =>
    classifyResponseError (providerId this) url (resp_status response) (readSnippet response)
  | Rejected e => mapFetchError e (providerId this) url (timeoutMs this)
  end.




Lemma attemptOnce_run url options maxAttempts attempt st :
  let request := buildRequest this (cookieJar st) url options in
  let result := fst (fetchImpl this request (world st)) in
  let st1 := afterFetch st url options in
  attemptOnce this url options maxAttempts attempt st =
  match result with
  | Fulfilled response =>
    let st2 := snd (mergeResponseCookies this url (resp_headers response) st1) in
    if resp_ok response then (inr (Return response), st2)
    else if (attempt <? maxAttempts)%Z
            && bool_decide (resp_status response ∈ RETRYABLE_STATUS)
    then (inr Continue,
          snd (sleep (computeBackoff (backoffMs this) (maxBackoffMs this) attempt) st2))
    else (inl (ThrowApp (failureOf url result)), st2)
  | Rejected e =>
    if (attempt <? maxAttempts)%Z
       && (bool_decide (code (failureOf url result) = E_UPSTREAM_NETWORK)
           || bool_decide (code (failureOf url result) = E_UPSTREAM_TIMEOUT))
    then (inr Continue,
          snd (sleep (computeBackoff (backoffMs this) (maxBackoffMs this) attempt) st1))
    else (inl (ThrowApp (failureOf url result)), st1)
  end.
Proof.
  intros request result st1. subst result st1. unfold afterFetch. fold request.
  unfold attemptOnce, tryCatch, bind, fetchWithTimeout. fold request.
  destruct (fetchImpl this request (world st)) as [[response|e] w]; simpl.
  - unfold mergeResponseCookies.
    destruct (negb (str_eqb (origin url) (baseOrigin this))); simpl;
      destruct (resp_ok response); simpl; try reflexivity;
      destruct ((attempt <? maxAttempts)%Z
                && bool_decide (resp_status response ∈ RETRYABLE_STATUS)); simpl;
      try reflexivity; rewrite andb_false_r; reflexivity.
  - destruct ((attempt <? maxAttempts)%Z &&
              (bool_decide (code (mapFetchError e (providerId this) url (timeoutMs this))
                            = E_UPSTREAM_NETWORK)
               || bool_decide (code (mapFetchError e (providerId this) url (timeoutMs this))
                               = E_UPSTREAM_TIMEOUT))); reflexivity.
Qed.

Lemma exchanges_merge url headers st :
  exchanges (snd (mergeResponseCookies this url headers st)) = exchanges st.
Proof. unfold mergeResponseCookies. by destruct (negb _). Qed.

Lemma exchanges_sleep ms (st : ClientState W) :
  exchanges (snd (sleep ms st)) = exchanges st.
Proof. reflexivity. Qed.

Lemma sleeps_merge url headers st :
  sleeps (snd (mergeResponseCookies this url headers st)) = sleeps st.
Proof. unfold mergeResponseCookies. by destruct (negb _). Qed.

Lemma exchanges_afterFetch st url options :
  exchanges (afterFetch st url options) =
  exchanges st ++
    [Build_Exchange options (buildRequest this (cookieJar st) url options)
       (fst (fetchImpl this (buildRequest this (cookieJar st) url options) (world st)))].
Proof. reflexivity. Qed.

Lemma requestLoop_S turns url options maxAttempts attempt st :
  requestLoop this (S turns) url options maxAttempts attempt st =
  if (attempt <? maxAttempts)%Z then
    match attemptOnce this url options maxAttempts (attempt + 1) st with
    | (inr (Return response), st') => (inr response, st')
    | (inr Continue, st') =>
      requestLoop this turns url options maxAttempts (attempt + 1) st'
    | (inl e, st') => (inl e, st')
    end
  else (inl (ThrowApp (unknownError this url)), st).
Proof.
  cbn [requestLoop]. destruct (attempt <? maxAttempts)%Z; [|reflexivity].
  unfold bind. destruct (attemptOnce _ _ _ _ _ _) as [[e|[r|]] st']; reflexivity.
Qed.


(** The loop when the first response is unsuccessful with a status that is
    not in the retriable set: one call, no sleep, the classified error. *)
Lemma requestLoop_not_retriable url options maxAttempts turns attempt st response :
  (attempt < maxAttempts)%Z ->
  fst (fetchImpl this (buildRequest this (cookieJar st) url options) (world st))
    = Fulfilled response ->
  resp_ok response = false ->
  (resp_status response ∉ RETRYABLE_STATUS \/ (attempt + 1 = maxAttempts)%Z) ->
  exists st',
    requestLoop this (S turns) url options maxAttempts attempt st
      = (inl (ThrowApp (classifyResponseError (providerId this) url (resp_status response)
                          (readSnippet response))), st') /\
    exchanges st' = exchanges st ++
      [Build_Exchange options (buildRequest this (cookieJar st) url options)
                      (Fulfilled response)] /\
    sleeps st' = sleeps st.
Proof.
  intros Hlt Hres Hok Hstop. rewrite requestLoop_S.
  destruct (Z.ltb_spec attempt maxAttempts) as [_|?]; [|lia].
  rewrite attemptOnce_run. rewrite Hres, Hok. cbn zeta.
  assert (Estop : (attempt + 1 <? maxAttempts)%Z
                  && bool_decide (resp_status response ∈ RETRYABLE_STATUS) = false).
  { destruct Hstop as [Hn|He].
    - rewrite (bool_decide_eq_false_2 _ Hn). apply andb_false_r.
    - replace (attempt + 1 <? maxAttempts)%Z with false; [done|].
      symmetry. apply Z.ltb_ge. lia. }
  rewrite Estop. eexists. split; [reflexivity|]. split.
  - rewrite exchanges_merge, exchanges_afterFetch. by rewrite Hres.
  - by rewrite sleeps_merge.
Qed.

(** *** The cookie jar along the exchanges *)

(** What one exchange does to the jar. *)
Definition jarStep (jar : list (jsstring * jsstring)) (ex : Exchange)
  : list (jsstring * jsstring) :=
  match ex_result ex with
  | Fulfilled response =>
    if str_eqb (origin (fr_url (ex_request ex))) (baseOrigin this)
    then fold_left mergeCookie (readSetCookieHeaders (resp_headers response)) jar
    else jar
  | Rejected _ => jar
  end.

(** The jar after a list of exchanges, starting from the empty jar. *)
Definition jarAfter (log : list Exchange) : list (jsstring * jsstring) :=
  fold_left jarStep log [].

(** Every request of the log was built from the jar as the exchanges before
    it left it. *)
Definition builtFromJar (log : list Exchange) : Prop :=
  forall pre ex post, log = pre ++ ex :: post ->
    ex_request ex
    = buildRequest this (jarAfter pre) (fr_url (ex_request ex)) (ex_options ex).

Definition consistent (st : ClientState W) : Prop :=
  cookieJar st = jarAfter (exchanges st) /\ builtFromJar (exchanges st).

Lemma app_snoc_inv {A} (pre post k : list A) (x y : A) :
  pre ++ x :: post = k ++ [y] ->
  (post = [] /\ pre = k /\ x = y) \/
  (exists post', post = post' ++ [y] /\ k = pre ++ x :: post').
Proof.
  destruct post as [|p post _] using rev_ind.
  - intros H. apply app_inj_tail in H as [-> ->]. by left.
  - intros H. right. exists post.
    rewrite app_comm_cons, app_assoc in H.
    apply app_inj_tail in H as [<- ->]. done.
Qed.

Lemma builtFromJar_snoc log ex :
  builtFromJar log ->
  ex_request ex = buildRequest this (jarAfter log) (fr_url (ex_request ex)) (ex_options ex) ->
  builtFromJar (log ++ [ex]).
Proof.
  intros Hlog Hex pre e post Heq. symmetry in Heq.
  apply app_snoc_inv in Heq as [(-> & -> & ->)|(post' & -> & ->)]; [done|].
  by apply (Hlog pre e post').
Qed.

Lemma consistent_initial w : consistent (initialState w).
Proof.
  split; [reflexivity|]. intros pre ex post H. simpl in H.
  by destruct pre.
Qed.

Lemma fr_url_buildRequest jar url options :
  fr_url (buildRequest this jar url options) = url.
Proof. reflexivity. Qed.

Lemma attemptOnce_state url options maxAttempts attempt st :
  let request := buildRequest this (cookieJar st) url options in
  let ex := Build_Exchange options request (fst (fetchImpl this request (world st))) in
  let st' := snd (attemptOnce this url options maxAttempts attempt st) in
  exchanges st' = exchanges st ++ [ex] /\ cookieJar st' = jarStep (cookieJar st) ex.
Proof.
  cbn zeta. rewrite attemptOnce_run. unfold jarStep. cbn [ex_result ex_request].
  rewrite fr_url_buildRequest.
  pose proof (exchanges_afterFetch st url options) as Hlog.
  assert (Hkeep : cookieJar (afterFetch st url options) = cookieJar st) by reflexivity.
  destruct (fst (fetchImpl this _ (world st))) as [response|e]; cbn zeta.
  - assert (Hjar : cookieJar (snd (mergeResponseCookies this url (resp_headers response)
                                     (afterFetch st url options)))
                   = if str_eqb (origin url) (baseOrigin this)
                     then fold_left mergeCookie (readSetCookieHeaders (resp_headers response))
                                    (cookieJar st)
                     else cookieJar st).
    { unfold mergeResponseCookies. rewrite <- Hkeep.
      by destruct (str_eqb (origin url) (baseOrigin this)). }
    destruct (resp_ok response); [|destruct (_ && _)];
      cbn [snd exchanges cookieJar sleep];
      rewrite ?exchanges_merge; (split; [exact Hlog|exact Hjar]).
  - destruct (_ && _); cbn [snd exchanges cookieJar sleep];
      (split; [exact Hlog|exact Hkeep]).
Qed.

Lemma attemptOnce_consistent url options maxAttempts attempt st :
  consistent st ->
  consistent (snd (attemptOnce this url options maxAttempts attempt st)).
Proof.
  intros [Hjar Hlog].
  destruct (attemptOnce_state url options maxAttempts attempt st) as [Hex Hnew].
  split.
  - rewrite Hnew, Hex. unfold jarAfter. rewrite fold_left_app. simpl.
    fold (jarAfter (exchanges st)). by rewrite Hjar.
  - rewrite Hex. apply builtFromJar_snoc; [done|]. simpl. by rewrite Hjar.
Qed.

Lemma requestLoop_consistent turns url options maxAttempts attempt st :
  consistent st ->
  consistent (snd (requestLoop this turns url options maxAttempts attempt st)).
Proof.
  revert attempt st. induction turns as [|turns IH]; intros attempt st Hst; [done|].
  rewrite requestLoop_S. destruct (attempt <? maxAttempts)%Z; [|done].
  pose proof (attemptOnce_consistent url options maxAttempts (attempt + 1) st Hst) as H1.
  destruct (attemptOnce this url options maxAttempts (attempt + 1) st)
    as [[e|[response|]] st1]; simpl in H1; try done.
  by apply IH.
Qed.

Lemma request_consistent options st :
  consistent st -> consistent (snd (request this options st)).
Proof.
  intros Hst. unfold request. destruct (resolveUrl _ _); [|done].
  by apply requestLoop_consistent.
Qed.

(** A sequence of requests through the one client, whatever each returns or
    throws. *)
Definition runAll (calls : list UpstreamRequestOptions) (st : ClientState W)
  : ClientState W :=
  fold_left (fun st options => snd (request this options st)) calls st.

Lemma runAll_consistent calls st : consistent st -> consistent (runAll calls st).
Proof.
  revert st. induction calls as [|options calls IH]; intros st Hst; [done|].
  simpl. apply IH. by apply request_consistent.
Qed.







Lemma jarAfter_snoc log ex : jarAfter (log ++ [ex]) = jarStep (jarAfter log) ex.
Proof. unfold jarAfter. by rewrite fold_left_app. Qed.


End ClientFacts.

Section ClientClaims.
Import UpstreamClient.
Context {U : Unicode} {Wb : Web} {W : Type}.

Lemma newClient_retries (options : UpstreamClientOptions W) (this : Client W) r :
  newClient options = inr this -> o_retries options = Some (integer r) -> (0 <= r)%Z ->
  retries this = r.
Proof.
  unfold newClient. destruct (newURL _ _); [|done]. intros [= <-] Hr Hpos.
  cbn [retries]. rewrite Hr. unfold normalizeNonNegativeInt, integer.
  replace (Qle_bool 0 (inject_Z r)) with true.
  - apply Qfloor_Z.
  - symmetry. apply Qle_bool_iff. unfold Qle. simpl. lia.
Qed.








(** The signatures of a challenge page, as the classification rule lists
    them. *)
Definition challengeSignatures : list jsstring :=
  [ lit "challenge-platform"; lit "cloudflare"; lit "cf-challenge"; lit "captcha";
    lit "验证码"; lit "验证获取下载地址"; lit "jsd/main.js"; lit "attention required" ].

(** The signature test of [looksLikeAntiBotChallenge] in words: the
    lower-cased text contains one of the signatures. *)
Definition containsSignature (text : jsstring) : Prop :=
  exists needle before after,
    needle ∈ challengeSignatures /\ toLowerCase text = before ++ needle ++ after.

Lemma startsWith_spec s p : startsWith s p = true <-> exists rest, s = p ++ rest.
Proof.
  revert s. induction p as [|a p IH]; intros s; simpl.
  - split; [by exists s|done].
  - destruct s as [|b s]; simpl.
    + split; [done|]. by intros (rest & ?).
    + rewrite andb_true_iff, N.eqb_eq, IH. split.
      * intros [-> (rest & ->)]. by exists rest.
      * intros (rest & [= -> ->]). split; [done|]. by exists rest.
Qed.

Lemma includes_spec s needle :
  includes s needle = true <-> exists before after, s = before ++ needle ++ after.
Proof.
  induction s as [|c s IH]; simpl.
  - rewrite orb_false_r, startsWith_spec. split.
    + intros (rest & ->). by exists [], rest.
    + intros (before & after & H). destruct before; simpl in H; [by exists after|done].
  - rewrite orb_true_iff, startsWith_spec, IH. split.
    + intros [(rest & ->)|(before & after & ->)].
      * by exists [], rest.
      * by exists (c :: before), after.
    + intros (before & after & H). destruct before as [|b before]; simpl in H.
      * left. by exists after.
      * injection H as -> ->. right. by exists before, after.
Qed.

Lemma looksLikeAntiBotChallenge_spec text :
  looksLikeAntiBotChallenge text = true <-> containsSignature text.
Proof.
  unfold looksLikeAntiBotChallenge, containsSignature.
  change ANTI_BOT_SIGNATURES with challengeSignatures.
  rewrite existsb_exists. split.
  - intros (needle & Hin & (before & after & H)%includes_spec).
    exists needle, before, after. split; [by apply list_elem_of_In|done].
  - intros (needle & before & after & Hin & H). exists needle.
    split; [by apply list_elem_of_In|]. apply includes_spec. by exists before, after.
Qed.

(** C2. The classification is decided by the first rule that applies: status
    429 or a body matching the rate-limit pattern gives rate-limit; otherwise
    status 401 or 403 or a body containing, in any letter case, one of the
    eight anti-bot signatures gives anti-bot; otherwise bad-response. A body
    matches the rate-limit pattern when it has the words too many requests
    with white space between them, or rate limit with or without it, in any
    letter case; nine bodies are evaluated.
    A client made with retries 0 whose only call of the transport is answered
    with status 429 throws an upstream-bad-response error whose details hold
    the classification rate-limit and the status 429. *)
Theorem classification_first_match :
  (forall status snippet,
     (status = 429%Z \/ mentionsRateLimit snippet ->
      classifyResponse status snippet = RateLimit) /\
     (status <> 429%Z -> ~ mentionsRateLimit snippet ->
      status = 401%Z \/ status = 403%Z \/ containsSignature snippet ->
      classifyResponse status snippet = AntiBot) /\
     (status <> 429%Z -> ~ mentionsRateLimit snippet ->
      status <> 401%Z -> status <> 403%Z -> ~ containsSignature snippet ->
      classifyResponse status snippet = BadResponse)) /\
  (test true rateLimitPattern (lit "429 Too Many Requests") = true /\
   test true rateLimitPattern (lit "too   many" ++ [10%N] ++ lit "requests") = true /\
   test true rateLimitPattern (lit "API rate limit exceeded") = true /\
   test true rateLimitPattern (lit "RateLimit reached") = true /\
   test true rateLimitPattern (lit "toomany requests") = false /\
   test true rateLimitPattern (lit "too many request") = false /\
   test true rateLimitPattern (lit "rate-limit") = false /\
   test true rateLimitPattern (lit "Service unavailable") = false /\
   test true rateLimitPattern [] = false) /\
  (forall (options : UpstreamClientOptions W) (this : Client W)
          (request_options : UpstreamRequestOptions) (url : URL) st response,
     newClient options = inr this ->
     o_retries options = Some (integer 0) ->
     resolveUrl (baseUrl this) (pathOrUrl request_options) = Some url ->
     fst (fetchImpl this (buildRequest this (cookieJar st) url request_options) (world st))
       = Fulfilled response ->
     resp_status response = 429%Z ->
     exists e st',
       request this request_options st = (inl (ThrowApp e), st') /\
       code e = E_UPSTREAM_BAD_RESPONSE /\
       mapGet (details e) (lit "classification") = Some (JStr (lit "rate-limit")) /\
       mapGet (details e) (lit "status") = Some (JNum (integer 429)) /\
       length (exchanges st') = S (length (exchanges st))).
Proof.
  split; [|split].
  - intros status snippet. unfold classifyResponse.
    assert (Hnone : ~ mentionsRateLimit snippet -> test true rateLimitPattern snippet = false).
    { intros Hnot. destruct (test true rateLimitPattern snippet) eqn:E; [|done].
      by apply test_rateLimitPattern in E. }
    split; [|split].
    + intros [-> | ->%test_rateLimitPattern]; [done|]. by rewrite orb_true_r.
    + intros H429 Hrate%Hnone Hanti.
      rewrite (proj2 (Z.eqb_neq _ _) H429), Hrate. cbn [orb].
      destruct Hanti as [-> | [-> | Hsig]]; [done|done|].
      apply looksLikeAntiBotChallenge_spec in Hsig. rewrite Hsig.
      by rewrite !orb_true_r.
    + intros H429 Hrate%Hnone H401 H403 Hsig.
      rewrite (proj2 (Z.eqb_neq _ _) H429), Hrate. cbn [orb].
      rewrite (proj2 (Z.eqb_neq _ _) H401), (proj2 (Z.eqb_neq _ _) H403). cbn [orb].
      destruct (looksLikeAntiBotChallenge snippet) eqn:E; [|done].
      by apply looksLikeAntiBotChallenge_spec in E.
  - repeat split; by vm_compute.
  - intros options this request_options url st response Hnew Hr Hurl Hres Hstatus.
    pose proof (newClient_retries _ _ 0%Z Hnew Hr (Z.le_refl 0)) as Hret.
    unfold request. rewrite Hurl, Hret. cbn [Z.add Z.to_nat Pos.to_nat Pos.iter_op Nat.add].
    destruct (requestLoop_not_retriable this url request_options 1%Z 0%nat 0%Z st response)
      as (st' & Hrun & Hex & _); [lia|done| |by right|].
    { unfold resp_ok. rewrite Hstatus. reflexivity. }
    eexists _, st'. split; [exact Hrun|].
    rewrite Hstatus. unfold classifyResponseError, classifyResponse.
    cbn [code details Z.eqb orb Pos.eqb classificationName].
    split; [reflexivity|]. split; [reflexivity|]. split; [reflexivity|].
    rewrite Hex, length_app. simpl. lia.
Qed.

End ClientClaims.
(** * SubHD parser *)

Section MapFacts.
Context {V : Type}.
Implicit Types (m : list (jsstring * V)) (k : jsstring) (v : V).

Lemma mapSet_keys m k v : fst <$> mapSet m k v = setAdd (fst <$> m) k.
Proof.
  unfold setAdd. induction m as [|[k' v'] m IH]; simpl; [done|].
  destruct (decide (k' = k)) as [->|Hk].
  - rewrite bool_decide_eq_true_2 by done.
    rewrite bool_decide_eq_true_2 by apply list_elem_of_here. done.
  - rewrite (bool_decide_eq_false_2 (k' = k)) by done. rewrite fmap_cons, IH. simpl.
    destruct (decide (k ∈ fst <$> m)) as [Hin|Hin].
    + rewrite !bool_decide_eq_true_2; [done| |done]. by apply list_elem_of_further.
    + rewrite !bool_decide_eq_false_2; [done| |done].
      intros [?|?]%elem_of_cons; [congruence|done].
Qed.

(** In a map, the entries after a [set] are the entry set and the entries of
    the other keys. *)
Lemma elem_of_mapSet m k v k' v' :
  NoDup (fst <$> m) ->
  (k', v') ∈ mapSet m k v -> (k' = k /\ v' = v) \/ (k' <> k /\ (k', v') ∈ m).
Proof.
  induction m as [|[k0 v0] m IH]; simpl; intros Hnd.
  - intros [= -> ->]%list_elem_of_singleton. by left.
  - apply NoDup_cons in Hnd as [Hk0 Hnd]. case_bool_decide as Hk.
    + subst k0. intros [[= -> ->]|Hin]%elem_of_cons; [by left|].
      right. split; [|by apply list_elem_of_further].
      intros ->. apply Hk0. apply list_elem_of_fmap. by exists (k, v').
    + intros [[= -> ->]|Hin]%elem_of_cons.
      * right. split; [congruence|]. apply list_elem_of_here.
      * destruct (IH Hnd Hin) as [?|[? ?]]; [by left|].
        right. split; [done|]. by apply list_elem_of_further.
Qed.

Definition setEntry m (entry : jsstring * V) := mapSet m (fst entry) (snd entry).

Lemma fold_setEntry_keys entries m :
  fst <$> fold_left setEntry entries m = fold_left setAdd (fst <$> entries) (fst <$> m).
Proof.
  revert m. induction entries as [|e entries IH]; intros m; simpl; [done|].
  rewrite IH. unfold setEntry. by rewrite mapSet_keys.
Qed.

Lemma fold_setAdd_NoDup (l acc : list jsstring) : NoDup acc -> NoDup (fold_left setAdd l acc).
Proof.
  revert acc. induction l as [|x l IH]; intros acc Hacc; simpl; [done|].
  apply IH. by apply setAdd_NoDup.
Qed.

Lemma fold_setEntry_NoDup entries : NoDup (fst <$> fold_left setEntry entries []).
Proof. rewrite fold_setEntry_keys. apply fold_setAdd_NoDup. constructor. Qed.

(** An entry of the map built by a run of [set]s is the last one the run has
    for its key. *)
Lemma fold_setEntry_last entries k v :
  (k, v) ∈ fold_left setEntry entries [] ->
  exists before after, entries = before ++ (k, v) :: after /\ k ∉ (fst <$> after).
Proof.
  induction entries as [|[k' v'] entries IH] using rev_ind.
  - intros H. by apply elem_of_nil in H.
  - rewrite fold_left_app. simpl. unfold setEntry at 1. simpl.
    intros [[-> ->]|[Hne Hin]]%elem_of_mapSet; [| |apply fold_setEntry_NoDup].
    + exists entries, []. split; [done|]. simpl. apply not_elem_of_nil.
    + destruct (IH Hin) as (before & after & -> & Hafter).
      exists before, (after ++ [(k', v')]). split; [by rewrite <- app_assoc|].
      rewrite fmap_app. simpl. intros [?|?%list_elem_of_singleton]%elem_of_app; congruence.
Qed.

End MapFacts.

Section ParserFacts.
Import SubhdParser.
Context {U : Unicode}.

(** The result containers of a document, in document order. *)
Definition cardsOf (html : jsstring) : list jsstring :=
  slice (split html SUBHD_CARD_MARKER) 1 None.

(** What the containers yield, in document order: a container without an
    identifier yields nothing; None when the extraction throws. *)
Fixpoint cardItems (cards : list jsstring) : option (list SubhdSearchItem) :=
  match cards with
  | [] => Some []
  | card :: rest =>
    match parseCard card with
    | None => None
    | Some None => cardItems rest
    | Some (Some item) =>
      match cardItems rest with
      | None => None
      | Some items => Some (item :: items)
      end
    end
  end.

Definition cardStep (deduped : option (list (jsstring * SubhdSearchItem))) (card : jsstring)
  : option (list (jsstring * SubhdSearchItem)) :=
  match deduped with
  | None => None
  | Some entries =>
    match parseCard card with
    | None => None
    | Some None => Some entries
    | Some (Some item) => Some (mapSet entries (sid item) item)
    end
  end.

Lemma fold_cardStep_None cards : fold_left cardStep cards None = None.
Proof. induction cards; simpl; auto. Qed.

Lemma fold_cardStep cards acc :
  fold_left cardStep cards (Some acc) =
  match cardItems cards with
  | None => None
  | Some items => Some (fold_left setEntry ((fun item => (sid item, item)) <$> items) acc)
  end.
Proof.
  revert acc. induction cards as [|card cards IH]; intros acc; simpl; [done|].
  destruct (parseCard card) as [[item|]|]; simpl.
  - rewrite IH. by destruct (cardItems cards).
  - apply IH.
  - apply fold_cardStep_None.
Qed.

(** C4 (amended). When the extraction of the search results returns, it
    returns at most one record per identifier, in the order in which the
    identifiers first occur in the document; and when several containers
    share an identifier, the record returned for it is the one extracted
    from the last of them. *)
Theorem search_items_deduplicated html items :
  parseSubhdSearchItems html = inr items ->
  exists extracted,
    cardItems (cardsOf html) = Some extracted /\
    NoDup (sid <$> items) /\
    sid <$> items = newSet (sid <$> extracted) /\
    forall item, item ∈ items ->
      exists before after,
        extracted = before ++ item :: after /\
        forall other, other ∈ after -> sid other <> sid item.
Proof.
  unfold parseSubhdSearchItems. fold (cardsOf html). fold cardStep.
  rewrite fold_cardStep. destruct (cardItems (cardsOf html)) as [extracted|]; [|done].
  intros [= <-]. exists extracted. split; [done|].
  set (entries := (fun item => (sid item, item)) <$> extracted).
  set (m := fold_left setEntry entries []).
  assert (Hlast : forall k item, (k, item) ∈ m ->
            exists before after,
              extracted = before ++ item :: after /\ k = sid item /\
              forall other, other ∈ after -> sid other <> sid item).
  { intros k item (before & after & Heq & Hafter)%fold_setEntry_last.
    unfold entries in Heq. apply fmap_app_inv in Heq as (b & rest & Hb & Hrest & ->).
    symmetry in Hrest. apply fmap_cons_inv in Hrest as (it & a & [= -> ->] & -> & ->).
    exists b, a. split; [done|]. split; [done|].
    intros other Hother Heq. apply Hafter. rewrite <- Heq.
    apply list_elem_of_fmap. exists (sid other, other). split; [done|].
    apply list_elem_of_fmap. by exists other. }
  assert (Hkeys : sid <$> (snd <$> m) = fst <$> m).
  { rewrite <- list_fmap_compose. apply Forall_fmap_ext, Forall_forall.
    intros [k item] Hin. destruct (Hlast k item Hin) as (_ & _ & _ & -> & _). done. }
  split; [|split].
  - rewrite Hkeys. apply fold_setEntry_NoDup.
  - rewrite Hkeys. unfold m. rewrite fold_setEntry_keys. unfold entries, newSet.
    by rewrite <- list_fmap_compose.
  - intros item [[k item'] [-> Hin]]%list_elem_of_fmap.
    destruct (Hlast k item' Hin) as (before & after & Heq & _ & Hafter).
    by exists before, after.
Qed.

End ParserFacts.
(** * SubHD provider *)

Section AlnumPattern.

Lemma nextCp_alnum h t : isAsciiAlnum h = true -> nextCp (h :: t) = Some (h, t).
Proof.
  intros Hh. simpl. destruct t as [|l t]; [done|].
  replace (isHighSurrogate h) with false; [done|].
  unfold isAsciiAlnum, isAsciiUpper, isAsciiLower, isDigit in Hh.
  unfold isHighSurrogate, inRange in *.
  symmetry. apply andb_false_iff.
  destruct (N.leb_spec 55296 h) as [Hge|]; [|by left]. exfalso.
  repeat (apply orb_true_iff in Hh as [Hh|Hh]);
    apply andb_true_iff in Hh as [_ Hh%N.leb_le]; lia.
Qed.

Lemma nextCp_not_alnum h t d t' :
  nextCp (h :: t) = Some (d, t') -> isAsciiAlnum h = false -> isAsciiAlnum d = false.
Proof.
  simpl. destruct t as [|l t]; [by intros [= <- _]|].
  destruct (isHighSurrogate h && isLowSurrogate l); [|by intros [= <- _]].
  intros [= <- _] _. unfold isAsciiAlnum, isAsciiUpper, isAsciiLower, isDigit, inRange.
  repeat (apply orb_false_iff; split); apply andb_false_iff; right; apply N.leb_gt; lia.
Qed.

(** The continuation of the pattern after its class: the end of the input. *)
Definition atEnd (st : mstate) : option mstate :=
  match ms_rest st with
  | [] => Some st
  | _ :: _ => None
  end.

Lemma starLoop_alnum n st :
  (length (ms_rest st) <= n)%nat ->
  is_Some (starLoop (rmatch false (RSet isAsciiAlnum)) true atEnd n st) <->
  forallb isAsciiAlnum (ms_rest st) = true.
Proof.
  revert st. induction n as [|n IH]; intros [prev rest cap]; simpl; intros Hn.
  - destruct rest; [|simpl in Hn; lia]. unfold atEnd. simpl. split; [done|by eexists].
  - destruct rest as [|h t].
    + unfold stepChar, atEnd. simpl. split; [done|by eexists].
    + unfold stepChar. cbn [ms_rest ms_cap].
      destruct (isAsciiAlnum h) eqn:Hh.
      * rewrite (nextCp_alnum h t Hh), Hh. cbn [ms_rest].
        replace (length t <? length (h :: t))%nat with true
          by (symmetry; apply Nat.ltb_lt; simpl; lia).
        cbn [forallb]. rewrite Hh. simpl andb. rewrite <- (IH (MState (Some h) t cap)).
        2:{ simpl in *. lia. }
        unfold orElse, atEnd at 2. cbn [ms_rest].
        by destruct (starLoop _ _ _ _ _).
      * cbn [forallb]. rewrite Hh. simpl andb.
        destruct (nextCp (h :: t)) as [[d t']|] eqn:Hnext.
        -- rewrite (nextCp_not_alnum _ _ _ _ Hnext Hh). unfold orElse, atEnd. simpl.
           split; [by intros [? ?]|done].
        -- unfold orElse, atEnd. simpl. split; [by intros [? ?]|done].
Qed.

Lemma matchHere_alnumOnly_later c s : matchHere false Subhd.alnumOnly (Some c) s = None.
Proof. reflexivity. Qed.

Lemma execFrom_alnumOnly_later fuel c s acc :
  execFrom fuel false Subhd.alnumOnly (Some c) s acc = None.
Proof.
  revert c s acc. induction fuel as [|fuel IH]; intros c s acc; cbn [execFrom];
    rewrite matchHere_alnumOnly_later; [done|].
  destruct (nextCp s) as [[d t]|]; [apply IH|done].
Qed.

(** /^[A-Za-z0-9]+$/u accepts the non-empty strings of ASCII letters and
    digits, and nothing else. *)
Lemma test_alnumOnly s :
  test false Subhd.alnumOnly s = negb (length s =? 0)%nat && forallb isAsciiAlnum s.
Proof.
  unfold test, exec. destruct s as [|h t]; [reflexivity|].
  cbn [length Nat.eqb negb andb forallb].
  assert (Hhere : matchHere false Subhd.alnumOnly None (h :: t) =
                  stepChar (fun c => isAsciiAlnum c) (MState None (h :: t) None) (fun st =>
                    starLoop (rmatch false (RSet isAsciiAlnum)) true atEnd
                             (S (length (ms_rest st))) st)) by reflexivity.
  cbn [execFrom]. rewrite Hhere. unfold stepChar. cbn [ms_rest ms_cap].
  destruct (isAsciiAlnum h) eqn:Hh.
  - rewrite (nextCp_alnum h t Hh), Hh. cbn [ms_rest andb].
    pose proof (starLoop_alnum (S (length t)) (MState (Some h) t None)) as Hloop.
    cbn [ms_rest] in Hloop. specialize (Hloop ltac:(lia)).
    destruct (starLoop _ _ _ _ _) as [st|].
    + symmetry. apply Hloop. by eexists.
    + rewrite execFrom_alnumOnly_later. symmetry. apply not_true_is_false.
      intros Hall. apply Hloop in Hall as [? ?]. done.
  - cbn [andb]. destruct (nextCp (h :: t)) as [[d t']|] eqn:Hnext; [|done].
    rewrite (nextCp_not_alnum _ _ _ _ Hnext Hh). by rewrite execFrom_alnumOnly_later.
Qed.

End AlnumPattern.

Section ProviderFacts.
Import UpstreamClient SubhdParser Subhd.
Context {U : Unicode} {Wb : Web} {W : Type}.

Lemma slice_after_prefix (p rest : jsstring) :
  slice (p ++ rest) (Z.of_nat (length p)) None = rest.
Proof.
  unfold slice, clampIndex. rewrite length_app.
  destruct (Z.ltb_spec (Z.of_nat (length p)) 0) as [?|_]; [lia|].
  rewrite Z.min_l by lia. rewrite Nat2Z.id, drop_app_length.
  apply firstn_all2. lia.
Qed.

Lemma prefix_not_alnum rest : forallb isAsciiAlnum (SUBHD_ID_PREFIX ++ rest) = false.
Proof. reflexivity. Qed.

(** C9. Identifier validation accepts two shapes. When the trimmed
    identifier is the prefix subhd: followed by one or more ASCII letters
    and digits, validation returns what follows the prefix; when the trimmed
    identifier is itself one or more ASCII letters and digits, validation
    returns it. For every other identifier validation throws the not-found
    error, which carries the resource-not-found code, the provider subhd and
    the identifier as given, and getDownloadPlan throws it with the client's
    state, its log of exchanges included, as it was: no request is made. *)
Theorem provider_id_shapes (this : SubhdProvider W) (id : jsstring) :
  (forall sid, trim id = SUBHD_ID_PREFIX ++ sid ->
     sid <> [] -> forallb isAsciiAlnum sid = true ->
     parseSubhdProviderId id = inr sid) /\
  (trim id <> [] -> forallb isAsciiAlnum (trim id) = true ->
     parseSubhdProviderId id = inr (trim id)) /\
  ((forall sid, trim id = SUBHD_ID_PREFIX ++ sid ->
      sid = [] \/ forallb isAsciiAlnum sid = false) ->
   trim id = [] \/ forallb isAsciiAlnum (trim id) = false ->
   parseSubhdProviderId id = inl (ThrowApp (notFoundError id)) /\
   code (notFoundError id) = E_NOT_FOUND_RESOURCE /\
   mapGet (details (notFoundError id)) (lit "provider") = Some (JStr (lit "subhd")) /\
   mapGet (details (notFoundError id)) (lit "id") = Some (JStr id) /\
   forall st : ClientState W,
     getDownloadPlan this id st = (inl (ThrowApp (notFoundError id)), st)).
Proof.
  assert (Hnonempty : forall s : jsstring, s <> [] -> negb (length s =? 0)%nat = true).
  { intros [|? ?] Hs; [done|reflexivity]. }
  split; [|split].
  - intros sid Heq Hsid Hall. unfold parseSubhdProviderId. rewrite Heq.
    rewrite slice_after_prefix, test_alnumOnly, Hall, (Hnonempty sid Hsid).
    replace (startsWith (SUBHD_ID_PREFIX ++ sid) SUBHD_ID_PREFIX) with true; [done|].
    symmetry. apply startsWith_spec. by exists sid.
  - intros Hne Hall. unfold parseSubhdProviderId.
    destruct (startsWith (trim id) SUBHD_ID_PREFIX) eqn:Hprefix.
    + apply startsWith_spec in Hprefix as [rest Hrest].
      rewrite Hrest, prefix_not_alnum in Hall. done.
    + cbn [andb]. by rewrite test_alnumOnly, Hall, (Hnonempty _ Hne).
  - intros Hshape1 Hshape2.
    assert (Hparse : parseSubhdProviderId id = inl (ThrowApp (notFoundError id))).
    { unfold parseSubhdProviderId.
      assert (Hsecond : test false alnumOnly (trim id) = false).
      { rewrite test_alnumOnly. destruct Hshape2 as [-> | ->]; [done|apply andb_false_r]. }
      destruct (startsWith (trim id) SUBHD_ID_PREFIX) eqn:Hprefix.
      - apply startsWith_spec in Hprefix as [rest Hrest].
        rewrite Hsecond. rewrite Hrest, slice_after_prefix, test_alnumOnly.
        destruct (Hshape1 rest Hrest) as [-> | ->]; [done|]. by rewrite andb_false_r.
      - cbn [andb]. by rewrite Hsecond. }
    split; [done|]. split; [done|]. split; [by vm_compute|]. split; [by vm_compute|].
    intros st. unfold getDownloadPlan. rewrite Hparse. reflexivity.
Qed.

(** The resolution call did not yield a plan: the payload has no usable
    url, or its success or pass field is not true. *)
Definition refused (baseUrl : jsstring) (payload : jsvalue) : bool :=
  match resolveSubhdDownloadUrl baseUrl (prop payload (lit "url")) with
  | Some _ =>
    negb (isTrue (prop payload (lit "success")) && isTrue (prop payload (lit "pass")))
  | None => true
  end.

(** The classification an error carries in its details. *)
Definition classificationOf (e : CliAppError) : option jsvalue :=
  mapGet (details e) (lit "classification").

(** C8 (amended). When the gate page was fetched and read and the
    resolution call returns an object that does not yield a plan,
    getDownloadPlan throws an upstream-bad-response error. Its
    classification is anti-bot when the payload's success field is exactly
    false and its trimmed message has an anti-bot signature or a
    verification phrase; otherwise rate-limit when success is exactly false
    and the message has a frequency phrase; otherwise bad-response, and then
    the details carry the payload as received. A payload whose success field
    is absent, null or true is classified bad-response whatever its message
    says. *)
Theorem download_gate_classification (this : SubhdProvider W) (id sid html : jsstring)
    (page : SubhdDownloadPage) (base : URL) (payload : jsvalue) (st st1 st2 : ClientState W) :
  parseSubhdProviderId id = inr sid ->
  requestText (sp_client this) (gatePageRequest this sid) st = (inr html, st1) ->
  looksLikeAntiBotChallenge html = false ->
  parseSubhdDownloadPage html sid = inr page ->
  newURL (sp_baseUrl this) None = Some base ->
  requestJson (sp_client this) (resolutionRequest this sid (origin base)) st1
    = (inr payload, st2) ->
  payload <> JNull -> payload <> JUndefined ->
  refused (sp_baseUrl this) payload = true ->
  let message := normalizeErrorMessage (prop payload (lit "msg")) in
  let rejected := isFalse (prop payload (lit "success")) in
  let challenge := looksLikeAntiBotChallenge message || test false verificationPattern message in
  let frequency := test true frequencyPattern message in
  exists e : CliAppError,
    getDownloadPlan this id st = (inl (ThrowApp e), st2) /\
    code e = E_UPSTREAM_BAD_RESPONSE /\
    classificationOf e =
      Some (JStr (if rejected && challenge then lit "anti-bot"
                  else if rejected && frequency then lit "rate-limit"
                  else lit "bad-response")) /\
    (rejected && (challenge || frequency) = false ->
     mapGet (details e) (lit "payload") = Some payload).
Proof.
  intros Hid Hgate Hclean Hpage Hbase Hcall Hnull Hundef Hrefused message rejected challenge
    frequency.
  exists (createSubhdDownloadApiError sid payload (downPageUrl this sid)).
  split; [|split; [|split]].
  - unfold getDownloadPlan. rewrite Hid. cbn [liftThrown].
    unfold bind at 1. unfold ret at 1.
    rewrite (bind_run _ _ _ _ _ Hgate). rewrite Hclean, Hpage. cbn [liftThrown].
    unfold bind at 1. unfold ret at 1. rewrite Hbase.
    rewrite (bind_run _ _ _ _ _ Hcall).
    unfold refused in Hrefused.
    destruct (resolveSubhdDownloadUrl _ _) as [sourceUrl|].
    + apply negb_true_iff in Hrefused. rewrite Hrefused. by destruct payload.
    + by destruct payload.
  - unfold createSubhdDownloadApiError. by repeat case_match.
  - unfold classificationOf, createSubhdDownloadApiError.
    fold message. fold rejected. fold challenge. fold frequency.
    destruct (rejected && challenge); [by vm_compute|].
    destruct (rejected && frequency); by vm_compute.
  - unfold createSubhdDownloadApiError.
    fold message. fold rejected. fold challenge. fold frequency.
    destruct rejected; cbn [andb]; [|intros _; by vm_compute].
    intros [-> ->]%orb_false_iff. by vm_compute.
Qed.

(** The classification of a refused download in words rather than through
    the patterns. The error is classified anti-bot exactly when the payload's
    success field is false and its trimmed message, lower-cased, contains one
    of the eight challenge signatures, or contains 临时页面 or 验证 (验证码 adds
    nothing to 验证); rate-limit exactly when success is false, none of these
    is there, and the message contains 频繁 or 次数, or has rate limit or too
    many, in any letter case, with or without white space between the words;
    bad-response in every other case. *)
Theorem download_error_in_words (sid : jsstring) (payload : jsvalue) (url : jsstring) :
  let message := normalizeErrorMessage (prop payload (lit "msg")) in
  let rejected := prop payload (lit "success") = JBool false in
  let challenge := containsSignature message \/ mentionsVerification message in
  let e := createSubhdDownloadApiError sid payload url in
  (mentionsVerification message <->
   exists before after,
     message = before ++ lit "临时页面" ++ after \/ message = before ++ lit "验证" ++ after) /\
  (classificationOf e = Some (JStr (lit "anti-bot")) <-> rejected /\ challenge) /\
  (classificationOf e = Some (JStr (lit "rate-limit")) <->
   rejected /\ ~ challenge /\ mentionsFrequency message) /\
  (classificationOf e = Some (JStr (lit "bad-response")) <->
   ~ (rejected /\ (challenge \/ mentionsFrequency message))).
Proof.
  intros message rejected challenge e.
  assert (Hrejected : isFalse (prop payload (lit "success")) = true <-> rejected).
  { unfold rejected. destruct (prop payload (lit "success")); simpl;
      try match goal with b : bool |- _ => destruct b end; split; congruence. }
  assert (Hchallenge :
    looksLikeAntiBotChallenge message || test false verificationPattern message = true
    <-> challenge).
  { unfold challenge.
    by rewrite orb_true_iff, looksLikeAntiBotChallenge_spec, test_verificationPattern. }
  pose proof (test_frequencyPattern message) as Hfrequency.
  assert (Hclass : classificationOf e =
    Some (JStr (if isFalse (prop payload (lit "success"))
                   && (looksLikeAntiBotChallenge message
                       || test false verificationPattern message)
                then lit "anti-bot"
                else if isFalse (prop payload (lit "success"))
                        && test true frequencyPattern message
                then lit "rate-limit" else lit "bad-response"))).
  { unfold e, classificationOf, createSubhdDownloadApiError. fold message.
    destruct (isFalse _ && (_ || _)); [by vm_compute|].
    destruct (isFalse _ && _); by vm_compute. }
  split.
  { unfold mentionsVerification. split.
    - intros (needle & before & after & Hin & ->).
      rewrite !elem_of_cons, elem_of_nil in Hin.
      destruct Hin as [->|[->|[->|[]]]].
      + exists before, after. by left.
      + exists before, after. by right.
      + exists before, ([30721%N] ++ after). right.
        replace (lit "验证码") with (lit "验证" ++ [30721%N]) by (by vm_compute).
        by rewrite <- app_assoc.
    - intros (before & after & [->| ->]); eexists _, before, after;
        (split; [|done]); rewrite !elem_of_cons; auto. }
  rewrite Hclass.
  destruct (isFalse (prop payload (lit "success"))) eqn:Efalse;
    destruct (looksLikeAntiBotChallenge message || test false verificationPattern message)
      eqn:Echallenge;
    destruct (test true frequencyPattern message) eqn:Efrequency;
    cbn [andb];
    (split; [|split]);
    (split; [intros Heq; try (by vm_compute in Heq); clear Heq
            |intros Hcase; try reflexivity; exfalso]);
    repeat match goal with
    | H : true = true <-> _ |- _ => apply proj1 in H; specialize (H eq_refl)
    | H : false = true <-> ?P |- _ =>
      assert (~ P) by (by intros ?%H); clear H
    end;
    tauto.
Qed.

End ProviderFacts.

(** * More of ranking and normalization *)

Section RankingMore.
Import RequestNormalization Ranking.
Context {U : Unicode} {Nm : Numeric}.

Lemma sortBy_length {A} (cmp : A -> A -> Z) (l : list A) : length (sortBy cmp l) = length l.
Proof.
  induction l as [|x l IH]; simpl; [done|].
  rewrite <- IH. generalize (sortBy cmp l). intros s.
  induction s as [|y s IHs]; simpl; [done|]. case_match; simpl; [done|]. by rewrite IHs.
Qed.

Lemma slice_from_start_length {A} (l : list A) (n : Z) :
  length (slice l 0 (Some n)) =
  if (n <? 0)%Z then (length l - Z.to_nat (- n))%nat else Nat.min (Z.to_nat n) (length l).
Proof.
  unfold slice, clampIndex. change (0 <? 0)%Z with false. cbn match.
  rewrite length_take, length_drop.
  destruct (Z.ltb_spec n 0); lia.
Qed.

Lemma rank_outcome request candidates limit :
  match rankSubtitleCandidates request candidates limit with
  | inr ranked =>
    exists scored,
      arrayMap (scoreSubtitleCandidate request) candidates = inr scored /\
      ranked = imap withRank
                 (slice (sortBy compareScored scored) 0
                    (Some (match limit with
                           | Some n => n
                           | None => Z.of_nat (length candidates)
                           end)))
  | inl error =>
    error = noToFixed /\ Exists (fun c => c_providerId c ∈ prototypeNames) candidates
  end.
Proof.
  unfold rankSubtitleCandidates.
  destruct (arrayMap (scoreSubtitleCandidate request) candidates) as [error|scored] eqn:Hrun.
  - apply arrayMap_inl in Hrun as (before & c & after & -> & Hc & _).
    apply score_inl in Hc as [-> Hname]. split; [done|].
    apply Exists_exists. exists c. split; [|done].
    apply elem_of_app. right. apply list_elem_of_here.
  - by exists scored.
Qed.

(** X1. The number of ranked records, when the ranking returns: all of them
    when the limit is left out, the limit or the number of candidates,
    whichever is less, for a limit from 0 up, and for a negative limit -k all
    but the last k (the limit is the end index of a slice). The ranking
    throws, the TypeError of the missing toFixed, only when a provider id
    names a member of Object.prototype. *)
Theorem rank_length request candidates (limit : option Z) :
  match rankSubtitleCandidates request candidates limit with
  | inr ranked =>
    length ranked =
    match limit with
    | None => length candidates
    | Some n =>
      if (n <? 0)%Z then (length candidates - Z.to_nat (- n))%nat
      else Nat.min (Z.to_nat n) (length candidates)
    end
  | inl error =>
    error = noToFixed /\ Exists (fun c => c_providerId c ∈ prototypeNames) candidates
  end.
Proof.
  pose proof (rank_outcome request candidates limit) as Hrank.
  destruct (rankSubtitleCandidates request candidates limit) as [error|ranked]; [done|].
  destruct Hrank as (scored & Hscored & ->).
  rewrite length_imap, slice_from_start_length.
  rewrite sortBy_length, (arrayMap_length _ _ _ Hscored). destruct limit as [n|]; [done|].
  destruct (Z.ltb_spec (Z.of_nat (length candidates)) 0); lia.
Qed.

Lemma imap_take {A B} (f : nat -> A -> B) (l : list A) (k : nat) :
  imap f (take k l) = take k (imap f l).
Proof.
  revert f k. induction l as [|x l IH]; intros f k; [by destruct k|].
  destruct k as [|k]; [done|]. simpl. f_equal. apply IH.
Qed.

(** X2. Ranking with a limit gives the first records of ranking without one:
    the limit changes neither the order nor a rank, nor whether the ranking
    throws. *)
Theorem rank_limit_prefix request candidates (k : nat) :
  rankSubtitleCandidates request candidates (Some (Z.of_nat k))
  = match rankSubtitleCandidates request candidates None with
    | inr ranked => inr (take k ranked)
    | inl error => inl error
    end.
Proof.
  unfold rankSubtitleCandidates.
  destruct (arrayMap (scoreSubtitleCandidate request) candidates) as [error|scored] eqn:Hrun;
    [done|].
  rewrite slice_prefix by lia. rewrite slice_prefix by lia.
  rewrite !Nat2Z.id.
  rewrite (firstn_all2 (n:=length candidates))
    by (by rewrite sortBy_length, (arrayMap_length _ _ _ Hrun)).
  f_equal. apply imap_take.
Qed.

Lemma elem_of_fold_setAdd (l acc : list jsstring) x :
  x ∈ fold_left setAdd l acc <-> x ∈ acc \/ x ∈ l.
Proof.
  revert acc. induction l as [|y l IH]; intros acc; simpl.
  - split; [by left|]. intros [?|H]; [done|]. by apply elem_of_nil in H.
  - rewrite IH, elem_of_setAdd, elem_of_cons. split.
    + intros [[?|?]|?]; auto.
    + intros [?|[?|?]]; auto.
Qed.

(** X4. The tokens of a text are a set in collation order: no token occurs
    twice, none is empty, each comes before or ties with every later one,
    and a text of white space only has no token. *)
Theorem tokenize_sorted_set (text : jsstring) :
  NoDup (tokenize text) /\
  StronglySorted (notAfter localeCompare) (tokenize text) /\
  Forall (fun token => (0 < length token)%nat) (tokenize text) /\
  (trim text = [] -> tokenize text = []).
Proof.
  unfold tokenize. destruct (length (trim text) =? 0)%nat eqn:Hblank.
  { repeat split; try constructor. }
  split; [|split; [|split]].
  - rewrite sortBy_Permutation. unfold newSet. apply fold_setAdd_NoDup. constructor.
  - apply (sortBy_sorted localeCompare).
  - apply Forall_forall. intros token Htoken.
    rewrite sortBy_Permutation in Htoken.
    apply elem_of_fold_setAdd in Htoken as [Htoken|Htoken]; [by apply elem_of_nil in Htoken|].
    apply list_elem_of_In, filter_In in Htoken as [_ Hlen]. by apply Nat.ltb_lt in Hlen.
  - intros Hnil. rewrite Hnil in Hblank. done.
Qed.

(** X5. The language preferences are the values the given tags normalise
    to, those with a length above zero, in the order in which each first
    occurs. A tag normalises to its canonical code, or to itself, trimmed and
    lower-cased, when the alias table has none; the two words that name a
    member of Object.prototype in lower case read that member instead: the
    word constructor gives a function, which has a length and stays, and the
    word __proto__ gives the prototype, which has none and is dropped. *)
Theorem language_preferences_first_occurrences (values : list jsstring) :
  normalizeLanguages values
  = rev (remove_dups (rev (List.filter hasLength (normalizeLanguage <$> values)))) /\
  (forall value,
     toLowerCase (trim value) = lit "constructor" ->
     normalizeLanguage value = LanguageMember member_constructor /\
     hasLength (normalizeLanguage value) = true) /\
  (forall value,
     toLowerCase (trim value) = lit "__proto__" ->
     normalizeLanguage value = LanguageMember member_proto /\
     hasLength (normalizeLanguage value) = false) /\
  (forall value,
     toLowerCase (trim value) = lit "chs" ->
     normalizeLanguage value = LanguageTag (lit "zh-cn")) /\
  (forall value,
     toLowerCase (trim value) = lit "fr" ->
     normalizeLanguage value = LanguageTag (lit "fr")).
Proof.
  split.
  { unfold normalizeLanguages. induction values as [|v values IH] using rev_ind; [done|].
    rewrite fold_left_app, IH. clear IH. simpl.
    rewrite fmap_app, List.filter_app. simpl.
    destruct (hasLength (normalizeLanguage v)); simpl.
    - rewrite rev_app_distr. simpl. unfold setAdd.
      set (codes := List.filter _ _).
      assert (Hmem : normalizeLanguage v ∈ rev (remove_dups (rev codes))
                     <-> normalizeLanguage v ∈ rev codes).
      { rewrite !list_elem_of_In, <- !in_rev, <- !list_elem_of_In.
        rewrite elem_of_remove_dups. by rewrite !list_elem_of_In, <- in_rev. }
      destruct (decide_rel elem_of (normalizeLanguage v) (rev codes)) as [Hin|Hin].
      + by rewrite bool_decide_eq_true_2 by (by apply Hmem).
      + rewrite bool_decide_eq_false_2 by (by rewrite Hmem). done.
    - by rewrite app_nil_r. }
  split; [|split; [|split]]; intros value Hvalue; unfold normalizeLanguage;
    rewrite Hvalue; by vm_compute.
Qed.

End RankingMore.

Section SearchCommandFacts.
Import Ranking SearchCommand.
Context {U : Unicode} {Nm : Numeric} {S : Type}.

(** The limit is the positive integer [n]. *)
Definition positiveInteger (x : jsnumber) (n : Z) : Prop :=
  exists q, x = Finite q /\ (q == inject_Z n)%Q /\ (0 < n)%Z.

Lemma positiveInteger_accepted x n :
  positiveInteger x n ->
  negb (isInteger x) || notPositive x = false /\
  match x with Finite q => Qfloor q | _ => 0%Z end = n.
Proof.
  intros (q & -> & Hq & Hn). simpl.
  assert (Hfloor : Qfloor q = n) by (by rewrite Hq, Qfloor_Z).
  rewrite Hfloor. split; [|done].
  replace (Qeq_bool q (inject_Z n)) with true by (symmetry; by apply Qeq_bool_iff).
  simpl. apply not_true_is_false. intros Hle%Qle_bool_iff.
  rewrite Hq in Hle. unfold Qle in Hle. simpl in Hle. lia.
Qed.

Lemma not_positiveInteger_refused x :
  (forall n, ~ positiveInteger x n) -> negb (isInteger x) || notPositive x = true.
Proof.
  intros Hnot. destruct x as [q| | |]; try done. simpl.
  destruct (Qeq_bool q (inject_Z (Qfloor q))) eqn:Hint; [|done]. simpl.
  apply Qeq_bool_iff in Hint.
  destruct (Qle_bool q 0) eqn:Hle; [done|]. exfalso.
  apply (Hnot (Qfloor q)). exists q. split; [done|]. split; [done|].
  assert (Hpos : ~ (q <= 0)%Q) by (intros H%Qle_bool_iff; congruence).
  rewrite Hint in Hpos. unfold Qle in Hpos. simpl in Hpos. lia.
Qed.

(** X6. The search command. A limit that is not a positive integer (a
    fraction, zero, a negative number, NaN, an infinity) is refused with an
    invalid-argument error that carries the limit, before the provider is
    asked; an error of the provider is passed on, and so is what the ranking
    throws; otherwise the output holds the ranking of what the provider
    returned, cut at the limit, with the number of records returned (the
    limit or the number of candidates, whichever is less) and the number of
    candidates. *)
Theorem search_command_limit (input : SearchCommandInput S) (st : S) :
  ((forall n, ~ positiveInteger (limit input) n) ->
     exists e, runSearchCommand input st = (inl (ThrowApp e), st) /\
       code e = E_ARG_INVALID /\
       mapGet (details e) (lit "arg") = Some (JStr (lit "limit")) /\
       mapGet (details e) (lit "value") = Some (JNum (limit input))) /\
  (forall n, positiveInteger (limit input) n ->
     (forall e st',
        provider_search (provider input) (request input) st = (inl e, st') ->
        runSearchCommand input st = (inl e, st')) /\
     (forall candidates st',
        provider_search (provider input) (request input) st = (inr candidates, st') ->
        match rankSubtitleCandidates (request input) candidates (Some n) with
        | inl error => runSearchCommand input st = (inl error, st')
        | inr ranked =>
          exists output,
            runSearchCommand input st = (inr output, st') /\
            items output = ranked /\
            returned output = length ranked /\
            returned output = Nat.min (Z.to_nat n) (length candidates) /\
            totalCandidates output = length candidates /\
            out_provider output = descriptor_id (provider input)
        end)).
Proof.
  split.
  - intros Hlimit%not_positiveInteger_refused. unfold runSearchCommand. rewrite Hlimit.
    eexists. split; [reflexivity|]. split; [done|]. split; by vm_compute.
  - intros n Hlimit. pose proof Hlimit as (q & _ & _ & Hn).
    apply positiveInteger_accepted in Hlimit as [Htest Hfloor].
    unfold runSearchCommand. rewrite Htest, Hfloor. split.
    + intros e st' Hrun. unfold bind. by rewrite Hrun.
    + intros candidates st' Hrun. unfold bind. rewrite Hrun.
      pose proof (rank_outcome (request input) candidates (Some n)) as Hrank.
      destruct (rankSubtitleCandidates (request input) candidates (Some n))
        as [error|ranked]; [done|].
      destruct Hrank as (scored & Hscored & ->).
      eexists. split; [reflexivity|]. cbn. split; [done|]. split; [done|].
      split; [|done].
      rewrite length_imap, slice_from_start_length, sortBy_length.
      rewrite (arrayMap_length _ _ _ Hscored).
      destruct (Z.ltb_spec n 0); [lia|done].
Qed.

End SearchCommandFacts.

(** * More of the upstream client *)

Section ClientMore.
Import UpstreamClient.
Context {U : Unicode} {Wb : Web} {W : Type} (this : Client W).

(** The waits of a run of attempts that follows attempt number [attempt]
    and makes [calls] calls: one wait after each call but the last. *)
Definition backoffSchedule (attempt : Z) (calls : nat) : list Z :=
  (fun i => computeBackoff (backoffMs this) (maxBackoffMs this) (attempt + Z.of_nat i))
    <$> seq 1 (calls - 1).

Lemma backoffSchedule_cons attempt calls :
  (1 <= calls)%nat ->
  computeBackoff (backoffMs this) (maxBackoffMs this) (attempt + 1)
    :: backoffSchedule (attempt + 1) calls
  = backoffSchedule attempt (S calls).
Proof.
  intros Hcalls. unfold backoffSchedule.
  replace (S calls - 1)%nat with (S (calls - 1)) by lia. cbn [seq fmap list_fmap].
  f_equal. rewrite <- (fmap_S_seq 1), <- list_fmap_compose.
  apply list_fmap_ext. intros _ i _. simpl. f_equal. lia.
Qed.

(** What a run of the loop leaves behind, whatever the transport does. *)
Definition loopOutcome (url : URL) (options : UpstreamRequestOptions) (attempt : Z)
    (turns : nat) (st : ClientState W) (run : (Thrown + Response) * ClientState W) : Prop :=
  exists new final,
    exchanges (snd run) = exchanges st ++ new /\
    (1 <= length new <= turns)%nat /\
    last new = Some final /\
    Forall (fun ex => fr_url (ex_request ex) = url /\ ex_options ex = options /\
                      exists w, ex_result ex = fst (fetchImpl this (ex_request ex) w)) new /\
    sleeps (snd run) = sleeps st ++ backoffSchedule attempt (length new) /\
    match fst run with
    | inr response => resp_ok response = true /\ ex_result final = Fulfilled response
    | inl e =>
      e = ThrowApp (failureOf this url (ex_result final)) /\
      forall response, ex_result final = Fulfilled response -> resp_ok response = false
    end.

Lemma requestLoop_outcome url options maxAttempts turns :
  forall attempt st,
  (attempt + Z.of_nat (S turns) = maxAttempts)%Z ->
  loopOutcome url options attempt (S turns) st
    (requestLoop this (S turns) url options maxAttempts attempt st).
Proof.
  induction turns as [|turns IH]; intros attempt st Hsum.
  - rewrite requestLoop_S. destruct (Z.ltb_spec attempt maxAttempts) as [_|?]; [|lia].
    rewrite attemptOnce_run.
    set (req := buildRequest this (cookieJar st) url options).
    assert (Elast : (attempt + 1 <? maxAttempts)%Z = false) by (apply Z.ltb_ge; lia).
    rewrite Elast. cbn [andb].
    destruct (fst (fetchImpl this req (world st))) as [response|e] eqn:Eres.
    + cbn zeta.
      exists [Build_Exchange options req (Fulfilled response)],
             (Build_Exchange options req (Fulfilled response)).
      assert (Hcall : exists w, Fulfilled response = fst (fetchImpl this req w))
        by (by exists (world st)).
      destruct (resp_ok response) eqn:Hok; cbn [fst snd];
        rewrite exchanges_merge, sleeps_merge, exchanges_afterFetch; fold req; rewrite Eres;
        (split; [done|]); (split; [simpl; lia|]); (split; [done|]);
        (split; [by repeat constructor|]); (split; [by rewrite app_nil_r|]); [done|].
      split; [done|]. by intros ? [= <-].
    + assert (Hcall : exists w, Rejected e = fst (fetchImpl this req w))
        by (by exists (world st)).
      exists [Build_Exchange options req (Rejected e)],
             (Build_Exchange options req (Rejected e)).
      cbn [fst snd]. rewrite exchanges_afterFetch. fold req. rewrite Eres.
      split; [done|]. split; [simpl; lia|]. split; [done|].
      split; [by repeat constructor|]. split; [by rewrite app_nil_r|]. done.
  - rewrite requestLoop_S. destruct (Z.ltb_spec attempt maxAttempts) as [_|?]; [|lia].
    rewrite attemptOnce_run.
    set (req := buildRequest this (cookieJar st) url options).
    assert (Emore : (attempt + 1 <? maxAttempts)%Z = true) by (apply Z.ltb_lt; lia).
    rewrite Emore. cbn [andb].
    assert (Hone : forall result (st1 : ClientState W) (r : Thrown + Response),
              fst (fetchImpl this req (world st)) = result ->
              exchanges st1 = exchanges (afterFetch this st url options) ->
              sleeps st1 = sleeps st ->
              match r with
              | inr response => resp_ok response = true /\ result = Fulfilled response
              | inl e =>
                e = ThrowApp (failureOf this url result) /\
                forall response, result = Fulfilled response -> resp_ok response = false
              end ->
              loopOutcome url options attempt (S (S turns)) st (r, st1)).
    { intros result st1 r Hres Hex Hsl Hr.
      assert (Hcall : exists w, result = fst (fetchImpl this req w))
        by (by exists (world st)).
      exists [Build_Exchange options req result], (Build_Exchange options req result).
      cbn [fst snd]. rewrite Hex, Hsl, exchanges_afterFetch. fold req. rewrite Hres.
      split; [done|]. split; [simpl; lia|]. split; [done|].
      split; [by repeat constructor|]. split; [by rewrite app_nil_r|]. exact Hr. }
    assert (Hmore : forall result (st1 : ClientState W),
              fst (fetchImpl this req (world st)) = result ->
              exchanges st1 = exchanges (afterFetch this st url options) ->
              sleeps st1 = sleeps st ++
                [computeBackoff (backoffMs this) (maxBackoffMs this) (attempt + 1)] ->
              loopOutcome url options attempt (S (S turns)) st
                (requestLoop this (S turns) url options maxAttempts (attempt + 1) st1)).
    { intros result st1 Hres Hex Hsl.
      assert (Hcall : exists w, result = fst (fetchImpl this req w))
        by (by exists (world st)).
      destruct (IH (attempt + 1)%Z st1) as (new & final & Hlog & Hlen & Hlast & Hall & Hsleeps & Hr);
        [lia|].
      exists (Build_Exchange options req result :: new), final.
      split.
      { rewrite Hlog, Hex, exchanges_afterFetch. fold req. rewrite Hres.
        by rewrite <- app_assoc. }
      split; [simpl; lia|]. split.
      { destruct new; [simpl in Hlen; lia|exact Hlast]. }
      split; [constructor; [done|exact Hall]|]. split; [|exact Hr].
      rewrite Hsleeps, Hsl, <- app_assoc. f_equal. cbn [app length].
      apply backoffSchedule_cons. lia. }
    destruct (fst (fetchImpl this req (world st))) as [response|e] eqn:Eres.
    + cbn zeta. destruct (resp_ok response) eqn:Hok.
      * apply (Hone (Fulfilled response)); [done|by rewrite exchanges_merge|by rewrite sleeps_merge|done].
      * destruct (bool_decide (resp_status response ∈ RETRYABLE_STATUS)).
        -- apply (Hmore (Fulfilled response)); [done| |].
           ++ by rewrite exchanges_sleep, exchanges_merge.
           ++ cbn [sleep snd sleeps]. by rewrite sleeps_merge.
        -- apply (Hone (Fulfilled response));
             [done|by rewrite exchanges_merge|by rewrite sleeps_merge|].
           split; [done|]. by intros ? [= <-].
    + destruct (bool_decide _ || bool_decide _).
      * apply (Hmore (Rejected e)); done.
      * apply (Hone (Rejected e)); done.
Qed.

Lemma normalizePositiveInt_bounds value fallback :
  (0 < fallback)%Z -> (0 <= normalizePositiveInt value fallback)%Z.
Proof.
  intros Hfallback. unfold normalizePositiveInt.
  destruct value as [[q| | |]|]; try lia.
  destruct (Qle_bool q 0) eqn:Hle; [lia|].
  assert (Hpos : ~ (q <= 0)%Q) by (intros H%Qle_bool_iff; congruence).
  rewrite <- (Qfloor_Z 0). apply Qfloor_resp_le.
  apply Qnot_lt_le. intros Hlt. apply Hpos. by apply Qlt_le_weak.
Qed.

Lemma normalizeNonNegativeInt_bounds value fallback :
  (0 <= fallback)%Z -> (0 <= normalizeNonNegativeInt value fallback)%Z.
Proof.
  intros Hfallback. unfold normalizeNonNegativeInt.
  destruct value as [[q| | |]|]; try lia.
  destruct (Qle_bool 0 q) eqn:Hle; simpl; [|lia].
  rewrite <- (Qfloor_Z 0). apply Qfloor_resp_le. by apply Qle_bool_iff.
Qed.

Lemma newClient_bounds (options : UpstreamClientOptions W) :
  newClient options = inr this ->
  (0 <= retries this)%Z /\ (0 <= timeoutMs this)%Z /\
  (0 <= backoffMs this)%Z /\ (0 <= maxBackoffMs this)%Z.
Proof.
  unfold newClient. destruct (newURL _ _); [|done]. intros [= <-]. cbn.
  split; [by apply normalizeNonNegativeInt_bounds|].
  repeat split; by apply normalizePositiveInt_bounds.
Qed.




(** X8. How the request operation ends, whatever the transport does: it
    returns only a successful response, the one of its last call; and what
    it throws is the classified error of its last call, an unsuccessful
    response or a rejection, never the rejection itself. *)
Theorem request_outcome (options : UpstreamClientOptions W)
    (request_options : UpstreamRequestOptions) (url : URL) (st : ClientState W) :
  newClient options = inr this ->
  resolveUrl (baseUrl this) (pathOrUrl request_options) = Some url ->
  exists final,
    last (exchanges (snd (request this request_options st))) = Some final /\
    match fst (request this request_options st) with
    | inr response => resp_ok response = true /\ ex_result final = Fulfilled response
    | inl e =>
      e = ThrowApp (failureOf this url (ex_result final)) /\
      forall response, ex_result final = Fulfilled response -> resp_ok response = false
    end.
Proof.
  intros Hnew Hurl. destruct (newClient_bounds options Hnew) as (Hretries & _).
  unfold request. rewrite Hurl.
  replace (Z.to_nat (retries this + 1)) with (S (Z.to_nat (retries this))) by lia.
  destruct (requestLoop_outcome url request_options (retries this + 1)
              (Z.to_nat (retries this)) 0%Z st)
    as (new & final & Hlog & Hlen & Hlast & _ & _ & Hend); [lia|].
  exists final. split; [|exact Hend].
  rewrite Hlog. destruct new as [|ex new]; [done|]. by rewrite last_app_cons in * |- *.
Qed.

End ClientMore.

Section ExitCodeFacts.
Import UpstreamClient ExitCodes.
Context {U : Unicode} {Wb : Web} {W : Type}.

(** X10. The exit code of an error code goes by the family its name starts
    with: 2 for the argument errors, 3 for the authentication errors, 4 for
    not-found, 5 for the upstream errors and 10 for the unknown error; no
    error code gets the exit code of success. *)
Theorem exit_code_by_family (code : CliErrorCode) :
  mapErrorCodeToExitCode code <> SUCCESS /\
  (mapErrorCodeToExitCode code = ARGUMENT_ERROR <->
     code ∈ [E_ARG_INVALID; E_ARG_MISSING; E_ARG_CONFLICT; E_ARG_UNSUPPORTED]) /\
  (mapErrorCodeToExitCode code = AUTH_OR_CONFIG_ERROR <->
     code ∈ [E_AUTH_REQUIRED; E_AUTH_INVALID]) /\
  (mapErrorCodeToExitCode code = NOT_FOUND <-> code = E_NOT_FOUND_RESOURCE) /\
  (mapErrorCodeToExitCode code = UPSTREAM_ERROR <->
     code ∈ [E_UPSTREAM_NETWORK; E_UPSTREAM_TIMEOUT; E_UPSTREAM_BAD_RESPONSE]) /\
  (mapErrorCodeToExitCode code = UNKNOWN_ERROR <-> code = E_UNKNOWN).
Proof.
  split; [by destruct code|].
  repeat split; destruct code; vm_compute; intros H; try done;
    try (repeat constructor; fail);
    repeat (apply elem_of_cons in H as [H|H]; [discriminate H|]);
    by apply elem_of_nil in H.
Qed.

Lemma code_failureOf (this : Client W) url result :
  (forall e, result = Rejected e -> exists error, e = ThrowOther error) ->
  code (failureOf this url result)
    ∈ [E_UPSTREAM_NETWORK; E_UPSTREAM_TIMEOUT; E_UPSTREAM_BAD_RESPONSE].
Proof.
  intros Hraw. destruct result as [response|e]; simpl.
  - repeat constructor.
  - destruct (Hraw e eq_refl) as [error ->]. simpl.
    destruct (isAbortError error); simpl; repeat constructor.
Qed.

(** X9. When the transport rejects only with values that are no CliAppError,
    every failure of the request operation is an upstream error: a
    CliAppError with the network, timeout or bad-response code, whose exit
    code is 5. *)
Theorem request_failure_is_upstream (this : Client W) (options : UpstreamClientOptions W)
    (request_options : UpstreamRequestOptions) (url : URL) (st st' : ClientState W)
    (thrown : Thrown) :
  newClient options = inr this ->
  resolveUrl (baseUrl this) (pathOrUrl request_options) = Some url ->
  (forall req w e, fst (fetchImpl this req w) = Rejected e -> exists error, e = ThrowOther error) ->
  request this request_options st = (inl thrown, st') ->
  exists e, thrown = ThrowApp e /\
    code e ∈ [E_UPSTREAM_NETWORK; E_UPSTREAM_TIMEOUT; E_UPSTREAM_BAD_RESPONSE] /\
    mapErrorCodeToExitCode (code e) = UPSTREAM_ERROR.
Proof.
  intros Hnew Hurl Hraw Hrun.
  destruct (newClient_bounds this options Hnew) as (Hretries & _).
  unfold request in Hrun. rewrite Hurl in Hrun.
  replace (Z.to_nat (retries this + 1)) with (S (Z.to_nat (retries this))) in Hrun by lia.
  destruct (requestLoop_outcome this url request_options (retries this + 1)
              (Z.to_nat (retries this)) 0%Z st)
    as (new & final & _ & _ & Hlast & Hall & _ & Hend); [lia|].
  rewrite Hrun in Hend. cbn [fst] in Hend. destruct Hend as [-> _].
  eexists. split; [reflexivity|].
  assert (Hcode : code (failureOf this url (ex_result final))
                  ∈ [E_UPSTREAM_NETWORK; E_UPSTREAM_TIMEOUT; E_UPSTREAM_BAD_RESPONSE]).
  { apply code_failureOf. intros e He.
    apply last_Some_elem_of in Hlast.
    destruct (proj1 (Forall_forall _ _) Hall final Hlast) as (_ & _ & w & Hw).
    apply (Hraw (ex_request final) w). congruence. }
  split; [exact Hcode|].
  repeat (apply elem_of_cons in Hcode as [->|Hcode]; [reflexivity|]).
  by apply elem_of_nil in Hcode.
Qed.

End ExitCodeFacts.

Section CookieJarFacts.
Import UpstreamClient.
Context {U : Unicode} {Wb : Web} {W : Type} (this : Client W).

Lemma mapGet_mapSet_ne {V} (m : list (jsstring * V)) k k' v :
  k' <> k -> mapGet (mapSet m k v) k' = mapGet m k'.
Proof.
  intros Hne. induction m as [|[k0 v0] m IH]; simpl.
  - by rewrite bool_decide_eq_false_2 by congruence.
  - destruct (decide (k0 = k)) as [->|Hk0].
    + rewrite (bool_decide_eq_true_2 (k = k)) by done. simpl.
      by rewrite !bool_decide_eq_false_2 by congruence.
    + rewrite (bool_decide_eq_false_2 (k0 = k)) by done. simpl. by rewrite IH.
Qed.

Lemma mapGet_mapDelete_ne {V} (m : list (jsstring * V)) k k' :
  k' <> k -> mapGet (mapDelete m k) k' = mapGet m k'.
Proof.
  intros Hne. unfold mapDelete. induction m as [|[k0 v0] m IH]; simpl; [done|].
  destruct (decide (k0 = k)) as [->|Hk0].
  - rewrite (bool_decide_eq_true_2 (k = k)) by done. simpl.
    by rewrite bool_decide_eq_false_2 by congruence.
  - rewrite (bool_decide_eq_false_2 (k0 = k)) by done. simpl. by rewrite IH.
Qed.

(** X12. One Set-Cookie header changes the cookie of at most one name: there is
    a name such that every other name has in the jar afterwards what it had
    before. *)
Theorem set_cookie_changes_one_name (jar : list (jsstring * jsstring)) (raw : jsstring) :
  exists name, forall other,
    other <> name -> mapGet (mergeCookie jar raw) other = mapGet jar other.
Proof.
  unfold mergeCookie. destruct (take 1 (split raw (lit ";"))) as [|first rest];
    [by exists []|].
  cbn zeta. set (segment := trim first).
  set (name := trim (slice segment 0 (Some (indexOf segment (lit "="))))).
  exists name. intros other Hother.
  repeat case_match; try done.
  - by apply mapGet_mapDelete_ne.
  - by apply mapGet_mapSet_ne.
Qed.

(** A jar as the client keeps it: every name once, no empty name, and no
    value that is empty or the word deleted. *)
Definition jarWellFormed (jar : list (jsstring * jsstring)) : Prop :=
  NoDup (fst <$> jar) /\
  Forall (fun entry => fst entry <> [] /\ snd entry <> [] /\ snd entry <> lit "deleted") jar.

Lemma mapSet_Forall {V} (P : jsstring * V -> Prop) m k v :
  Forall P m -> P (k, v) -> Forall P (mapSet m k v).
Proof.
  intros Hm Hkv. induction Hm as [|[k0 v0] m H0 Hm IH]; simpl; [by repeat constructor|].
  case_bool_decide; by constructor.
Qed.

Lemma mapSet_NoDup {V} (m : list (jsstring * V)) k v :
  NoDup (fst <$> m) -> NoDup (fst <$> mapSet m k v).
Proof. rewrite mapSet_keys. apply setAdd_NoDup. Qed.

Lemma mapDelete_Forall {V} (P : jsstring * V -> Prop) m k :
  Forall P m -> Forall P (mapDelete m k).
Proof.
  unfold mapDelete. induction 1 as [|entry m H0 Hm IH]; simpl; [constructor|].
  case_match; [by constructor|done].
Qed.

Lemma mapDelete_NoDup {V} (m : list (jsstring * V)) k :
  NoDup (fst <$> m) -> NoDup (fst <$> mapDelete m k).
Proof.
  unfold mapDelete. induction m as [|entry m IH]; simpl; [done|].
  intros [Hentry Hm]%NoDup_cons. case_match; [|by apply IH].
  simpl. apply NoDup_cons. split; [|by apply IH].
  intros Hin. apply Hentry.
  apply list_elem_of_fmap in Hin as (e & -> & He).
  apply list_elem_of_fmap. exists e. split; [done|].
  apply list_elem_of_In in He. apply filter_In in He as [He _]. by apply list_elem_of_In.
Qed.

Lemma mergeCookie_wellFormed jar raw : jarWellFormed jar -> jarWellFormed (mergeCookie jar raw).
Proof.
  intros [Hnames Hentries]. unfold mergeCookie.
  destruct (take 1 (split raw (lit ";"))) as [|first rest]; [done|].
  cbn zeta. set (segment := trim first).
  set (name := trim (slice segment 0 (Some (indexOf segment (lit "="))))).
  set (value := trim (slice segment (indexOf segment (lit "=") + 1) None)).
  destruct (length segment =? 0)%nat; [done|].
  destruct (indexOf segment (lit "=") <=? 0)%Z; [done|].
  destruct (length name =? 0)%nat eqn:Hname; [done|].
  destruct ((length value =? 0)%nat || str_eqb value (lit "deleted")) eqn:Hvalue.
  - split; [by apply mapDelete_NoDup|by apply mapDelete_Forall].
  - apply orb_false_iff in Hvalue as [Hlen Hdeleted].
    split; [by apply mapSet_NoDup|]. apply mapSet_Forall; [done|]. simpl.
    split; [intros E; by rewrite E in Hname|].
    split; [intros E; by rewrite E in Hlen|].
    intros E. unfold str_eqb in Hdeleted. by rewrite bool_decide_eq_true_2 in Hdeleted.
Qed.

Lemma jarAfter_wellFormed log : jarWellFormed (jarAfter this log).
Proof.
  induction log as [|ex log IH] using rev_ind.
  - split; [constructor|constructor].
  - rewrite jarAfter_snoc. unfold jarStep.
    destruct (ex_result ex) as [response|e]; [|done].
    destruct (str_eqb _ _); [|done].
    generalize (readSetCookieHeaders (resp_headers response)). intros cookies.
    revert IH. generalize (jarAfter this log). induction cookies as [|raw cookies IHc];
      intros jar Hjar; simpl; [done|].
    apply IHc. by apply mergeCookie_wellFormed.
Qed.

(** X13. Along every sequence of requests through one client the jar holds every
    name once, no empty name, and no value that is empty or the word
    deleted. *)
Theorem cookie_jar_well_formed (calls : list UpstreamRequestOptions) (w : W) :
  jarWellFormed (cookieJar (runAll this calls (initialState w))).
Proof.
  destruct (runAll_consistent this calls (initialState w) (consistent_initial this w))
    as [-> _].
  apply jarAfter_wellFormed.
Qed.

End CookieJarFacts.

(** * More of the SubHD provider *)

Section TrimFacts.

Lemma alnum_not_white c : isAsciiAlnum c = true -> isWhiteSpace c = false.
Proof.
  unfold isAsciiAlnum, isAsciiUpper, isAsciiLower, isDigit, inRange, isWhiteSpace.
  intros H.
  repeat (apply orb_true_iff in H as [H|H]);
    apply andb_true_iff in H as [Hlo%N.leb_le Hhi%N.leb_le];
    repeat (apply orb_false_iff; split);
    try (apply N.eqb_neq; lia);
    apply andb_false_iff; first [left; apply N.leb_gt; lia | right; apply N.leb_gt; lia].
Qed.

(** A string that neither starts nor ends with white space. *)
Definition trimmed (s : jsstring) : Prop :=
  match s, rev s with
  | first :: _, last :: _ => isWhiteSpace first = false /\ isWhiteSpace last = false
  | _, _ => True
  end.

Lemma trim_trimmed_id s : trimmed s -> trim s = s.
Proof.
  unfold trimmed, trim, trimEnd, trimStart.
  destruct s as [|first t]; [done|].
  destruct (rev (first :: t)) as [|last t'] eqn:Hrev.
  { apply (f_equal (@length N)) in Hrev. rewrite length_rev in Hrev. done. }
  intros [Hfirst Hlast]. cbn [dropWhile]. rewrite Hfirst, Hrev. cbn [dropWhile].
  rewrite Hlast, <- Hrev. apply rev_involutive.
Qed.

Lemma dropWhile_suffix {A} (p : A -> bool) l : exists pre, l = pre ++ dropWhile p l.
Proof.
  induction l as [|x l [pre IH]]; simpl; [by exists []|].
  destruct (p x); [|by exists []]. exists (x :: pre). simpl. by f_equal.
Qed.

Lemma dropWhile_head {A} (p : A -> bool) l x t : dropWhile p l = x :: t -> p x = false.
Proof.
  induction l as [|y l IH]; simpl; [done|].
  destruct (p y) eqn:Hy; [done|]. by intros [= <- _].
Qed.

Lemma trim_is_trimmed s : trimmed (trim s).
Proof.
  unfold trimmed. destruct (trim s) as [|first t] eqn:Htrim; [done|].
  destruct (rev (first :: t)) as [|last t'] eqn:Hrev; [done|].
  unfold trim, trimEnd, trimStart in Htrim.
  assert (Hlast : isWhiteSpace last = false).
  { apply (f_equal (@rev N)) in Htrim. rewrite rev_involutive, Hrev in Htrim.
    by apply dropWhile_head in Htrim. }
  split; [|exact Hlast].
  destruct (dropWhile_suffix isWhiteSpace (rev (dropWhile isWhiteSpace s))) as [pre Hpre].
  apply (f_equal (@rev N)) in Hpre. rewrite rev_involutive, rev_app_distr, Htrim in Hpre.
  simpl in Hpre. by apply dropWhile_head in Hpre.
Qed.

Lemma trim_length s : (length (trim s) <= length s)%nat.
Proof.
  unfold trim, trimEnd, trimStart. rewrite length_rev.
  destruct (dropWhile_suffix isWhiteSpace (rev (dropWhile isWhiteSpace s))) as [pre1 H1].
  destruct (dropWhile_suffix isWhiteSpace s) as [pre2 H2].
  apply (f_equal (@length N)) in H1, H2. rewrite length_app in H1, H2.
  rewrite length_rev in H1. lia.
Qed.

Lemma trimmed_cons_snoc first middle last :
  isWhiteSpace first = false -> isWhiteSpace last = false ->
  trimmed (first :: middle ++ [last]).
Proof.
  intros Hfirst Hlast. unfold trimmed. cbn [rev]. rewrite rev_app_distr. by simpl.
Qed.

Lemma alnum_trimmed s : forallb isAsciiAlnum s = true -> trimmed s.
Proof.
  intros Hall. unfold trimmed. destruct s as [|first t]; [done|].
  destruct (rev (first :: t)) as [|last t'] eqn:Hrev; [done|].
  rewrite forallb_forall in Hall. split; apply alnum_not_white, Hall.
  - by left.
  - apply in_rev. rewrite Hrev. by left.
Qed.

End TrimFacts.

Section ProviderMore.
Import UpstreamClient SubhdParser Subhd SubhdProvider.
Context {U : Unicode} {Wb : Web} {W : Type}.

Lemma parseSubhdProviderId_alnum id sid :
  parseSubhdProviderId id = inr sid -> sid <> [] /\ forallb isAsciiAlnum sid = true.
Proof.
  unfold parseSubhdProviderId. rewrite !test_alnumOnly.
  assert (Hshape : forall s : jsstring,
            negb (length s =? 0)%nat && forallb isAsciiAlnum s = true ->
            s <> [] /\ forallb isAsciiAlnum s = true).
  { intros s [Hlen Hall]%andb_true_iff. split; [|done]. by intros ->. }
  destruct (startsWith _ _ && _) eqn:Hfirst.
  - intros [= <-]. apply andb_true_iff in Hfirst as [_ Hfirst]. by apply Hshape.
  - destruct (negb _ && forallb _ (trim id)) eqn:Hsecond; [|done].
    intros [= <-]. by apply Hshape.
Qed.

Lemma parse_bare sid :
  sid <> [] -> forallb isAsciiAlnum sid = true -> parseSubhdProviderId sid = inr sid.
Proof.
  intros Hne Hall. unfold parseSubhdProviderId.
  rewrite (trim_trimmed_id sid) by (by apply alnum_trimmed).
  destruct (startsWith sid SUBHD_ID_PREFIX) eqn:Hprefix.
  - apply startsWith_spec in Hprefix as [rest ->]. by rewrite prefix_not_alnum in Hall.
  - cbn [andb]. rewrite test_alnumOnly, Hall. by destruct sid.
Qed.

Lemma parse_prefixed sid :
  sid <> [] -> forallb isAsciiAlnum sid = true ->
  parseSubhdProviderId (toSubhdProviderId sid) = inr sid.
Proof.
  intros Hne Hall. unfold parseSubhdProviderId, toSubhdProviderId.
  assert (Htrim : trim (SUBHD_ID_PREFIX ++ sid) = SUBHD_ID_PREFIX ++ sid).
  { apply trim_trimmed_id.
    destruct (rev sid) as [|last t] eqn:Hrev.
    { apply (f_equal (@length N)) in Hrev. rewrite length_rev in Hrev. by destruct sid. }
    assert (Hlast : isWhiteSpace last = false).
    { apply alnum_not_white. rewrite forallb_forall in Hall.
      apply Hall, in_rev. rewrite Hrev. by left. }
    apply (f_equal (@rev N)) in Hrev. rewrite rev_involutive in Hrev. subst sid.
    apply (trimmed_cons_snoc 115%N (tail SUBHD_ID_PREFIX ++ rev t) last); [reflexivity|done]. }
  rewrite Htrim, slice_after_prefix, test_alnumOnly, Hall.
  replace (startsWith (SUBHD_ID_PREFIX ++ sid) SUBHD_ID_PREFIX) with true
    by (symmetry; apply startsWith_spec; by exists sid).
  by destruct sid.
Qed.

(** X15. What validation returns is canonical: a non-empty string of ASCII
    letters and digits that validation returns unchanged, with the prefix
    subhd: put before it or without. So the id of a download plan can be
    validated again and gives the same identifier. *)
Theorem provider_id_canonical (id sid : jsstring) :
  parseSubhdProviderId id = inr sid ->
  sid <> [] /\ forallb isAsciiAlnum sid = true /\
  parseSubhdProviderId (toSubhdProviderId sid) = inr sid /\
  parseSubhdProviderId sid = inr sid.
Proof.
  intros [Hne Hall]%parseSubhdProviderId_alnum.
  split; [done|]. split; [done|]. split; [by apply parse_prefixed|by apply parse_bare].
Qed.

Lemma normalizeBaseUrl_shape (value : option jsstring) :
  trimmed (Subhd.normalizeBaseUrl value) /\
  Subhd.normalizeBaseUrl value <> [] /\
  endsWith (Subhd.normalizeBaseUrl value) (lit "/") = true.
Proof.
  unfold Subhd.normalizeBaseUrl. destruct value as [v|]; [|by vm_compute].
  cbn zeta. destruct (length (trim v) =? 0)%nat eqn:Hlen; [by vm_compute|].
  destruct (endsWith (trim v) (lit "/")) eqn:Hends.
  - split; [apply trim_is_trimmed|]. split; [|done]. intros E. by rewrite E in Hlen.
  - pose proof (trim_is_trimmed v) as Ht. unfold trimmed in Ht.
    destruct (trim v) as [|first t] eqn:Htrim; [done|].
    destruct (rev (first :: t)) as [|last t'] eqn:Hrev.
    { apply (f_equal (@length N)) in Hrev. by rewrite length_rev in Hrev. }
    destruct Ht as [Hfirst _]. split; [|split; [done|]].
    + apply (trimmed_cons_snoc first t 47%N); [done|reflexivity].
    + unfold endsWith. change (lit "/") with [47%N]. by rewrite rev_app_distr.
Qed.

(** X16. The provider and its client work on the same base URL: the one given,
    trimmed and closed with a slash when it does not end with one, or
    https://subhd.tv/ when none or a blank one is given. The client is
    the one of the provider subhd. *)
Theorem provider_base_url (options : SubhdProviderOptions W) (this : SubhdProvider W) :
  createSubhdProvider options = inr this ->
  baseUrl (sp_client this) = sp_baseUrl this /\
  sp_baseUrl this = Subhd.normalizeBaseUrl (po_baseUrl options) /\
  endsWith (sp_baseUrl this) (lit "/") = true /\
  trim (sp_baseUrl this) = sp_baseUrl this /\
  providerId (sp_client this) = lit "subhd".
Proof.
  unfold createSubhdProvider. destruct (newClient _) as [e|client] eqn:Hnew; [done|].
  intros [= <-]. cbn [sp_baseUrl sp_client].
  destruct (normalizeBaseUrl_shape (po_baseUrl options)) as (Htrimmed & Hne & Hends).
  unfold newClient in Hnew. cbn [o_baseUrl o_providerId] in Hnew.
  destruct (newURL _ None); [|done]. injection Hnew as <-. cbn [baseUrl providerId].
  split; [|split; [done|split; [done|split; [by apply trim_trimmed_id|done]]]].
  unfold UpstreamClient.normalizeBaseUrl. rewrite (trim_trimmed_id _ Htrimmed), Hends.
  destruct (Subhd.normalizeBaseUrl (po_baseUrl options)); done.
Qed.

Section Methods.
Variable this : SubhdProvider W.

(** X17. The health check never throws. It makes the one request for the front
    page and reports: reachable when the page came and is no challenge,
    and otherwise not reachable, with the anti-bot classification for a
    challenge page and with the message and code of the error for a
    failed request. *)
Theorem doctor_always_reports (st : ClientState W) :
  exists report,
    doctor this st = (inr report, snd (requestText (sp_client this) doctorRequest st)) /\
    (ok report = true <->
       exists html, fst (requestText (sp_client this) doctorRequest st) = inr html /\
                    looksLikeAntiBotChallenge html = false) /\
    (forall html,
       fst (requestText (sp_client this) doctorRequest st) = inr html ->
       looksLikeAntiBotChallenge html = true ->
       mapGet (report_details report) (lit "classification") = Some (JStr (lit "anti-bot"))) /\
    (forall e,
       fst (requestText (sp_client this) doctorRequest st) = inl (ThrowApp e) ->
       report_message report = message e /\
       mapGet (report_details report) (lit "code") = Some (JStr (codeName (code e)))) /\
    (forall e,
       fst (requestText (sp_client this) doctorRequest st) = inl (ThrowOther e) ->
       mapGet (report_details report) (lit "code") = Some (JStr (lit "E_UNKNOWN"))).
Proof.
  unfold doctor, tryCatch, bind.
  destruct (requestText (sp_client this) doctorRequest st) as [[e|html] st'] eqn:Hrun;
    cbn [fst snd].
  - eexists. split; [reflexivity|]. cbn [ok report_message report_details].
    split; [split; [done|by intros (? & ? & _)]|].
    split; [done|]. split.
    + intros e' [= ->]. split; [done|]. by vm_compute.
    + intros e' [= ->]. by vm_compute.
  - destruct (looksLikeAntiBotChallenge html) eqn:Hch; unfold ret;
      (eexists; split; [reflexivity|]); cbn [ok report_message report_details].
    + split; [split; [done|intros (? & [= <-] & ?); congruence]|].
      split; [intros; by vm_compute|]. split; done.
    + split; [split; [by exists html|done]|].
      split; [intros ? [= <-] ?; congruence|]. split; done.
Qed.

Lemma NoDup_fmap_filter {A B} (f : A -> B) (p : A -> bool) (l : list A) :
  NoDup (f <$> l) -> NoDup (f <$> List.filter p l).
Proof.
  induction l as [|x l IH]; simpl; [done|].
  intros [Hx Hl]%NoDup_cons. destruct (p x); [|by apply IH].
  simpl. apply NoDup_cons. split; [|by apply IH].
  intros Hin. apply Hx.
  apply list_elem_of_fmap in Hin as (y & -> & Hy).
  apply list_elem_of_fmap. exists y. split; [done|].
  apply list_elem_of_In in Hy. apply filter_In in Hy as [Hy _]. by apply list_elem_of_In.
Qed.

Lemma parseSubhdSearchItems_NoDup html found :
  parseSubhdSearchItems html = inr found -> NoDup (sid <$> found).
Proof.
  unfold parseSubhdSearchItems. fold (cardsOf html). fold cardStep.
  rewrite fold_cardStep. destruct (cardItems (cardsOf html)) as [extracted|]; [|done].
  intros [= <-].
  set (m := fold_left setEntry ((fun item => (sid item, item)) <$> extracted) []).
  assert (Hkeys : sid <$> (snd <$> m) = fst <$> m).
  { rewrite <- list_fmap_compose. apply Forall_fmap_ext, Forall_forall.
    intros [k item] (before & after & Heq & _)%fold_setEntry_last.
    apply fmap_app_inv in Heq as (b & rest & _ & Hrest & _).
    symmetry in Hrest. apply fmap_cons_inv in Hrest as (it & a & [= -> ->] & _). done. }
  rewrite Hkeys. apply fold_setEntry_NoDup.
Qed.

(** X18. The search. A request without query tokens is answered with no
    candidate and without a call of the upstream. What a search returns
    are candidates of the provider subhd, each with the prefixed id of its
    record, its title also as release name, and a title that passes the
    filter of the request; no id occurs twice. *)
Theorem search_results (request : NormalizedSubtitleRequest) (st : ClientState W) :
  (queryTokens request = [] -> search this request st = (inr [], st)) /\
  (forall results st',
     search this request st = (inr results, st') ->
     NoDup (c_id <$> results) /\
     Forall (fun candidate =>
               c_providerId candidate = lit "subhd" /\
               (exists id, c_id candidate = toSubhdProviderId id) /\
               c_releaseName candidate = Some (c_title candidate) /\
               matchesRequest (c_title candidate) request = true) results).
Proof.
  split.
  - intros Hnone. unfold search. by rewrite Hnone.
  - intros results st'. unfold search.
    destruct (length (queryTokens request) =? 0)%nat.
    { intros [= <- <-]. split; constructor. }
    unfold bind.
    destruct (requestText (sp_client this) (searchRequest request) st) as [[e|html] st1];
      [done|].
    destruct (looksLikeAntiBotChallenge html); [done|].
    destruct (parseSubhdSearchItems html) as [e|found] eqn:Hparse; [done|].
    cbn [liftThrown]. unfold ret. intros [= <- <-]. split.
    + rewrite <- list_fmap_compose.
      change (c_id ∘ toCandidate) with ((fun id => toSubhdProviderId id) ∘ sid).
      rewrite list_fmap_compose. apply NoDup_fmap_2.
      * intros a b Hab. by apply app_inv_head in Hab.
      * apply NoDup_fmap_filter. by apply parseSubhdSearchItems_NoDup in Hparse.
    + apply Forall_fmap, Forall_forall. intros item Hitem.
      apply list_elem_of_In, filter_In in Hitem as [_ Hmatch]. simpl.
      split; [done|]. split; [by exists (sid item)|]. done.
Qed.

(** X19. A gate page that is a challenge ends the resolution of a download plan
    there: the anti-bot error of the download gate is thrown and the
    resolution request is not made. A failure of the gate request ends it
    the same way, with that failure. *)
Theorem download_gate_challenge_stops (id sid : jsstring) (st : ClientState W) :
  parseSubhdProviderId id = inr sid ->
  (forall html st1,
     requestText (sp_client this) (gatePageRequest this sid) st = (inr html, st1) ->
     looksLikeAntiBotChallenge html = true ->
     exists e,
       getDownloadPlan this id st = (inl (ThrowApp e), st1) /\
       code e = E_UPSTREAM_BAD_RESPONSE /\
       mapGet (details e) (lit "classification") = Some (JStr (lit "anti-bot")) /\
       mapGet (details e) (lit "reason") = Some (JStr (lit "download-gate-challenge")) /\
       mapGet (details e) (lit "url") = Some (JStr (downPageUrl this sid))) /\
  (forall e st1,
     requestText (sp_client this) (gatePageRequest this sid) st = (inl e, st1) ->
     getDownloadPlan this id st = (inl e, st1)).
Proof.
  intros Hid. split.
  - intros html st1 Hgate Hchallenge. unfold getDownloadPlan. rewrite Hid. cbn [liftThrown].
    unfold bind at 1. unfold ret at 1. rewrite (bind_run _ _ _ _ _ Hgate), Hchallenge.
    eexists. split; [reflexivity|]. split; [done|]. split; [by vm_compute|].
    split; by vm_compute.
  - intros e st1 Hgate. unfold getDownloadPlan. rewrite Hid. cbn [liftThrown].
    unfold bind at 1. unfold ret at 1. unfold bind. by rewrite Hgate.
Qed.

(** X20. A resolved download plan. When the gate page came and is no challenge
    and the resolution call returns a payload with a usable url and with
    success and pass both true, the plan is returned after these two
    requests: its id is the prefixed identifier, which validates to the
    identifier again; its format is the one the extension of the resolved
    URL names, else the one the page names, else srt. *)
Theorem download_plan_fields (id sid html : jsstring) (page : SubhdDownloadPage) (base : URL)
    (payload : jsvalue) (sourceUrl : jsstring) (st st1 st2 : ClientState W) :
  parseSubhdProviderId id = inr sid ->
  requestText (sp_client this) (gatePageRequest this sid) st = (inr html, st1) ->
  looksLikeAntiBotChallenge html = false ->
  parseSubhdDownloadPage html sid = inr page ->
  newURL (sp_baseUrl this) None = Some base ->
  requestJson (sp_client this) (resolutionRequest this sid (origin base)) st1
    = (inr payload, st2) ->
  resolveSubhdDownloadUrl (sp_baseUrl this) (prop payload (lit "url")) = Some sourceUrl ->
  isTrue (prop payload (lit "success")) = true ->
  isTrue (prop payload (lit "pass")) = true ->
  let format :=
    match inferSubtitleFormatFromUrl sourceUrl with
    | Some f => f
    | None => match page_format page with Some f => f | None => srt end
    end in
  match selectFileName (fileStem page) sourceUrl format with
  | Some fileName =>
    getDownloadPlan this id st
      = (inr {| p_id := toSubhdProviderId sid; p_providerId := lit "subhd";
                p_fileName := fileName; p_sourceUrl := sourceUrl; p_format := format |}, st2) /\
    parseSubhdProviderId (toSubhdProviderId sid) = inr sid
  | None => exists e, getDownloadPlan this id st = (inl (ThrowOther e), st2)
  end.
Proof.
  intros Hid Hgate Hclean Hpage Hbase Hcall Hurl Hsuccess Hpass format.
  assert (Hrun : getDownloadPlan this id st =
            match selectFileName (fileStem page) sourceUrl format with
            | None =>
              (inl (ThrowOther {| err_isError := true; err_name := lit "URIError";
                                  err_message := lit "URI malformed" |}), st2)
            | Some fileName =>
              (inr {| p_id := toSubhdProviderId sid; p_providerId := lit "subhd";
                      p_fileName := fileName; p_sourceUrl := sourceUrl;
                      p_format := format |}, st2)
            end).
  { unfold getDownloadPlan. rewrite Hid. cbn [liftThrown].
    unfold bind at 1. unfold ret at 1.
    rewrite (bind_run _ _ _ _ _ Hgate). rewrite Hclean, Hpage. cbn [liftThrown].
    unfold bind at 1. unfold ret at 1. rewrite Hbase.
    rewrite (bind_run _ _ _ _ _ Hcall). rewrite Hurl, Hsuccess, Hpass. cbn [andb].
    fold format. destruct payload; try done; by destruct (selectFileName _ _ _). }
  rewrite Hrun. destruct (selectFileName _ _ _); [|by eexists].
  split; [done|]. apply parseSubhdProviderId_alnum in Hid as [Hne Hall].
  by apply parse_prefixed.
Qed.

End Methods.

End ProviderMore.

(** * More of the SubHD parser *)

Section ParserMore.
Import SubhdParser.
Context {U : Unicode}.

Lemma sanitizeFileStem_bounds (value : jsstring) :
  (0 < length (sanitizeFileStem value) <= 96)%nat /\
  trim (sanitizeFileStem value) = sanitizeFileStem value.
Proof.
  unfold sanitizeFileStem. cbn zeta.
  set (normalized := trim (replaceRegex _ _ _ _)).
  destruct (Nat.ltb_spec 0 (length (trim (slice normalized 0 (Some 96%Z))))) as [Hlen|Hlen].
  - split; [split; [done|]|].
    + etransitivity; [apply trim_length|]. rewrite slice_from_start_length.
      change (96 <? 0)%Z with false. cbn match. lia.
    + apply trim_trimmed_id, trim_is_trimmed.
  - split; [vm_compute; lia|by vm_compute].
Qed.

(** X21. A file stem is never empty, never longer than 96 code units, and has
    no white space at either end; of a title with nothing in it the stem is
    the word subtitle. *)
Theorem file_stem_bounds (value : jsstring) :
  (0 < length (sanitizeFileStem value) <= 96)%nat /\
  trim (sanitizeFileStem value) = sanitizeFileStem value /\
  sanitizeFileStem [] = lit "subtitle" /\
  sanitizeFileStem (lit " /:*? ") = lit "subtitle".
Proof.
  destruct (sanitizeFileStem_bounds value) as [Hlen Htrim].
  split; [exact Hlen|]. split; [exact Htrim|]. split; by vm_compute.
Qed.

Lemma extractFirstText_nonempty html patterns text :
  extractFirstText html patterns = Some (Some text) ->
  (0 < length text)%nat /\ trim text = text.
Proof.
  induction patterns as [|pattern rest IH]; simpl; [done|].
  destruct (exec true pattern html) as [[? ? [captured|] ? ?]|]; try done.
  unfold cleanText. destruct (decodeHtmlEntities captured) as [decoded|]; [|done].
  destruct (Nat.ltb_spec 0 (length (collapseWhitespace
              (replaceRegex false (RSeqs [RChar 60; RStar true notGt; RChar 62])
                 (fun _ => lit " ") decoded)))) as [Hlen|Hlen]; [|done].
  intros [= <-]. split; [done|]. unfold collapseWhitespace.
  apply trim_trimmed_id, trim_is_trimmed.
Qed.

(** X22. What is read off a download page: the identifier asked for, a title
    that is not empty (the heading of the page, or subhd- and the
    identifier when the page has none), and the file stem made of the
    title, not empty and at most 96 code units long. *)
Theorem download_page_shape (html sid : jsstring) (page : SubhdDownloadPage) :
  parseSubhdDownloadPage html sid = inr page ->
  page_sid page = sid /\
  page_title page <> [] /\
  fileStem page = sanitizeFileStem (page_title page) /\
  (0 < length (fileStem page) <= 96)%nat.
Proof.
  unfold parseSubhdDownloadPage.
  destruct (extractFirstText html _) as [found|] eqn:Htitle; [|done].
  destruct (extractFirstText html [_]) as [foundCell|]; [|done].
  intros [= <-]. cbn [page_sid page_title fileStem].
  split; [done|]. split; [|split; [done|apply sanitizeFileStem_bounds]].
  destruct found as [text|].
  - apply extractFirstText_nonempty in Htitle as [Hlen _]. intros E. rewrite E in Hlen.
    simpl in Hlen. lia.
  - intros E. discriminate E.
Qed.

Lemma cardItems_Forall (P : SubhdSearchItem -> Prop) cards extracted :
  (forall card item, parseCard card = Some (Some item) -> P item) ->
  cardItems cards = Some extracted -> Forall P extracted.
Proof.
  intros HP. revert extracted. induction cards as [|card cards IH]; simpl; intros extracted.
  - intros [= <-]. constructor.
  - destruct (parseCard card) as [[item|]|] eqn:Hcard; [| |done].
    + destruct (cardItems cards) as [rest|]; [|done]. intros [= <-].
      constructor; [by eapply HP|by apply IH].
    + apply IH.
Qed.

Lemma parseSubhdSearchItems_Forall (P : SubhdSearchItem -> Prop) html found :
  (forall card item, parseCard card = Some (Some item) -> P item) ->
  parseSubhdSearchItems html = inr found -> Forall P found.
Proof.
  intros HP. unfold parseSubhdSearchItems. fold (cardsOf html). fold cardStep.
  rewrite fold_cardStep. destruct (cardItems (cardsOf html)) as [extracted|] eqn:Hcards; [|done].
  intros [= <-]. apply (cardItems_Forall P) in Hcards; [|exact HP].
  apply Forall_fmap, Forall_forall. intros [k item] (before & after & Heq & _)%fold_setEntry_last.
  apply fmap_app_inv in Heq as (b & rest & _ & Hrest & ->).
  symmetry in Hrest. apply fmap_cons_inv in Hrest as (it & a & [= -> ->] & -> & ->).
  simpl. apply Forall_app in Hcards as [_ Hcards]. by apply Forall_cons in Hcards as [? _].
Qed.

(** X23. Every record of the search results has a title that is not empty, one
    of the four language codes zh-cn, zh-tw, en and zh, and a
    hearing-impaired flag that is either set or absent, never false. *)
Theorem search_item_fields (html : jsstring) (found : list SubhdSearchItem) :
  parseSubhdSearchItems html = inr found ->
  Forall (fun item =>
            title item <> [] /\
            language item ∈ [lit "zh-cn"; lit "zh-tw"; lit "en"; lit "zh"] /\
            hearingImpaired item <> Some false) found.
Proof.
  apply parseSubhdSearchItems_Forall. intros card item. unfold parseCard.
  destruct (extractSubhdSid card) as [id|]; [|done].
  destruct (extractFirstText card titlePatterns) as [foundTitle|] eqn:Htitle; [|done].
  destruct (extractFirstText card [languageLinePattern]) as [foundLine|]; [|done].
  intros [= <-]. cbn [title language hearingImpaired]. split; [|split].
  - destruct foundTitle as [text|].
    + apply extractFirstText_nonempty in Htitle as [Hlen _]. intros E. rewrite E in Hlen.
      simpl in Hlen. lia.
    + intros E. discriminate E.
  - unfold inferLanguage. repeat case_match; repeat constructor.
  - by case_match.
Qed.

End ParserMore.

Section BackoffFacts.
Import UpstreamClient.

(** X11. The backoff before attempt number n + 1: the base for the first
    attempt (and for any attempt number below 1), never less for a later
    attempt, never more than the cap, and twice the previous one, cut at
    the cap, while the previous one is below the cap. *)
Theorem backoff_doubles_to_cap (baseMs maxMs attempt : Z) :
  (0 < baseMs)%Z -> (1 <= attempt)%Z ->
  computeBackoff baseMs maxMs 1 = Z.min maxMs baseMs /\
  computeBackoff baseMs maxMs (1 - attempt) = computeBackoff baseMs maxMs 1 /\
  (computeBackoff baseMs maxMs attempt <= computeBackoff baseMs maxMs (attempt + 1))%Z /\
  (computeBackoff baseMs maxMs attempt <= maxMs)%Z /\
  ((computeBackoff baseMs maxMs attempt < maxMs)%Z ->
   computeBackoff baseMs maxMs (attempt + 1)
   = Z.min maxMs (2 * computeBackoff baseMs maxMs attempt)).
Proof.
  intros Hbase Hattempt. unfold computeBackoff.
  replace (Z.max 0 (1 - 1)) with 0%Z by lia.
  replace (Z.max 0 (1 - attempt - 1)) with 0%Z by lia.
  replace (Z.max 0 (attempt - 1)) with (attempt - 1)%Z by lia.
  replace (Z.max 0 (attempt + 1 - 1)) with (Z.succ (attempt - 1)) by lia.
  rewrite Z.pow_succ_r by lia. rewrite Z.pow_0_r, Z.mul_1_r.
  assert (0 < 2 ^ (attempt - 1))%Z by (apply Z.pow_pos_nonneg; lia).
  assert (0 < baseMs * 2 ^ (attempt - 1))%Z by lia.
  repeat split; lia.
Qed.

End BackoffFacts.

Section SetCookieFacts.
Import UpstreamClient.
Context {U : Unicode}.

Lemma splitCombinedLoop_parts (P : jsstring -> Prop) raw parts buffer insideExpires :
  (forall text, (0 < length (trim text))%nat -> P (trim text)) ->
  Forall P parts -> Forall P (splitCombinedLoop raw parts buffer insideExpires).
Proof.
  intros HP. revert parts buffer insideExpires.
  induction raw as [|char rest IH]; intros parts buffer insideExpires Hparts; simpl.
  - destruct (Nat.ltb_spec 0 (length (trim buffer))); [|done].
    apply Forall_app. split; [done|]. repeat constructor. by apply HP.
  - destruct ((char =? 44)%N && negb _).
    + apply IH. destruct (Nat.ltb_spec 0 (length (trim buffer))); [|done].
      apply Forall_app. split; [done|]. repeat constructor. by apply HP.
    + by apply IH.
Qed.

Lemma splitCombinedLoop_no_comma raw parts buffer insideExpires :
  Forall (fun char => char <> 44%N) raw ->
  splitCombinedLoop raw parts buffer insideExpires
  = if (0 <? length (trim (buffer ++ raw)))%nat then parts ++ [trim (buffer ++ raw)]
    else parts.
Proof.
  revert buffer insideExpires. induction raw as [|char rest IH];
    intros buffer insideExpires Hraw; simpl.
  - by rewrite app_nil_r.
  - apply Forall_cons in Hraw as [Hchar Hrest].
    rewrite (proj2 (N.eqb_neq char 44) Hchar). cbn [andb].
    rewrite IH by done. by rewrite <- app_assoc.
Qed.

(** X14. The cookies read out of a combined Set-Cookie header are never empty
    and have no white space at either end; a header without a comma is one
    cookie, the header trimmed, or none when it is blank. *)
Theorem combined_set_cookie_parts (raw : jsstring) :
  Forall (fun cookie => cookie <> [] /\ trim cookie = cookie)
         (splitCombinedSetCookieHeader raw) /\
  (Forall (fun char => char <> 44%N) raw ->
   splitCombinedSetCookieHeader raw = if (0 <? length (trim raw))%nat then [trim raw] else []).
Proof.
  split.
  - apply splitCombinedLoop_parts; [|constructor].
    intros text Hlen. split; [intros E; rewrite E in Hlen; simpl in Hlen; lia|].
    apply trim_trimmed_id, trim_is_trimmed.
  - intros Hraw. unfold splitCombinedSetCookieHeader.
    by rewrite splitCombinedLoop_no_comma.
Qed.

End SetCookieFacts.

(** * The score *)

Section ScoreFacts.
Import RequestNormalization Ranking.
Context {U : Unicode} {Nm : Numeric}.

Lemma overlap_count_bounds (titleTokens tokens : list jsstring) (start : Z) :
  (start <=
   fold_left (fun count token => count + (if setHas titleTokens token then 1 else 0))
             tokens start
   <= start + Z.of_nat (length tokens))%Z.
Proof.
  revert start. induction tokens as [|token tokens IH]; intros start; simpl; [lia|].
  specialize (IH (start + (if setHas titleTokens token then 1 else 0))%Z).
  destruct (setHas titleTokens token); lia.
Qed.

Lemma overlap_ratio_bounds (count len : Z) :
  (0 <= count <= len)%Z -> (0 < len)%Z ->
  (0 <= inject_Z count / inject_Z len <= 1)%Q.
Proof.
  intros Hcount Hlen.
  assert (Hpos : (0 < inject_Z len)%Q) by (unfold Qlt; simpl; lia).
  split.
  - apply Qle_shift_div_l; [exact Hpos|]. rewrite Qmult_0_l. unfold Qle. simpl. lia.
  - apply Qle_shift_div_r; [exact Hpos|]. rewrite Qmult_1_l. unfold Qle. simpl. lia.
Qed.

Lemma roundScore_le (value : Q) (bound : Z) :
  (0 <= bound)%Z -> (value <= inject_Z bound)%Q ->
  (roundScore value <= bound * 1000000)%Z.
Proof.
  intros Hbound Hvalue. unfold roundScore, scaledDigits.
  assert (Hfloor : (0 <= Qfloor (Qabs value * inject_Z (10 ^ Z.of_nat 6) + (1 # 2)))%Z).
  { rewrite <- (Qfloor_Z 0). apply Qfloor_resp_le.
    pose proof (Qabs_nonneg value). change (10 ^ Z.of_nat 6)%Z with 1000000%Z.
    assert (0 <= Qabs value * inject_Z 1000000)%Q.
    { apply Qmult_le_0_compat; [done|]. unfold Qle. simpl. lia. }
    set (x := (Qabs value * inject_Z 1000000)%Q) in *. change (inject_Z 0) with 0%Q. lra. }
  destruct (Qlt_le_dec value 0) as [Hneg|Hpos]; [lia|].
  rewrite Qabs_pos by exact Hpos. change (10 ^ Z.of_nat 6)%Z with 1000000%Z.
  replace (bound * 1000000)%Z with (Qfloor (inject_Z bound * inject_Z 1000000 + (1 # 2))).
  - apply Qfloor_resp_le.
    assert (value * inject_Z 1000000 <= inject_Z bound * inject_Z 1000000)%Q.
    { apply Qmult_le_compat_r; [exact Hvalue|]. unfold Qle. simpl. lia. }
    set (x := (value * inject_Z 1000000)%Q) in *.
    set (y := (inject_Z bound * inject_Z 1000000)%Q) in *. lra.
  - rewrite <- inject_Z_mult. unfold Qfloor, Qplus, inject_Z. simpl.
    symmetry. apply Z.div_unique with (r := 1%Z); lia.
Qed.

(** X3. No candidate scores more than 125: 60 for the query, 30 for the
    language, 12 for the provider, 15 for the downloads and 8 for the
    format. The scored record carries the candidate as it was given. The
    scoring throws, the TypeError of the missing toFixed, exactly when the
    provider id names a member of Object.prototype. *)
Theorem score_at_most_125 (request : NormalizedSubtitleRequest)
    (candidate : ProviderSubtitleResult) :
  match scoreSubtitleCandidate request candidate with
  | inr scored =>
    (s_score scored <= 125 * 1000000)%Z /\
    s_candidate scored = candidate /\
    c_providerId candidate ∉ prototypeNames
  | inl error =>
    error = noToFixed /\ c_providerId candidate ∈ prototypeNames
  end.
Proof.
  destruct (scoreSubtitleCandidate request candidate) as [error|scored] eqn:Hrun;
    [by apply score_inl in Hrun|].
  split; [|split; [by apply score_candidate in Hrun|]].
  2:{ intros Hname. by rewrite (score_throws request candidate Hname) in Hrun. }
  revert Hrun. unfold scoreSubtitleCandidate.
  pose proof (overlap_count_bounds (newSet (tokenize (c_title candidate)))
                (queryTokens request) 0) as Hcount.
  set (count := fold_left _ (queryTokens request) 0%Z) in *.
  pose proof (provider_boost_cases (c_providerId candidate)) as Hboost.
  pose proof (Q.le_min_l 15 (log10 (inject_Z (Z.of_N (c_downloads candidate) + 1)) * 5))
    as Hdownloads.
  set (downloads := Qmin _ _) in *.
  assert (Hratio : (0 < length (queryTokens request))%nat ->
            (inject_Z count / inject_Z (Z.of_nat (length (queryTokens request))) <= 1)%Q).
  { intros Hlen. apply overlap_ratio_bounds; lia. }
  set (ratio := (inject_Z count / _)%Q) in *.
  destruct (objectGet PROVIDER_PRIORITY_BOOST (c_providerId candidate)) as [boost|m|];
    [|by repeat case_match|];
    (destruct (Nat.ltb_spec 0 (length (queryTokens request))) as [Hlen|Hlen];
     [specialize (Hratio Hlen)|clear Hratio]);
    cbv beta iota zeta;
    repeat (match goal with
            | |- context [if ?c then _ else _] => destruct c
            | |- context [match c_format candidate with _ => _ end] =>
              destruct (c_format candidate)
            | |- context [match c_hearingImpaired candidate with _ => _ end] =>
              destruct (c_hearingImpaired candidate) as [[|]|]
            end; cbv beta iota zeta);
    intros [= <-]; cbn [s_score]; apply (roundScore_le _ 125); try lia;
    change (inject_Z 125) with 125%Q;
    try (destruct Hboost as [[Hboost|Hboost] _]; rewrite Hboost); lra.
Qed.

End ScoreFacts.
(** * A host for the examples

    Case mapping for the ASCII letters; letters and digits are the ASCII
    ones and the CJK unified ideographs; the collation compares code units
    after canonical decomposition (tabulated for U+00E9), so it is zero on
    the canonically equivalent spellings of that letter, as ECMA-262 asks
    of localeCompare. *)

Definition sampleLetterOrNumber (c : N) : bool :=
  isAsciiAlnum c || inRange 0x4E00 0x9FFF c.
Definition decompose (c : N) : jsstring :=
  if (c =? 0xE9)%N then [0x65; 0x301]%N else [c].
Definition canonicalForm (s : jsstring) : jsstring := s ≫= decompose.

Fixpoint compareUnits (a b : jsstring) : Z :=
  match a, b with
  | [], [] => 0
  | [], _ :: _ => -1
  | _ :: _, [] => 1
  | x :: a', y :: b' =>
    if (x <? y)%N then -1 else if (y <? x)%N then 1 else compareUnits a' b'
  end.

Definition sampleCompare (a b : jsstring) : Z :=
  compareUnits (canonicalForm a) (canonicalForm b).

Lemma compareUnits_sgn a b :
  Z.sgn (compareUnits b a) = (- Z.sgn (compareUnits a b))%Z.
Proof.
  revert b. induction a as [|x a IH]; intros [|y b]; simpl; try done.
  destruct (N.ltb_spec x y), (N.ltb_spec y x); simpl; try lia.
  apply IH.
Qed.

Lemma compareUnits_trans a b c :
  (compareUnits a b <= 0)%Z -> (compareUnits b c <= 0)%Z -> (compareUnits a c <= 0)%Z.
Proof.
  revert b c. induction a as [|x a IH]; intros [|y b] [|z c]; simpl; try lia.
  destruct (N.ltb_spec x y), (N.ltb_spec y x), (N.ltb_spec y z), (N.ltb_spec z y),
           (N.ltb_spec x z), (N.ltb_spec z x); try lia.
  apply IH.
Qed.

(** A stand-in for Math.log10 on numbers from 1 up: the integer part is
    exact, the fraction is interpolated linearly. *)
Definition sampleLog10 (q : Q) : Q :=
  let k := (Z.log2 (Qfloor q) * 3 / 10)%Z in
  let k := if (10 ^ (k + 1) <=? Qfloor q)%Z then (k + 1)%Z else k in
  (inject_Z k + (q / inject_Z (10 ^ k) - 1) / 9)%Q.

Instance sampleUnicode : Unicode := {|
  toLowerCase := fmap asciiLower;
  toUpperCase := fmap asciiUpper;
  isLetterOrNumber := sampleLetterOrNumber;
  localeCompare := sampleCompare;
  localeCompare_sgn := fun a b => compareUnits_sgn (canonicalForm a) (canonicalForm b);
  localeCompare_trans := fun a b c =>
    compareUnits_trans (canonicalForm a) (canonicalForm b) (canonicalForm c)
|}.

Instance sampleNumeric : Numeric := {| log10 := sampleLog10 |}.

(** A URL parser for the examples: scheme, host and path, no port, query or
    fragment; a relative input replaces the path of the base. *)
Definition sampleAbsolute (s : jsstring) : option URL :=
  let i := indexOf s (lit "://") in
  if (i <? 1)%Z then None
  else
    let scheme := asciiLower <$> slice s 0 (Some i) in
    let rest := slice s (i + 3) None in
    let j := indexOf rest (lit "/") in
    let host := if (j <? 0)%Z then rest else slice rest 0 (Some j) in
    let path := if (j <? 0)%Z then lit "/" else slice rest j None in
    if (length host =? 0)%nat then None
    else Some {| href := scheme ++ lit "://" ++ host ++ path;
                 origin := scheme ++ lit "://" ++ host;
                 pathname := path |}.

Definition sampleNewURL (input : jsstring) (base : option jsstring) : option URL :=
  match sampleAbsolute input with
  | Some url => Some url
  | None =>
    match base with
    | None => None
    | Some b =>
      match sampleAbsolute b with
      | None => None
      | Some u =>
        sampleAbsolute
          (origin u ++ (if startsWith input (lit "/") then [] else lit "/") ++ input)
      end
    end
  end.

Fixpoint sampleStringify (v : jsvalue) : jsstring :=
  match v with
  | JUndefined => lit "undefined"
  | JNull => lit "null"
  | JBool true => lit "true"
  | JBool false => lit "false"
  | JNum (Finite q) => stringOfZ (Qfloor q)
  | JNum _ => lit "null"
  | JStr s => [34%N] ++ s ++ [34%N]
  | JObj fields =>
    lit "{" ++
    join (lit ",")
      ((fix entries (l : list (jsstring * jsvalue)) : list jsstring :=
          match l with
          | [] => []
          | (k, x) :: t => ([34%N] ++ k ++ [34%N; 58%N] ++ sampleStringify x) :: entries t
          end) fields)
    ++ lit "}"
  end.

(** Percent-coding is the identity on the names the examples use, and the
    numbers they print are integers. *)
Instance sampleWeb : Web := {|
  newURL := sampleNewURL;
  encodeURIComponent := fun s => s;
  decodeURIComponent := fun s => Some s;
  jsonStringify := sampleStringify
|}.

(** * Examples: ranking and normalization *)

Section RankingExamples.
Import RequestNormalization Ranking.
Local Open Scope string_scope.
Local Open Scope list_scope.

Definition sampleCandidate (id : jsstring) (provider title language : string)
    (format : SubtitleFormat) (downloads : N) : ProviderSubtitleResult :=
  {| c_id := id; c_providerId := lit provider; c_title := lit title;
     c_language := lit language; c_format := format; c_downloads := downloads;
     c_hearingImpaired := None; c_releaseName := None |}.

(** The candidates of test/ranking.determinism.test.ts. *)
Definition CANDIDATES : list ProviderSubtitleResult :=
  [ sampleCandidate (lit "assrt-1001") "assrt" "The Matrix (1999) 1080p BluRay" "en" srt 1500;
    sampleCandidate (lit "assrt-1002") "assrt" "The Matrix (1999) 蓝光版" "zh-cn" srt 2100;
    sampleCandidate (lit "subhd:xD0xeo") "subhd" "The Matrix (1999) UHD BluRay" "zh-cn" ass 1100;
    sampleCandidate (lit "assrt-1003") "assrt" "The Matrix (1999) 繁中字幕" "zh-tw" ass 900 ].

Definition sampleInput (languages : list jsstring) : SubtitleRequestInput :=
  {| in_query := lit "The Matrix"; in_year := Some 1999%Z; in_season := None;
     in_episode := None; in_languages := Some languages |}.

(** The request a normalization comes to, or the preferences it stopped
    at. *)
Definition normalization (n : Normalization) : Type :=
  match n with
  | Normalized _ => NormalizedSubtitleRequest
  | EngineDefined _ => list LanguageValue
  end.
Definition normalized (n : Normalization) : normalization n :=
  match n with
  | Normalized request => request
  | EngineDefined preferences => preferences
  end.

(** The request of the second test of test/ranking.determinism.test.ts. *)
Definition sampleRequest : NormalizedSubtitleRequest :=
  normalized (normalizeSubtitleRequest (sampleInput [lit "zh-cn"; lit "en"])).

(** The first test of that file. *)
Lemma normalizes_request_into_stable_fingerprint :
  normalizeSubtitleRequest
    {| in_query := lit "   The   Matrix   "; in_year := Some 1999%Z; in_season := None;
       in_episode := None;
       in_languages := Some [lit "EN"; lit "eng"; lit "chs"; lit "zh-cn"] |}
  = Normalized
      {| query := lit "The Matrix";
         normalizedQuery := lit "the matrix";
         queryTokens := [lit "matrix"; lit "the"];
         year := Some 1999%Z; season := None; episode := None;
         languagePreferences := [lit "en"; lit "zh-cn"];
         fingerprint := lit "the matrix|1999|||en,zh-cn" |}.
Proof. by vm_compute. Qed.

(** The two spellings of e with acute accent: one code unit, and the letter
    followed by the combining accent. *)
Definition precomposed : jsstring := [0xE9%N].
Definition decomposed : jsstring := [0x65%N; 0x301%N].

Definition candidateX : ProviderSubtitleResult :=
  sampleCandidate precomposed "subhd" "The Matrix" "en" srt 10.
Definition candidateY : ProviderSubtitleResult :=
  sampleCandidate decomposed "subhd" "The Matrix" "en" srt 10.
Definition candidateF : ProviderSubtitleResult :=
  sampleCandidate (lit "f") "subhd" "The Matrix" "en" srt 10.

(** A candidate of a provider that calls itself constructor. *)
Definition candidateC : ProviderSubtitleResult :=
  sampleCandidate (lit "c-1") "constructor" "The Matrix" "en" srt 10.

(** The ids of a ranking, or nothing when the ranking threw. *)
Definition rankedIds (ranking : Thrown + list RankedSubtitleResult)
  : option (list jsstring) :=
  match ranking with
  | inr ranked => Some ((fun r => c_id (r_candidate r)) <$> ranked)
  | inl _ => None
  end.
Definition rankedScores (ranking : Thrown + list RankedSubtitleResult) : option (list Z) :=
  match ranking with
  | inr ranked => Some (r_score <$> ranked)
  | inl _ => None
  end.

(** The second test of that file: the candidates and their reversal rank
    alike, the SubHD candidate first. *)
Lemma returns_deterministic_ranking_of_the_test_candidates :
  rankedIds (rankSubtitleCandidates sampleRequest CANDIDATES (Some 3%Z))
    = Some [lit "subhd:xD0xeo"; lit "assrt-1002"; lit "assrt-1001"] /\
  rankedIds (rankSubtitleCandidates sampleRequest (rev CANDIDATES) (Some 3%Z))
    = rankedIds (rankSubtitleCandidates sampleRequest CANDIDATES (Some 3%Z)) /\
  rankedScores (rankSubtitleCandidates sampleRequest (rev CANDIDATES) (Some 3%Z))
    = rankedScores (rankSubtitleCandidates sampleRequest CANDIDATES (Some 3%Z)).
Proof. repeat split; by vm_compute. Qed.

(** C1. The two candidates differ only in the spelling of the id, the
    collation does not tell the spellings apart, and the ranking returns
    them in the order in which it received them: the ranking of a list and
    the ranking of its reversal differ. *)
Lemma rank_follows_input_order_of_equivalent_ids :
  Permutation [candidateX; candidateY] [candidateY; candidateX] /\
  rev [candidateX; candidateY] = [candidateY; candidateX] /\
  localeCompare precomposed decomposed = 0%Z /\
  rankedIds (rankSubtitleCandidates sampleRequest [candidateX; candidateY] None)
    = Some [precomposed; decomposed] /\
  rankedIds (rankSubtitleCandidates sampleRequest [candidateY; candidateX] None)
    = Some [decomposed; precomposed] /\
  precomposed <> decomposed.
Proof.
  split; [apply perm_swap|]. split; [reflexivity|]. split; [reflexivity|].
  split; [by vm_compute|]. split; [by vm_compute|]. discriminate.
Qed.

(** Two candidates that differ only in their ids, the letter f and the
    precomposed e with acute accent. In the order of the code units f
    (U+0066) comes before the accented letter (U+00E9); the ranking puts
    the accented letter first, where the collation has it, in whichever
    order the candidates are given. *)
Lemma rank_orders_ids_by_collation :
  compareUnits (lit "f") precomposed = (-1)%Z /\
  localeCompare precomposed (lit "f") = (-1)%Z /\
  rankedIds (rankSubtitleCandidates sampleRequest [candidateF; candidateX] None)
    = Some [precomposed; lit "f"] /\
  rankedIds (rankSubtitleCandidates sampleRequest [candidateX; candidateF] None)
    = Some [precomposed; lit "f"] /\
  rankedScores (rankSubtitleCandidates sampleRequest [candidateF; candidateX] None)
    = Some [105055556; 105055556]%Z.
Proof. repeat split; by vm_compute. Qed.

Lemma rank_sorted_truncated_numbered_witness :
  (exists ordered,
     StronglySorted rankedBefore ordered /\
     rankSubtitleCandidates sampleRequest CANDIDATES (Some 3%Z)
       = inr (imap withRank (take 3 ordered)) /\
     rankedIds (rankSubtitleCandidates sampleRequest CANDIDATES (Some 3%Z))
       = Some [lit "subhd:xD0xeo"; lit "assrt-1002"; lit "assrt-1001"]) /\
  rankSubtitleCandidates sampleRequest (CANDIDATES ++ [candidateC]) (Some 3%Z)
    = inl noToFixed.
Proof.
  destruct (rank_sorted_truncated_numbered sampleRequest CANDIDATES (Some 3%Z))
    as (Hreturns & _ & _).
  destruct (rank_sorted_truncated_numbered sampleRequest (CANDIDATES ++ [candidateC])
              (Some 3%Z)) as (_ & _ & Hthrows).
  split.
  - destruct Hreturns as (scored & ordered & _ & _ & Hsorted & _ & Hcut & _).
    { repeat constructor; apply (bool_decide_eq_true_1 (_ ∉ _)); by vm_compute. }
    exists ordered. split; [exact Hsorted|]. split; [|by vm_compute].
    apply (Hcut 3%Z); [reflexivity|lia].
  - apply (Hthrows candidateC).
    + apply elem_of_app. right. apply list_elem_of_here.
    + apply (bool_decide_eq_true_1 (_ ∈ _)). by vm_compute.
Defined.

(** C6. The same two language tags in the two orders: the collation ties
    them, the sort keeps the order of arrival, and the fingerprints
    differ. *)
Lemma fingerprint_follows_order_of_equivalent_tags :
  Permutation [precomposed; decomposed] [decomposed; precomposed] /\
  localeCompare precomposed decomposed = 0%Z /\
  (exists request,
     normalizeSubtitleRequest (sampleInput [precomposed; decomposed]) = Normalized request /\
     fingerprint request = lit "the matrix|1999|||" ++ precomposed ++ lit "," ++ decomposed) /\
  (exists request,
     normalizeSubtitleRequest (sampleInput [decomposed; precomposed]) = Normalized request /\
     fingerprint request = lit "the matrix|1999|||" ++ decomposed ++ lit "," ++ precomposed) /\
  lit "the matrix|1999|||" ++ precomposed ++ lit "," ++ decomposed
    <> lit "the matrix|1999|||" ++ decomposed ++ lit "," ++ precomposed.
Proof.
  split; [apply perm_swap|]. split; [reflexivity|].
  split; [eexists; split; by vm_compute|].
  split; [eexists; split; by vm_compute|]. by vm_compute.
Qed.

(** The test's own languages in two orders, the codes told apart by the
    collation: one fingerprint. *)
Lemma fingerprint_of_the_test_languages :
  exists request request',
    normalizeSubtitleRequest
      (withLanguages (sampleInput []) [lit "EN"; lit "eng"; lit "chs"; lit "zh-cn"])
      = Normalized request /\
    normalizeSubtitleRequest
      (withLanguages (sampleInput []) [lit "zh-cn"; lit "chs"; lit "EN"; lit "eng"])
      = Normalized request' /\
    fingerprint request' = fingerprint request /\
    fingerprint request = lit "the matrix|1999|||en,zh-cn".
Proof.
  destruct (fingerprint_of_separated_codes (sampleInput [])
              [lit "EN"; lit "eng"; lit "chs"; lit "zh-cn"]
              [lit "zh-cn"; lit "chs"; lit "EN"; lit "eng"]
              [lit "en"; lit "zh-cn"])
    as (request & request' & Hrun & Hrun' & Hsame & Hprint & _).
  - change [lit "zh-cn"; lit "chs"; lit "EN"; lit "eng"]
      with (rev [lit "eng"; lit "EN"; lit "chs"; lit "zh-cn"]).
    etransitivity; [|apply Permutation_rev].
    apply perm_swap.
  - by vm_compute.
  - intros a b Ha Hb. revert b Hb. revert a Ha.
    apply (proj1 (Forall_forall (fun a => forall b, b ∈ [lit "en"; lit "zh-cn"] ->
             localeCompare a b = 0%Z -> a = b) [lit "en"; lit "zh-cn"])).
    repeat constructor;
      apply (proj1 (Forall_forall (fun b => localeCompare _ b = 0%Z -> _ = b)
                      [lit "en"; lit "zh-cn"]));
      repeat constructor; vm_compute; congruence.
  - exists request, request'. split; [exact Hrun|]. split; [exact Hrun'|].
    split; [exact Hsame|]. rewrite Hprint. by vm_compute.
Qed.

(** A language list with the word constructor: the preference list holds
    the function that word reads in the alias table, and the word __proto__
    is dropped. *)
Lemma language_named_constructor :
  normalizeLanguages [lit "en"; lit "Constructor"; lit "__proto__"]
    = [LanguageTag (lit "en"); LanguageMember member_constructor] /\
  normalizeSubtitleRequest (sampleInput [lit "en"; lit "Constructor"; lit "__proto__"])
    = EngineDefined [LanguageTag (lit "en"); LanguageMember member_constructor].
Proof. split; by vm_compute. Qed.

(** A heap with two candidate records and the array that holds them. *)
Definition sampleHeap : list object :=
  [ OCandidate (sampleCandidate (lit "a") "subhd" "The Matrix" "en" srt 1);
    OCandidate (sampleCandidate (lit "b") "subhd" "The Matrix" "en" srt 5);
    OArray [0; 1]%nat ].

(** The same with a third candidate, of the provider called constructor. *)
Definition throwingHeap : list object :=
  [ OCandidate (sampleCandidate (lit "a") "subhd" "The Matrix" "en" srt 1);
    OCandidate (sampleCandidate (lit "b") "subhd" "The Matrix" "en" srt 5);
    OCandidate candidateC;
    OArray [0; 1; 2]%nat ].

Lemma rank_does_not_mutate_witness :
  (exists result ext rankedItems,
     rankSubtitleCandidatesH sampleRequest 2%nat None sampleHeap
       = (inr result, sampleHeap ++ ext) /\
     (sampleHeap ++ ext) !! 2%nat = Some (OArray [0; 1]%nat) /\
     (sampleHeap ++ ext) !! result = Some (OArray rankedItems) /\
     (length sampleHeap <= result)%nat /\
     length rankedItems = 2%nat) /\
  (exists ext,
     rankSubtitleCandidatesH sampleRequest 3%nat None throwingHeap
       = (inl (Raised noToFixed), throwingHeap ++ ext) /\
     (throwingHeap ++ ext) !! 3%nat = Some (OArray [0; 1; 2]%nat) /\
     (throwingHeap ++ ext) !! 2%nat = Some (OCandidate candidateC)).
Proof.
  split.
  - destruct (rank_does_not_mutate sampleRequest sampleHeap 2%nat [0; 1]%nat
                [ sampleCandidate (lit "a") "subhd" "The Matrix" "en" srt 1;
                  sampleCandidate (lit "b") "subhd" "The Matrix" "en" srt 5 ] None)
      as (outcome & ext & Hrun & Harray & _ & Hend).
    + reflexivity.
    + repeat constructor.
    + destruct outcome as [error|result].
      * exfalso. destruct Hend as (_ & _ & Hname).
        apply Exists_exists in Hname as (c & Hc & Hname).
        repeat (apply elem_of_cons in Hc as [->|Hc];
                [apply (bool_decide_eq_true_2 (_ ∈ _)) in Hname; by vm_compute in Hname|]).
        by apply elem_of_nil in Hc.
      * destruct Hend as (rankedItems & ranked & Hpure & Hresult & Hfresh & _ & Hranked & _).
        exists result, ext, rankedItems. repeat split; try assumption.
        apply Forall2_length in Hranked. rewrite Hranked.
        apply (f_equal (fun r => match r with inr l => length l | inl _ => 0%nat end)) in Hpure.
        rewrite <- Hpure. by vm_compute.
  - destruct (rank_does_not_mutate sampleRequest throwingHeap 3%nat [0; 1; 2]%nat
                [ sampleCandidate (lit "a") "subhd" "The Matrix" "en" srt 1;
                  sampleCandidate (lit "b") "subhd" "The Matrix" "en" srt 5;
                  candidateC ] None)
      as (outcome & ext & Hrun & Harray & Hcands & Hend).
    + reflexivity.
    + repeat constructor.
    + destruct outcome as [error|result].
      * destruct Hend as (-> & _). exists ext. split; [exact Hrun|]. split; [exact Harray|].
        inversion Hcands as [|? ? ? ? _ Hrest]; subst.
        inversion Hrest as [|? ? ? ? _ Hrest']; subst.
        inversion Hrest' as [|? ? ? ? Hc _]; subst. exact Hc.
      * exfalso. destruct Hend as (rankedItems & ranked & Hpure & _).
        by vm_compute in Hpure.
Defined.

End RankingExamples.

(** * Examples: the upstream client *)

Section ClientExamples.
Import UpstreamClient.
Local Open Scope string_scope.
Local Open Scope list_scope.

Definition sampleResponse (status : Z) (cookies : list string) (text : string) : Response :=
  {| resp_url := lit "https://subhd.test/";
     resp_status := status;
     resp_headers := WithGetSetCookie (lit <$> cookies);
     resp_text := inr (lit text);
     resp_json := inr JNull |}.

(** The world of the examples counts the calls of the transport. *)
Definition sampleOptions (transport : FetchRequest -> nat -> FetchResult * nat)
    (retries : option jsnumber) : UpstreamClientOptions nat :=
  {| o_providerId := lit "subhd"; o_baseUrl := lit "https://subhd.test";
     o_timeoutMs := None; o_retries := retries; o_backoffMs := None;
     o_maxBackoffMs := None; o_fetchImpl := transport; o_userAgent := None |}.

(** The client the constructor returns, or what it throws. *)
Definition outcome {A : Type} (r : Thrown + A) : Type :=
  match r with
  | inr _ => A
  | inl _ => Thrown
  end.
Definition returned {A : Type} (r : Thrown + A) : outcome r :=
  match r with
  | inr a => a
  | inl e => e
  end.
Definition constructed (options : UpstreamClientOptions nat) : outcome (newClient options) :=
  returned (newClient options).


Definition getPath (path : string) : UpstreamRequestOptions :=
  {| pathOrUrl := lit path; method := None; headers := []; body := None |}.

Definition sampleUrl (path : string) : URL :=
  {| href := lit "https://subhd.test" ++ lit path;
     origin := lit "https://subhd.test";
     pathname := lit path |}.

(** Three transports that never succeed: the server is busy, the network is
    down, the timer aborts the call. *)
Definition alwaysBusy (request : FetchRequest) (calls : nat) : FetchResult * nat :=
  (Fulfilled (sampleResponse 503 [] "busy"), S calls).

Definition busyClient : Client nat := constructed (sampleOptions alwaysBusy (Some (integer 2))).



Definition rateLimited (request : FetchRequest) (calls : nat) : FetchResult * nat :=
  (Fulfilled (sampleResponse 429 [] "too many requests"), S calls).

Definition limitedClient : Client nat :=
  constructed (sampleOptions rateLimited (Some (integer 0))).

Lemma classification_first_match_witness :
  classifyResponse 429 (lit "slow down") = RateLimit /\
  classifyResponse 500 (lit "Rate  Limit exceeded") = RateLimit /\
  classifyResponse 403 (lit "forbidden") = AntiBot /\
  classifyResponse 500 (lit "Attention Required! | Cloudflare") = AntiBot /\
  classifyResponse 503 (lit "Please solve the CAPTCHA") = AntiBot /\
  classifyResponse 502 (lit "请输入验证码") = AntiBot /\
  classifyResponse 404 (lit "not found") = BadResponse /\
  exists e st',
    request limitedClient (getPath "/search/x") (initialState 0%nat) = (inl (ThrowApp e), st') /\
    code e = E_UPSTREAM_BAD_RESPONSE /\
    mapGet (details e) (lit "classification") = Some (JStr (lit "rate-limit")) /\
    mapGet (details e) (lit "status") = Some (JNum (integer 429)) /\
    length (exchanges st') = 1%nat.
Proof.
  destruct (@classification_first_match sampleUnicode sampleWeb nat)
    as (Hrule & _ & Hscenario).
  assert (Hnone : forall text,
            test true rateLimitPattern text = false -> ~ mentionsRateLimit text).
  { intros text Hrate Hmention%test_rateLimitPattern. congruence. }
  assert (Hbody : forall status text needle before after,
            status <> 429%Z ->
            test true rateLimitPattern (lit text) = false ->
            bool_decide (lit needle ∈ challengeSignatures) = true ->
            toLowerCase (lit text) = lit before ++ lit needle ++ lit after ->
            classifyResponse status (lit text) = AntiBot).
  { intros status text needle before after Hstatus Hrate Hneedle Htext.
    apply (Hrule status (lit text)); [exact Hstatus|by apply Hnone|].
    right. right. exists (lit needle), (lit before), (lit after).
    split; [by apply (bool_decide_eq_true_1 (_ ∈ _))|exact Htext]. }
  split; [apply (Hrule 429%Z (lit "slow down")); by left|].
  split.
  { apply (Hrule 500%Z (lit "Rate  Limit exceeded")). right.
    apply test_rateLimitPattern. by vm_compute. }
  split.
  { apply (Hrule 403%Z (lit "forbidden")); [lia|apply Hnone; by vm_compute|].
    right. by left. }
  split.
  { apply (Hbody 500%Z _ "attention required" "" "! | cloudflare");
      [lia|by vm_compute|by vm_compute|by vm_compute]. }
  split.
  { apply (Hbody 503%Z _ "captcha" "please solve the " "");
      [lia|by vm_compute|by vm_compute|by vm_compute]. }
  split.
  { apply (Hbody 502%Z _ "验证码" "请输入" "");
      [lia|by vm_compute|by vm_compute|by vm_compute]. }
  split.
  { apply (Hrule 404%Z (lit "not found")); [lia|apply Hnone; by vm_compute|lia|lia|].
    intros Hsig%looksLikeAntiBotChallenge_spec. by vm_compute in Hsig. }
  destruct (Hscenario (sampleOptions rateLimited (Some (integer 0))) limitedClient
              (getPath "/search/x") (sampleUrl "/search/x") (initialState 0%nat)
              (sampleResponse 429 [] "too many requests"))
    as (e & st' & Hrun & Hcode & Hclass & Hstatus & Hlen).
  - reflexivity.
  - reflexivity.
  - by vm_compute.
  - reflexivity.
  - reflexivity.
  - exists e, st'. repeat split; assumption.
Defined.

(** A session: the first answer sets a cookie, the second deletes it, and
    every answer after that sets nothing. *)
Definition sessionTransport (request : FetchRequest) (calls : nat) : FetchResult * nat :=
  (match calls with
   | 0%nat => Fulfilled (sampleResponse 200 ["sid=abc; Path=/; HttpOnly"] "ok")
   | 1%nat => Fulfilled (sampleResponse 200 ["sid=deleted; Max-Age=0"] "ok")
   | _ => Fulfilled (sampleResponse 200 [] "ok")
   end, S calls).

Definition sessionClient : Client nat :=
  constructed (sampleOptions sessionTransport (Some (integer 0))).







End ClientExamples.

(** * Examples: the SubHD parser and provider *)

Section ProviderExamples.
Import UpstreamClient SubhdParser Subhd.
Local Open Scope string_scope.
Local Open Scope list_scope.

(** A result container as the search page has it. *)
Definition sampleCard (id heading line count : string) : jsstring :=
  SUBHD_CARD_MARKER
  ++ lit "<div class=" ++ dq ++ lit "view-text f12" ++ dq ++ lit "> <a class=" ++ dq
  ++ lit "link-dark" ++ dq ++ lit " href=" ++ dq ++ lit "/a/" ++ lit id ++ dq ++ lit ">"
  ++ lit heading ++ lit "</a></div>"
  ++ lit "<div class=" ++ dq ++ lit "text-truncate py-2 f11" ++ dq ++ lit ">" ++ lit line
  ++ lit "</div>"
  ++ lit "<i class=" ++ dq ++ lit "bi bi-download" ++ dq ++ lit "></i> <span class=" ++ dq
  ++ lit "x" ++ dq ++ lit "> " ++ lit count ++ lit " </span></div>".

(** Three containers; the first and the third share their identifier. *)
Definition samplePage : jsstring :=
  lit "<html><body>"
  ++ sampleCard "xD0xeo" "The Matrix 1999 UHD" "简体 ASS" "1,247"
  ++ sampleCard "MWFf2n" "The Matrix HI" "繁体 SRT" "52"
  ++ sampleCard "xD0xeo" "The Matrix Reloaded" "英文 vtt" "9"
  ++ lit "</body></html>".

Definition firstItem : SubhdSearchItem :=
  {| sid := lit "xD0xeo"; title := lit "The Matrix 1999 UHD"; language := lit "zh-cn";
     format := ass; downloads := 1247; hearingImpaired := None |}.
Definition secondItem : SubhdSearchItem :=
  {| sid := lit "MWFf2n"; title := lit "The Matrix HI"; language := lit "zh-tw";
     format := srt; downloads := 52; hearingImpaired := Some true |}.
Definition thirdItem : SubhdSearchItem :=
  {| sid := lit "xD0xeo"; title := lit "The Matrix Reloaded"; language := lit "en";
     format := vtt; downloads := 9; hearingImpaired := None |}.

Lemma search_items_deduplicated_witness :
  parseSubhdSearchItems samplePage = inr [thirdItem; secondItem] /\
  exists extracted,
    cardItems (cardsOf samplePage) = Some extracted /\
    NoDup (sid <$> [thirdItem; secondItem]) /\
    sid <$> [thirdItem; secondItem] = newSet (sid <$> extracted).
Proof.
  assert (Hrun : parseSubhdSearchItems samplePage = inr [thirdItem; secondItem])
    by (by vm_compute).
  split; [exact Hrun|].
  destruct (search_items_deduplicated samplePage [thirdItem; secondItem] Hrun)
    as (extracted & Hcards & Hnodup & Hkeys & _).
  exists extracted. split; [exact Hcards|]. split; [exact Hnodup|exact Hkeys].
Defined.

(** The containers yield three records, the first and the third with the
    same identifier and different fields; the extraction returns the fields
    of the third at the position of the first. *)
Lemma duplicate_identifier_keeps_last_fields :
  cardItems (cardsOf samplePage) = Some [firstItem; secondItem; thirdItem] /\
  sid firstItem = sid thirdItem /\
  parseSubhdSearchItems samplePage = inr [thirdItem; secondItem] /\
  title thirdItem <> title firstItem /\
  downloads thirdItem <> downloads firstItem.
Proof.
  split; [by vm_compute|]. split; [reflexivity|]. split; [by vm_compute|].
  split; [by vm_compute|discriminate].
Qed.

Definition gatePage : Response :=
  {| resp_url := lit "https://subhd.test/down/xD0xeo";
     resp_status := 200;
     resp_headers := WithGetSetCookie [lit "PHPSESSID=s1; path=/"];
     resp_text := inr (lit "<h5 class=" ++ dq ++ lit "card-header" ++ dq ++ lit ">Matrix 1999</h5>");
     resp_json := inl {| err_isError := true; err_name := lit "SyntaxError";
                         err_message := lit "Unexpected token" |} |}.

Definition apiAnswer (payload : jsvalue) : Response :=
  {| resp_url := lit "https://subhd.test/api/sub/down";
     resp_status := 200; resp_headers := WithGetSetCookie [];
     resp_text := inr []; resp_json := inr payload |}.

(** The stub of the classification test: the gate page for GET, the payload
    for POST. *)
Definition gateTransport (payload : jsvalue) (request : FetchRequest) (calls : nat)
  : FetchResult * nat :=
  (match fr_method request with
   | GET => Fulfilled gatePage
   | POST => Fulfilled (apiAnswer payload)
   end, S calls).

Definition gateOptions (payload : jsvalue) : SubhdProviderOptions nat :=
  {| po_baseUrl := Some (lit "https://subhd.test"); po_timeoutMs := None;
     po_retries := Some (integer 0); po_backoffMs := None; po_maxBackoffMs := None;
     po_fetchImpl := gateTransport payload |}.

(** The payload of the test, and the same payload without its success
    field. *)
Definition rejectedPayload : jsvalue :=
  JObj [ (lit "success", JBool false); (lit "pass", JBool false);
         (lit "msg", JStr (lit "请进行验证码验证")); (lit "url", JNull) ].
Definition unmarkedPayload : jsvalue :=
  JObj [ (lit "pass", JBool false);
         (lit "msg", JStr (lit "请进行验证码验证")); (lit "url", JNull) ].

Definition rejectingProvider : SubhdProvider nat :=
  returned (createSubhdProvider (gateOptions rejectedPayload)).
Definition unmarkedProvider : SubhdProvider nat :=
  returned (createSubhdProvider (gateOptions unmarkedPayload)).

Definition afterGate (this : SubhdProvider nat) : ClientState nat :=
  snd (requestText (sp_client this) (gatePageRequest this (lit "xD0xeo")) (initialState 0%nat)).

Lemma download_gate_classification_witness :
  exists e st',
    getDownloadPlan rejectingProvider (lit "subhd:xD0xeo") (initialState 0%nat)
      = (inl (ThrowApp e), st') /\
    code e = E_UPSTREAM_BAD_RESPONSE /\
    classificationOf e = Some (JStr (lit "anti-bot")) /\
    length (exchanges st') = 2%nat.
Proof.
  set (st1 := afterGate rejectingProvider).
  set (st2 := snd (requestJson (sp_client rejectingProvider)
                     (resolutionRequest rejectingProvider (lit "xD0xeo")
                        (lit "https://subhd.test")) st1)).
  destruct (download_gate_classification rejectingProvider (lit "subhd:xD0xeo") (lit "xD0xeo")
              (lit "<h5 class=" ++ dq ++ lit "card-header" ++ dq ++ lit ">Matrix 1999</h5>")
              {| page_sid := lit "xD0xeo"; page_title := lit "Matrix 1999";
                 fileStem := lit "Matrix 1999"; page_format := None |}
              {| href := lit "https://subhd.test/"; origin := lit "https://subhd.test";
                 pathname := lit "/" |}
              rejectedPayload (initialState 0%nat) st1 st2)
    as (e & Hrun & Hcode & Hclass & _).
  - by vm_compute.
  - by vm_compute.
  - by vm_compute.
  - by vm_compute.
  - by vm_compute.
  - by vm_compute.
  - discriminate.
  - discriminate.
  - by vm_compute.
  - exists e, st2. split; [exact Hrun|]. split; [exact Hcode|].
    split; [rewrite Hclass; by vm_compute|by vm_compute].
Defined.

(** The message asks for verification, the payload has no success field,
    and the error is classified bad-response. *)
Lemma unmarked_rejection_is_bad_response :
  test false verificationPattern
       (normalizeErrorMessage (prop unmarkedPayload (lit "msg"))) = true /\
  isTrue (prop unmarkedPayload (lit "success")) = false /\
  exists e st',
    getDownloadPlan unmarkedProvider (lit "subhd:xD0xeo") (initialState 0%nat)
      = (inl (ThrowApp e), st') /\
    code e = E_UPSTREAM_BAD_RESPONSE /\
    classificationOf e = Some (JStr (lit "bad-response")).
Proof.
  split; [by vm_compute|]. split; [reflexivity|].
  exists (createSubhdDownloadApiError (lit "xD0xeo") unmarkedPayload
            (downPageUrl unmarkedProvider (lit "xD0xeo"))),
         (snd (getDownloadPlan unmarkedProvider (lit "subhd:xD0xeo") (initialState 0%nat))).
  split; [by vm_compute|]. split; by vm_compute.
Qed.

Lemma provider_id_shapes_witness :
  parseSubhdProviderId (lit "  subhd:xD0xeo ") = inr (lit "xD0xeo") /\
  parseSubhdProviderId (lit "xD0xeo") = inr (lit "xD0xeo") /\
  parseSubhdProviderId (lit "subhd:") = inl (ThrowApp (notFoundError (lit "subhd:"))) /\
  getDownloadPlan rejectingProvider (lit "subhd:xD0/xeo") (initialState 0%nat)
    = (inl (ThrowApp (notFoundError (lit "subhd:xD0/xeo"))), initialState 0%nat).
Proof.
  split.
  { destruct (provider_id_shapes rejectingProvider (lit "  subhd:xD0xeo ")) as [Hprefixed _].
    apply (Hprefixed (lit "xD0xeo")); [by vm_compute|discriminate|by vm_compute]. }
  split.
  { destruct (provider_id_shapes rejectingProvider (lit "xD0xeo")) as (_ & Hbare & _).
    replace (lit "xD0xeo") with (trim (lit "xD0xeo")) at 2 by (by vm_compute).
    apply Hbare; [by vm_compute|by vm_compute]. }
  split.
  { destruct (provider_id_shapes rejectingProvider (lit "subhd:")) as (_ & _ & Hother).
    apply Hother.
    - intros sid Hsid. left.
      replace (trim (lit "subhd:")) with (SUBHD_ID_PREFIX ++ []) in Hsid by (by vm_compute).
      by apply app_inv_head in Hsid.
    - right. by vm_compute. }
  destruct (provider_id_shapes rejectingProvider (lit "subhd:xD0/xeo")) as (_ & _ & Hother).
  apply Hother.
  - intros sid Hsid. right.
    replace (trim (lit "subhd:xD0/xeo")) with (SUBHD_ID_PREFIX ++ lit "xD0/xeo") in Hsid
      by (by vm_compute).
    apply app_inv_head in Hsid. subst sid. by vm_compute.
  - right. by vm_compute.
Defined.

End ProviderExamples.

(** * Examples: more of the client and the provider *)

Section MoreExamples.
Import UpstreamClient SubhdParser Subhd SubhdProvider ExitCodes.
Local Open Scope string_scope.
Local Open Scope list_scope.



Lemma request_outcome_witness :
  exists final response,
    last (exchanges (snd (request sessionClient (getPath "/down/x") (initialState 0%nat))))
      = Some final /\
    fst (request sessionClient (getPath "/down/x") (initialState 0%nat)) = inr response /\
    resp_ok response = true /\
    ex_result final = Fulfilled response.
Proof.
  destruct (request_outcome sessionClient (sampleOptions sessionTransport (Some (integer 0)))
              (getPath "/down/x") (sampleUrl "/down/x") (initialState 0%nat))
    as (final & Hlast & Hend).
  - reflexivity.
  - by vm_compute.
  - destruct (fst (request sessionClient (getPath "/down/x") (initialState 0%nat)))
      as [e|response] eqn:Hrun; [by vm_compute in Hrun|].
    destruct Hend as [Hok Hresult]. exists final, response.
    split; [exact Hlast|]. split; [reflexivity|]. split; [exact Hok|exact Hresult].
Defined.

Lemma request_failure_is_upstream_witness :
  exists e,
    fst (request busyClient (getPath "/search/x") (initialState 0%nat)) = inl (ThrowApp e) /\
    code e = E_UPSTREAM_BAD_RESPONSE /\
    mapErrorCodeToExitCode (code e) = 5%Z.
Proof.
  destruct (request busyClient (getPath "/search/x") (initialState 0%nat))
    as [[thrown|response] st'] eqn:Hrun; [|by vm_compute in Hrun].
  destruct (request_failure_is_upstream busyClient (sampleOptions alwaysBusy (Some (integer 2)))
              (getPath "/search/x") (sampleUrl "/search/x") (initialState 0%nat) st' thrown)
    as (e & -> & _ & Hexit).
  - reflexivity.
  - by vm_compute.
  - intros req w e He. discriminate He.
  - exact Hrun.
  - exists e. split; [done|]. split; [|exact Hexit].
    vm_compute in Hrun. by injection Hrun as <- _.
Defined.

Lemma provider_id_canonical_witness :
  parseSubhdProviderId (lit "  subhd:xD0xeo ") = inr (lit "xD0xeo") /\
  parseSubhdProviderId (toSubhdProviderId (lit "xD0xeo")) = inr (lit "xD0xeo") /\
  parseSubhdProviderId (lit "xD0xeo") = inr (lit "xD0xeo").
Proof.
  assert (Hid : parseSubhdProviderId (lit "  subhd:xD0xeo ") = inr (lit "xD0xeo"))
    by (by vm_compute).
  split; [exact Hid|].
  destruct (provider_id_canonical (lit "  subhd:xD0xeo ") (lit "xD0xeo") Hid)
    as (_ & _ & Hprefixed & Hbare).
  by split.
Defined.

Lemma provider_base_url_witness :
  createSubhdProvider (gateOptions rejectedPayload) = inr rejectingProvider /\
  baseUrl (sp_client rejectingProvider) = lit "https://subhd.test/" /\
  sp_baseUrl rejectingProvider = lit "https://subhd.test/".
Proof.
  assert (Hnew : createSubhdProvider (gateOptions rejectedPayload) = inr rejectingProvider)
    by reflexivity.
  split; [exact Hnew|].
  destruct (provider_base_url (gateOptions rejectedPayload) rejectingProvider Hnew)
    as (Hsame & Hbase & _).
  rewrite Hsame, Hbase. split; by vm_compute.
Defined.

(** A gate that answers every request with a challenge page. *)
Definition challengeTransport (request : FetchRequest) (calls : nat) : FetchResult * nat :=
  (Fulfilled (sampleResponse 200 [] "<html>Please solve the captcha</html>"), S calls).

Definition challengedProvider : SubhdProvider nat :=
  returned (createSubhdProvider
              {| po_baseUrl := Some (lit "https://subhd.test"); po_timeoutMs := None;
                 po_retries := Some (integer 0); po_backoffMs := None; po_maxBackoffMs := None;
                 po_fetchImpl := challengeTransport |}).

Lemma download_gate_challenge_stops_witness :
  exists e st',
    getDownloadPlan challengedProvider (lit "subhd:xD0xeo") (initialState 0%nat)
      = (inl (ThrowApp e), st') /\
    mapGet (details e) (lit "reason") = Some (JStr (lit "download-gate-challenge")) /\
    length (exchanges st') = 1%nat.
Proof.
  destruct (download_gate_challenge_stops challengedProvider (lit "subhd:xD0xeo")
              (lit "xD0xeo") (initialState 0%nat)) as [Hstop _]; [by vm_compute|].
  destruct (Hstop (lit "<html>Please solve the captcha</html>")
              (snd (requestText (sp_client challengedProvider)
                      (gatePageRequest challengedProvider (lit "xD0xeo"))
                      (initialState 0%nat))))
    as (e & Hrun & _ & _ & Hreason & _); [by vm_compute|by vm_compute|].
  eexists e, _. split; [exact Hrun|]. split; [exact Hreason|by vm_compute].
Defined.

Definition resolvedPayload : jsvalue :=
  JObj [ (lit "success", JBool true); (lit "pass", JBool true);
         (lit "url", JStr (lit "https://files.test/matrix.ass")) ].

Definition resolvingProvider : SubhdProvider nat :=
  returned (createSubhdProvider (gateOptions resolvedPayload)).

Lemma download_plan_fields_witness :
  exists st',
    getDownloadPlan resolvingProvider (lit "xD0xeo") (initialState 0%nat)
      = (inr {| p_id := lit "subhd:xD0xeo"; p_providerId := lit "subhd";
                p_fileName := lit "matrix.ass";
                p_sourceUrl := lit "https://files.test/matrix.ass";
                p_format := ass |}, st') /\
    parseSubhdProviderId (lit "subhd:xD0xeo") = inr (lit "xD0xeo") /\
    length (exchanges st') = 2%nat.
Proof.
  set (st1 := afterGate resolvingProvider).
  set (st2 := snd (requestJson (sp_client resolvingProvider)
                     (resolutionRequest resolvingProvider (lit "xD0xeo")
                        (lit "https://subhd.test")) st1)).
  pose proof (download_plan_fields resolvingProvider (lit "xD0xeo") (lit "xD0xeo")
                (lit "<h5 class=" ++ dq ++ lit "card-header" ++ dq ++ lit ">Matrix 1999</h5>")
                {| page_sid := lit "xD0xeo"; page_title := lit "Matrix 1999";
                   fileStem := lit "Matrix 1999"; page_format := None |}
                {| href := lit "https://subhd.test/"; origin := lit "https://subhd.test";
                   pathname := lit "/" |}
                resolvedPayload (lit "https://files.test/matrix.ass")
                (initialState 0%nat) st1 st2) as Hplan.
  cbv zeta in Hplan.
  match type of Hplan with
  | _ -> _ -> _ -> _ -> _ -> _ -> _ -> _ -> _ -> match ?s with _ => _ end =>
    replace s with (Some (lit "matrix.ass")) in Hplan by (by vm_compute)
  end.
  destruct Hplan as [Hrun Hid];
    [by vm_compute|by vm_compute|by vm_compute|by vm_compute|by vm_compute|by vm_compute
    |by vm_compute|by vm_compute|by vm_compute|].
  exists st2. split; [|split; [exact Hid|by vm_compute]].
  rewrite Hrun. by vm_compute.
Defined.

Lemma download_page_shape_witness :
  exists page,
    parseSubhdDownloadPage
      (lit "<h5 class=" ++ dq ++ lit "card-header" ++ dq ++ lit ">Matrix: 1999 / UHD</h5>")
      (lit "xD0xeo") = inr page /\
    page_sid page = lit "xD0xeo" /\
    fileStem page = lit "Matrix  1999   UHD" /\
    (0 < length (fileStem page) <= 96)%nat.
Proof.
  set (html := lit "<h5 class=" ++ dq ++ lit "card-header" ++ dq
               ++ lit ">Matrix: 1999 / UHD</h5>").
  destruct (parseSubhdDownloadPage html (lit "xD0xeo")) as [e|page] eqn:Hpage;
    [by vm_compute in Hpage|].
  destruct (download_page_shape html (lit "xD0xeo") page Hpage) as (Hsid & _ & _ & Hlen).
  exists page. split; [done|]. split; [exact Hsid|]. split; [|exact Hlen].
  vm_compute in Hpage. injection Hpage as <-. by vm_compute.
Defined.

Lemma search_item_fields_witness :
  Forall (fun item =>
            title item <> [] /\
            language item ∈ [lit "zh-cn"; lit "zh-tw"; lit "en"; lit "zh"] /\
            hearingImpaired item <> Some false) [thirdItem; secondItem].
Proof.
  apply (search_item_fields samplePage [thirdItem; secondItem]). by vm_compute.
Defined.

Lemma backoff_doubles_to_cap_witness :
  computeBackoff 250 3000 1 = 250%Z /\
  computeBackoff 250 3000 4 = 2000%Z /\
  computeBackoff 250 3000 5 = 3000%Z /\
  (computeBackoff 250 3000 4 <= computeBackoff 250 3000 5)%Z.
Proof.
  destruct (backoff_doubles_to_cap 250 3000 4) as (_ & _ & Hmono & _); [lia|lia|].
  split; [reflexivity|]. split; [reflexivity|]. split; [reflexivity|exact Hmono].
Defined.

End MoreExamples.
